(** * typst_inkscape: transform resolution and text-label extraction

    A shallow embedding of [typst_inkscape.py] and the properties its
    specification states about it.

    Modelling conventions.
    - A Python [str] is a [string]; a character is an [ascii], read as the
      code point of that number (so the documents covered are those whose
      characters lie below 256).
    - A Python [float] (and a NumPy float64 entry) is a real number: the
      arithmetic is exact, rounding is not modelled.
    - The builtin [float()] is a parameter [float : string -> option R] of
      the development; [None] stands for the [ValueError] it raises.
    - An exception is a value of [exn]; code that can raise returns a
      [result]. *)

From Stdlib Require Import Reals Lra String Ascii List Lia Bool.
From stdpp Require Import gmap strings.
Import ListNotations.

Local Open Scope string_scope.

#[local] Arguments String.append !_ _ / : simpl nomatch.

(** ** Exceptions *)

(** [NoDimensions] is the [ValueError("SVG has no width/height or viewBox
    attribute.")] raised by [parse_svg_dimensions]; [FloatError s] is the
    [ValueError] raised by [float(s)]; [UnpackError] is the [ValueError]
    of a tuple assignment whose right-hand side has the wrong length;
    [IndexError] is a list index out of range; [AttributeError] is a
    method call on [None]. *)
Inductive exn :=
| NoDimensions
| FloatError (arg : string)
| UnpackError
| IndexError
| AttributeError.

Inductive result (A : Type) :=
| Ok (a : A)
| Raise (e : exn).
Arguments Ok {A} a.
Arguments Raise {A} e.

Definition bind {A B} (r : result A) (k : A -> result B) : result B :=
  match r with
  | Ok a => k a
  | Raise e => Raise e
  end.

Notation "'let*' x ':=' r 'in' k" := (bind r (fun x => k))
  (at level 10, x pattern, r at level 100, k at level 200).

Definition raises {A} (r : result A) : Prop := exists e, r = Raise e.

(** ** Characters and strings *)

(** [str.isspace] on the code points below 256: TAB, LF, VT, FF, CR, the
    separators FS, GS, RS, US, the space, NEL and the no-break space. This
    is the class of [\s] in a [str] pattern and of [str.strip()]. *)
Definition isspace (c : ascii) : bool :=
  let n := nat_of_ascii c in
  (Nat.leb 9 n && Nat.leb n 13) || (Nat.leb 28 n && Nat.leb n 32)
  || Nat.eqb n 133 || Nat.eqb n 160.

(** The class of [\d] below 256. *)
Definition isdigit (c : ascii) : bool :=
  let n := nat_of_ascii c in Nat.leb 48 n && Nat.leb n 57.

(** [s.lstrip()], also the greedy [\s*] at the head of a pattern. *)
Fixpoint lstrip (s : string) : string :=
  match s with
  | String c s' => if isspace c then lstrip s' else s
  | EmptyString => EmptyString
  end.

Fixpoint rstrip (s : string) : string :=
  match s with
  | String c s' =>
      match rstrip s' with
      | EmptyString => if isspace c then EmptyString else String c EmptyString
      | r => String c r
      end
  | EmptyString => EmptyString
  end.

(** [s.strip()] *)
Definition strip (s : string) : string := rstrip (lstrip s).

(** [Some rest] when [s = p ++ rest]. *)
Fixpoint strip_prefix (p s : string) : option string :=
  match p, s with
  | EmptyString, _ => Some s
  | String a p', String b s' =>
      if Ascii.eqb a b then strip_prefix p' s' else None
  | String _ _, EmptyString => None
  end.

(** The longest prefix of [s] whose characters satisfy [P], and what
    follows it: a greedy character class [[...]*]. *)
Fixpoint span (P : ascii -> bool) (s : string) : string * string :=
  match s with
  | String c s' =>
      if P c then let (a, r) := span P s' in (String c a, r)
      else (EmptyString, s)
  | EmptyString => (EmptyString, EmptyString)
  end.

(** [re.sub(r'[^\d.]', '', s)] *)
Definition numeric_char (c : ascii) : bool := isdigit c || Ascii.eqb c ".".

Fixpoint keep (P : ascii -> bool) (s : string) : string :=
  match s with
  | String c s' => if P c then String c (keep P s') else keep P s'
  | EmptyString => EmptyString
  end.

Definition sub_non_numeric (s : string) : string := keep numeric_char s.

(** [re.split(r'[,\s]+', s)]: the pieces between the maximal runs of
    separators; a separator at either end leaves an empty piece there. *)
Definition is_sep (c : ascii) : bool := Ascii.eqb c "," || isspace c.

Definition starts_with (P : ascii -> bool) (s : string) : bool :=
  match s with
  | String c _ => P c
  | EmptyString => false
  end.

Fixpoint re_split (s : string) : list string :=
  match s with
  | EmptyString => [EmptyString]
  | String c s' =>
      if is_sep c then
        if starts_with is_sep s' then re_split s'
        else EmptyString :: re_split s'
      else
        match re_split s' with
        | p :: ps => String c p :: ps
        | [] => [String c EmptyString]
        end
  end.

(** [s.split()]: the maximal runs of non-space characters. *)
Fixpoint split_ws (s : string) : list string :=
  match s with
  | EmptyString => []
  | String c s' =>
      if isspace c then split_ws s'
      else if starts_with (fun c => negb (isspace c)) s' then
        match split_ws s' with
        | p :: ps => String c p :: ps
        | [] => [String c EmptyString]
        end
      else String c EmptyString :: split_ws s'
  end.

(** [re.search]: the match at the leftmost position that has one. *)
Fixpoint re_search {A} (match_at : string -> option A) (s : string) : option A :=
  match match_at s with
  | Some r => Some r
  | None =>
      match s with
      | String _ s' => re_search match_at s'
      | EmptyString => None
      end
  end.

(** ** Matrices *)

Local Open Scope R_scope.

(** A 3x3 NumPy array, [mij] being the entry [[i, j]]. *)
Record matrix := Mat {
  m00 : R; m01 : R; m02 : R;
  m10 : R; m11 : R; m12 : R;
  m20 : R; m21 : R; m22 : R
}.

(** [np.identity(3)] *)
Definition identity : matrix := Mat 1 0 0  0 1 0  0 0 1.

(** [A @ B] for two 3x3 arrays *)
Definition matmul (A B : matrix) : matrix :=
  Mat (m00 A * m00 B + m01 A * m10 B + m02 A * m20 B)
      (m00 A * m01 B + m01 A * m11 B + m02 A * m21 B)
      (m00 A * m02 B + m01 A * m12 B + m02 A * m22 B)
      (m10 A * m00 B + m11 A * m10 B + m12 A * m20 B)
      (m10 A * m01 B + m11 A * m11 B + m12 A * m21 B)
      (m10 A * m02 B + m11 A * m12 B + m12 A * m22 B)
      (m20 A * m00 B + m21 A * m10 B + m22 A * m20 B)
      (m20 A * m01 B + m21 A * m11 B + m22 A * m21 B)
      (m20 A * m02 B + m21 A * m12 B + m22 A * m22 B).

Infix "@@" := matmul (at level 40, left associativity).

(** [A @ np.array([x, y, w])] *)
Definition matvec (A : matrix) (v : R * R * R) : R * R * R :=
  let '(x, y, w) := v in
  (m00 A * x + m01 A * y + m02 A * w,
   m10 A * x + m11 A * y + m12 A * w,
   m20 A * x + m21 A * y + m22 A * w).

(** The product [M1 . M2 . ... . Mk] of a list of matrices. *)
Definition mat_product (Ms : list matrix) : matrix :=
  fold_right matmul identity Ms.

(** The matrices the three transform functions denote. *)
Definition matrix_of (a b c d e f : R) : matrix := Mat a c e  b d f  0 0 1.
Definition translation (tx ty : R) : matrix := Mat 1 0 tx  0 1 ty  0 0 1.
Definition scaling (sx sy : R) : matrix := Mat sx 0 0  0 sy 0  0 0 1.

(** [PX_TO_PT = 72.0 / 96.0] *)
Definition PX_TO_PT : R := 72 / 96.

Local Close Scope R_scope.

(** ** The transform pattern *)

(** Group 1 of [\s*(matrix|translate|scale)\s*\(([^)]+)\)]. *)
Inductive func := Fmatrix | Ftranslate | Fscale.

Definition func_name (f : func) : string :=
  match f with
  | Fmatrix => "matrix"
  | Ftranslate => "translate"
  | Fscale => "scale"
  end.

(** The alternation [(matrix|translate|scale)] at the head of [s]. *)
Definition match_name (s : string) : option (func * string) :=
  match strip_prefix "matrix" s with
  | Some r => Some (Fmatrix, r)
  | None =>
      match strip_prefix "translate" s with
      | Some r => Some (Ftranslate, r)
      | None =>
          match strip_prefix "scale" s with
          | Some r => Some (Fscale, r)
          | None => None
          end
      end
  end.

Definition not_rparen (c : ascii) : bool := negb (Ascii.eqb c ")").

(** A match of the whole pattern starting at the head of [s]: the two
    groups and the text after the match. None of the greedy parts can give
    characters back: what follows [\s*] is no space, and what follows
    [[^)]+] is the parenthesis it stops at. *)
Definition match_transform (s : string) : option (func * string * string) :=
  match match_name (lstrip s) with
  | Some (f, s1) =>
      match lstrip s1 with
      | String "(" s2 =>
          match span not_rparen s2 with
          | (String c a, String ")" rest) => Some (f, String c a, rest)
          | _ => None
          end
      | _ => None
      end
  | None => None
  end.

(** [re.findall(pattern, s)]: scan from the left; after a match go on
    behind it, otherwise one character further. [fuel] bounds the number
    of positions tried. *)
Fixpoint findall_from (fuel : nat) (s : string) : list (func * string) :=
  match fuel with
  | O => []
  | S n =>
      match match_transform s with
      | Some (f, args, rest) => (f, args) :: findall_from n rest
      | None =>
          match s with
          | String _ s' => findall_from n s'
          | EmptyString => []
          end
      end
  end.

Definition findall (s : string) : list (func * string) :=
  findall_from (S (String.length s)) s.

(** ** Documents *)

(** An lxml element: its tag in Clark notation, its attributes, the text
    before its first child, its children in document order, and the text
    between its end and the next sibling. An absent [text] or [tail] is
    the empty string. Comments and processing instructions are not
    modelled. *)
#[warnings="-register-all"]
Inductive element := Element {
  tag : string;
  attrib : gmap string string;
  text : string;
  children : list element;
  tail : string
}.

Definition SVG_NS : string := "http://www.w3.org/2000/svg".

(** [etree.QName(SVG_NS, name)] as the string it compares equal to. *)
Definition QName (ns name : string) : string := "{" ++ ns ++ "}" ++ name.

(** [e.get(key)] and [e.get(key, d)] *)
Definition get (e : element) (key : string) : option string := attrib e !! key.
Definition get_or (e : element) (key d : string) : string := default d (attrib e !! key).

(** ["".join(e.itertext())]: the text of the element and of everything
    below it, with the tails of the descendants. *)
Fixpoint itertext (e : element) : string :=
  text e ++
  (fix below (cs : list element) : string :=
     match cs with
     | [] => EmptyString
     | c :: cs' => itertext c ++ tail c ++ below cs'
     end) (children e).

(** An element of the tree as the loop of [process_svg] sees it: the
    element, its ancestors from the parent up to the root (what
    [iterancestors] yields), and its position, the child indices that lead
    to it from the root, which stands for the identity of the object. *)
Record node := Node {
  node_path : list nat;
  node_ancestors : list element;
  node_element : element
}.

(** [root.xpath('//svg:text')]: the text elements in document order. *)
Fixpoint xpath_text (ancestors : list element) (path : list nat) (e : element)
  : list node :=
  ((if String.eqb (tag e) (QName SVG_NS "text") then [Node path ancestors e] else [])
   ++ (fix below (i : nat) (cs : list element) : list node :=
         match cs with
         | [] => []
         | c :: cs' => xpath_text (e :: ancestors) (path ++ [i]) c ++ below (S i) cs'
         end) 0%nat (children e))%list.

(** The tree after [node.getparent().remove(node)] for every node of
    [to_remove]: a removed element goes with its subtree and its tail. *)
Fixpoint remove_nodes (to_remove : list (list nat)) (path : list nat) (e : element)
  : element :=
  Element (tag e) (attrib e) (text e)
    ((fix below (i : nat) (cs : list element) : list element :=
        match cs with
        | [] => []
        | c :: cs' =>
            if bool_decide ((path ++ [i])%list ∈ to_remove) then below (S i) cs'
            else remove_nodes to_remove (path ++ [i])%list c :: below (S i) cs'
        end) 0%nat (children e))
    (tail e).

(** ** Style tokens *)

(** [font-size:([\d.]+)px] at the head of [s]: group 1. *)
Definition match_font_size (s : string) : option string :=
  match strip_prefix "font-size:" s with
  | Some r =>
      match span numeric_char r with
      | (String c num, r') =>
          match strip_prefix "px" r' with
          | Some _ => Some (String c num)
          | None => None
          end
      | _ => None
      end
  | None => None
  end.

(** [text-anchor:(start|middle|end)] at the head of [s]: group 1. *)
Definition match_text_anchor (s : string) : option string :=
  match strip_prefix "text-anchor:" s with
  | Some r =>
      if bool_decide (is_Some (strip_prefix "start" r)) then Some "start"
      else if bool_decide (is_Some (strip_prefix "middle" r)) then Some "middle"
      else if bool_decide (is_Some (strip_prefix "end" r)) then Some "end"
      else None
  | None => None
  end.

(** One entry of [labels]. *)
Record label := Label {
  x_pt : R;
  y_pt : R;
  font_size_pt : R;
  content : string;
  anchor : string
}.

(** ** The program *)

Section Program.

(** The builtin [float()] on strings. *)
Variable float : string -> option R.

Local Open Scope R_scope.

Definition to_float (s : string) : result R :=
  match float s with
  | Some x => Ok x
  | None => Raise (FloatError s)
  end.

(** [[float(arg) for arg in args]] *)
Fixpoint floats (args : list string) : result (list R) :=
  match args with
  | [] => Ok []
  | arg :: args' =>
      let* x := to_float arg in
      let* xs := floats args' in
      Ok (x :: xs)
  end.

(** The matrix [m] one iteration of the loop of [parse_transform] builds
    from the function name and its arguments: the [if]/[elif] chain acting
    on [np.identity(3)]. *)
Definition function_matrix (f : func) (args : list R) : result matrix :=
  match f, args with
  | Fmatrix, [a; b; c; d; e; f] => Ok (matrix_of a b c d e f)
  | Fmatrix, _ => Ok identity
  | Ftranslate, tx :: rest =>
      Ok (translation tx (match rest with ty :: _ => ty | [] => 0 end))
  | Fscale, sx :: rest =>
      Ok (scaling sx (match rest with sy :: _ => sy | [] => sx end))
  | _, [] => Raise IndexError
  end.

(** The matrix of one match [(func, args_str)]. *)
Definition match_matrix (m : func * string) : result matrix :=
  let* args := floats (re_split (strip (snd m))) in
  function_matrix (fst m) args.

(** The loop of [parse_transform] over the matches, from the accumulator
    [total_transform]. *)
Fixpoint compose_matches (matches : list (func * string)) (total_transform : matrix)
  : result matrix :=
  match matches with
  | [] => Ok total_transform
  | m :: matches' =>
      let* mat := match_matrix m in
      compose_matches matches' (mat @@ total_transform)
  end.

Definition parse_transform (transform_str : option string) : result matrix :=
  match transform_str with
  | None | Some EmptyString => Ok identity
  | Some s => compose_matches (findall s) identity
  end.

(** [_, _, w_vb, h_vb = map(float, tokens)]: the conversions happen one
    by one as the assignment draws the values, and a fifth value is drawn
    to see that there is none. *)
Definition unpack_viewbox (tokens : list string) : result (R * R) :=
  match tokens with
  | t1 :: t2 :: t3 :: t4 :: more =>
      let* _ := to_float t1 in
      let* _ := to_float t2 in
      let* w_vb := to_float t3 in
      let* h_vb := to_float t4 in
      match more with
      | [] => Ok (w_vb, h_vb)
      | t5 :: _ => let* _ := to_float t5 in Raise UnpackError
      end
  | _ => let* _ := floats tokens in Raise UnpackError
  end.

Definition parse_svg_dimensions (root : element) : result (R * R) :=
  let width_str := get root "width" in
  let height_str := get root "height" in
  match width_str, height_str with
  | Some (String _ _ as width_str), Some (String _ _ as height_str) =>
      let* w := to_float (sub_non_numeric width_str) in
      let* h := to_float (sub_non_numeric height_str) in
      Ok (w * PX_TO_PT, h * PX_TO_PT)
  | _, _ =>
      match attrib root !! "viewBox" with
      | Some viewBox =>
          let* (w_vb, h_vb) := unpack_viewbox (split_ws viewBox) in
          Ok (w_vb * PX_TO_PT, h_vb * PX_TO_PT)
      | None => Raise NoDimensions
      end
  end.

(** The loop of [get_cumulative_transform] over [element.iterancestors()],
    from the accumulator [transform]; it ends at the first ancestor whose
    tag is [svg]. *)
Fixpoint ancestors_transform (ancestors : list element) (transform : matrix)
  : result matrix :=
  match ancestors with
  | [] => Ok transform
  | ancestor :: above =>
      if String.eqb (tag ancestor) (QName SVG_NS "svg") then Ok transform
      else
        let* ancestor_transform :=
          parse_transform (Some (get_or ancestor "transform" "")) in
        ancestors_transform above (ancestor_transform @@ transform)
  end.

Definition get_cumulative_transform (ancestors : list element) (e : element)
  : result matrix :=
  let* transform := ancestors_transform ancestors identity in
  let* element_transform := parse_transform (Some (get_or e "transform" "")) in
  Ok (transform @@ element_transform).

(** [float(font_size_match.group(1)) if font_size_match else 16.0] *)
Definition font_size_px_of (style : string) : result R :=
  match re_search match_font_size style with
  | Some g => to_float g
  | None => Ok 16
  end.

(** [anchor_match.group(1) if anchor_match else
    text_node.get('text-anchor', 'start')] *)
Definition text_anchor_of (text_node : element) (style : string) : string :=
  match re_search match_text_anchor style with
  | Some g => g
  | None => get_or text_node "text-anchor" "start"
  end.

(** The body of the loop of [process_svg] for one text element: [Ok None]
    is the [continue], [Ok (Some l)] the label appended. *)
Definition extract_label (n : node) : result (option label) :=
  let text_node := node_element n in
  let* x := to_float (get_or text_node "x" "0") in
  let* y := to_float (get_or text_node "y" "0") in
  let style := get_or text_node "style" "" in
  let* font_size_px := font_size_px_of style in
  let text_anchor := text_anchor_of text_node style in
  let raw_text := strip (itertext text_node) in
  match raw_text with
  | EmptyString => Ok None
  | _ =>
      let* transform_matrix :=
        get_cumulative_transform (node_ancestors n) text_node in
      let '(final_x_px, final_y_px, _) := matvec transform_matrix (x, y, 1) in
      let sy := sqrt (m10 transform_matrix ^ 2 + m11 transform_matrix ^ 2) in
      let final_font_size_px := font_size_px * sy in
      let final_x_pt := final_x_px * PX_TO_PT in
      let final_y_pt := final_y_px * PX_TO_PT in
      let final_font_size_pt := final_font_size_px * PX_TO_PT in
      let ascent_estimate := 0.8 * final_font_size_pt in
      let final_y_pt := final_y_pt - ascent_estimate in
      Ok (Some (Label final_x_pt final_y_pt final_font_size_pt raw_text text_anchor))
  end.

(** The loop of [process_svg] over the text elements, threading [labels]
    and [text_nodes_to_remove]. *)
Fixpoint extract_labels (nodes : list node)
    (labels : list label) (text_nodes_to_remove : list (list nat))
  : result (list label * list (list nat)) :=
  match nodes with
  | [] => Ok (labels, text_nodes_to_remove)
  | n :: nodes' =>
      let* l := extract_label n in
      match l with
      | None => extract_labels nodes' labels text_nodes_to_remove
      | Some l =>
          extract_labels nodes' (labels ++ [l])%list
            (text_nodes_to_remove ++ [node_path n])%list
      end
  end.

(** What a run of [process_svg] computes before it writes its two files:
    the dimensions, the labels, the elements marked for removal and the
    cleaned tree. *)
Record conversion := Conversion {
  width_pt : R;
  height_pt : R;
  labels : list label;
  text_nodes_to_remove : list (list nat);
  clean_svg : element
}.

(** [process_svg] from the parsed tree on, up to the writing of the
    files. A failure of [parse_svg_dimensions] ends the run ([sys.exit(1)])
    before anything else is computed; removing the root, which has no
    parent, fails too. *)
Definition process_svg (root : element) : result conversion :=
  let* (width_pt, height_pt) := parse_svg_dimensions root in
  let* (labels, to_remove) := extract_labels (xpath_text [] [] root) [] [] in
  if bool_decide ([] ∈ to_remove) then Raise AttributeError
  else Ok (Conversion width_pt height_pt labels to_remove
             (remove_nodes to_remove [] root)).

End Program.

(** ** A reading of decimal literals

    The instance of [float()] used in the examples: an optional sign,
    digits with an optional fractional part, read exactly. Every other
    string is rejected. *)

Definition digit_value (c : ascii) : Z := Z.of_nat (nat_of_ascii c - 48).

Fixpoint digits_value (acc : Z) (s : string) : option Z :=
  match s with
  | EmptyString => Some acc
  | String c s' =>
      if isdigit c then digits_value (10 * acc + digit_value c)%Z s' else None
  end.

Definition unsigned_decimal (s : string) : option R :=
  let (int_part, r) := span isdigit s in
  match r with
  | EmptyString =>
      match int_part with
      | EmptyString => None
      | _ => option_map IZR (digits_value 0 int_part)
      end
  | String "." frac =>
      match int_part ++ frac with
      | EmptyString => None
      | ds =>
          option_map (fun n => (IZR n / IZR (10 ^ Z.of_nat (String.length frac)))%R)
                     (digits_value 0 ds)
      end
  | _ => None
  end.

Definition decimal (s : string) : option R :=
  match strip s with
  | String "-" s' => option_map Ropp (unsigned_decimal s')
  | String "+" s' => unsigned_decimal s'
  | s' => unsigned_decimal s'
  end.

(** * Notions the properties are stated with *)

(** ** Transform strings as lists of function calls

    The strings the specification speaks of: calls of functions one after
    the other. An [item] is either a call of one of the three functions
    the pattern names, with the white space before it and between its name
    and its parenthesis, or any other text that ends in a closing
    parenthesis and in which the pattern finds no call, such as
    [rotate(30)] or [translateX(5)]. *)

(** Every character of [s] satisfies [P]. *)
Fixpoint all_chars (P : ascii -> bool) (s : string) : bool :=
  match s with
  | String c s' => P c && all_chars P s'
  | EmptyString => true
  end.

(** The last character of [s]. *)
Fixpoint last_char (s : string) : option ascii :=
  match s with
  | EmptyString => None
  | String c EmptyString => Some c
  | String _ s' => last_char s'
  end.

(** One of the three names stands somewhere in [s]. *)
Fixpoint mentions_name (s : string) : bool :=
  match s with
  | EmptyString => false
  | String _ s' => bool_decide (is_Some (match_name s)) || mentions_name s'
  end.

(** The pattern finds no call in [s]. *)
Definition finds_nothing (s : string) : bool :=
  match findall s with
  | [] => true
  | _ :: _ => false
  end.

Inductive item :=
| Call (pre : string) (f : func) (mid : string) (args : string)
| Other (u : string).

(** The text of an item, and of a list of items followed by [trail]. *)
Definition render_item (i : item) : string :=
  match i with
  | Call pre f mid args => pre ++ func_name f ++ mid ++ "(" ++ args ++ ")"
  | Other u => u
  end.

Fixpoint render (items : list item) (trail : string) : string :=
  match items with
  | [] => trail
  | i :: items' => render_item i ++ render items' trail
  end.

(** A call has white space where it may, and arguments that are not
    empty and hold no closing parenthesis; other text ends in a closing
    parenthesis and holds no call the pattern finds. *)
Definition well_formed (i : item) : bool :=
  match i with
  | Call pre f mid args =>
      all_chars isspace pre && all_chars isspace mid
      && negb (String.eqb args "") && all_chars not_rparen args
  | Other u =>
      bool_decide (last_char u = Some ")"%char) && finds_nothing u
  end.

(** The calls among the items, as the pairs [re.findall] returns. *)
Fixpoint calls (items : list item) : list (func * string) :=
  match items with
  | [] => []
  | Call _ f _ args :: items' => (f, args) :: calls items'
  | Other _ :: items' => calls items'
  end.

Definition is_call (i : item) : bool :=
  match i with
  | Call _ _ _ _ => true
  | Other _ => false
  end.

(** The text of one argument: not empty, and free of separators and of
    the closing parenthesis. *)
Definition is_token (a : string) : bool :=
  negb (String.eqb a "")
  && all_chars (fun c => negb (is_sep c) && not_rparen c) a.

(** The match [m] has the matrix [M]. *)
Definition has_matrix (float : string -> option R) (m : func * string) (M : matrix) : Prop :=
  match_matrix float m = Ok M.

(** ** Documents and their elements *)

(** The text of a number as [parse_svg_dimensions] keeps it: digits and
    dots only, and at least one of them. *)
Definition is_numeric_text (w : string) : bool :=
  negb (String.eqb w "") && all_chars numeric_char w.

(** The truth value of an attribute read with [get]: present and not
    empty. *)
Definition present (o : option string) : bool :=
  match o with
  | Some (String _ _) => true
  | _ => false
  end.

(** The parsed transform of an element itself, as
    [get_cumulative_transform] reads it for the element and for each
    ancestor. *)
Definition own_transform (float : string -> option R) (e : element) : result matrix :=
  parse_transform float (Some (get_or e "transform" "")).

(** An ancestor the walk of [get_cumulative_transform] goes through: its
    tag is not [svg], and its transform parses to [M]. *)
Definition walked (float : string -> option R) (a : element) (M : matrix) : Prop :=
  String.eqb (tag a) (QName SVG_NS "svg") = false /\ own_transform float a = Ok M.

(** The last row of an affine matrix. *)
Definition affine (T : matrix) : Prop :=
  m20 T = 0%R /\ m21 T = 0%R /\ m22 T = 1%R.

(** The children loop of [xpath_text], as a function of its own. *)
Fixpoint xpath_children (ancestors : list element) (path : list nat) (i : nat)
    (cs : list element) : list node :=
  match cs with
  | [] => []
  | c :: cs' =>
      (xpath_text ancestors (path ++ [i]) c
       ++ xpath_children ancestors path (S i) cs')%list
  end.

(** The children loop of [remove_nodes], as a function of its own. *)
Fixpoint remove_children (to_remove : list (list nat)) (path : list nat) (i : nat)
    (cs : list element) : list element :=
  match cs with
  | [] => []
  | c :: cs' =>
      if bool_decide ((path ++ [i])%list ∈ to_remove)
      then remove_children to_remove path (S i) cs'
      else remove_nodes to_remove (path ++ [i])%list c
           :: remove_children to_remove path (S i) cs'
  end.

(** The children loop of [itertext], as a function of its own. *)
Fixpoint itertext_children (cs : list element) : string :=
  match cs with
  | [] => EmptyString
  | c :: cs' => itertext c ++ tail c ++ itertext_children cs'
  end.

(** [x] is an element of the tree [t]. *)
Inductive occurs (x : element) : element -> Prop :=
| occurs_here : occurs x x
| occurs_below c t : In c (children t) -> occurs x c -> occurs x t.

(** ** Example documents *)

(** A label in a translated group: [<svg width="100px" height="50px"><g
    transform="translate(5,5)"><text x="10" y="20"
    style="font-size:20px;text-anchor:middle">Label</text></g></svg>]. *)
Definition label_text : element :=
  Element (QName SVG_NS "text")
    {[ "x" := "10"; "y" := "20";
       "style" := "font-size:20px;text-anchor:middle" ]}
    "Label" [] "".

Definition label_group : element :=
  Element (QName SVG_NS "g") {[ "transform" := "translate(5,5)" ]}
    "" [label_text] "".

Definition label_root : element :=
  Element (QName SVG_NS "svg") {[ "width" := "100px"; "height" := "50px" ]}
    "" [label_group] "".

Definition label_node : node := Node [0; 0]%nat [label_group; label_root] label_text.

(** A text element in a nested [svg] element, itself in a translated
    group: [<svg width="100" height="100"><g transform="translate(5,5)">
    <svg><text x="0" y="0">A</text></svg></g></svg>]. *)
Definition nested_text : element :=
  Element (QName SVG_NS "text") {[ "x" := "0"; "y" := "0" ]} "A" [] "".

Definition nested_svg : element :=
  Element (QName SVG_NS "svg") ∅ "" [nested_text] "".

Definition nested_group : element :=
  Element (QName SVG_NS "g") {[ "transform" := "translate(5,5)" ]}
    "" [nested_svg] "".

Definition nested_root : element :=
  Element (QName SVG_NS "svg") {[ "width" := "100"; "height" := "100" ]}
    "" [nested_group] "".

(** A root whose size is left to the renderer: [<svg width="auto"
    height="auto"/>]. *)
Definition auto_root : element :=
  Element (QName SVG_NS "svg") {[ "width" := "auto"; "height" := "auto" ]}
    "" [] "".

(** A root without a size: [<svg/>]. *)
Definition bare_root : element := Element (QName SVG_NS "svg") ∅ "" [] "".

(** A root sized by its viewBox: [<svg viewBox="0 0 200 100"/>]. *)
Definition viewbox_root : element :=
  Element (QName SVG_NS "svg") {[ "viewBox" := "0 0 200 100" ]} "" [] "".

(** A blank text element with one coordinate per glyph, and one with
    plain coordinates, each in a document of its own:
    [<svg width="100" height="100"><text x="10 20" y="5"> </text></svg>]
    and the same with [x="1" y="2"]. *)
Definition glyphs_text : element :=
  Element (QName SVG_NS "text") {[ "x" := "10 20"; "y" := "5" ]} " " [] "".

Definition glyphs_root : element :=
  Element (QName SVG_NS "svg") {[ "width" := "100"; "height" := "100" ]}
    "" [glyphs_text] "".

Definition blank_text : element :=
  Element (QName SVG_NS "text") {[ "x" := "1"; "y" := "2" ]} " " [] "".

Definition blank_root : element :=
  Element (QName SVG_NS "svg") {[ "width" := "100"; "height" := "100" ]}
    "" [blank_text] "".

Definition blank_node : node := Node [0%nat] [blank_root] blank_text.

(** Roots whose width carries a unit other than the pixel, and a sign:
    [<svg width="100pt" height="50"/>] and [<svg width="-100"
    height="50"/>]. *)
Definition points_root : element :=
  Element (QName SVG_NS "svg") {[ "width" := "100pt"; "height" := "50" ]} "" [] "".

Definition negative_root : element :=
  Element (QName SVG_NS "svg") {[ "width" := "-100"; "height" := "50" ]} "" [] "".

(** ** Argument texts as lists of tokens *)

(** The text of the arguments of a call: the tokens, each after the first
    preceded by a run of separators, between two runs of white space. *)
Fixpoint join_args (tok : string) (more : list (string * string)) : string :=
  match more with
  | [] => tok
  | (sep, tok') :: more' => tok ++ sep ++ join_args tok' more'
  end.

Definition padded_args (lpad tok : string) (more : list (string * string))
    (rpad : string) : string :=
  lpad ++ join_args tok more ++ rpad.

(** A run of separators: commas and white space, at least one. *)
Definition is_sep_run (sep : string) : bool :=
  negb (String.eqb sep "") && all_chars is_sep sep.

Definition args_well_formed (lpad tok : string) (more : list (string * string))
    (rpad : string) : bool :=
  all_chars isspace lpad && all_chars isspace rpad && is_token tok
  && forallb (fun st => is_sep_run (fst st) && is_token (snd st)) more.

(** The point a list of matrices sends [p] to, the first matrix acting
    first. *)
Definition apply_in_order (Ms : list matrix) (p : R * R * R) : R * R * R :=
  fold_left (fun q M => matvec M q) Ms p.

(** ** Ancestors *)

(** The ancestors below the nearest [svg] ancestor: those the walk of
    [get_cumulative_transform] reads. *)
Fixpoint below_svg (ancestors : list element) : list element :=
  match ancestors with
  | [] => []
  | a :: above =>
      if String.eqb (tag a) (QName SVG_NS "svg") then []
      else a :: below_svg above
  end.

(** ** Text elements *)

(** The text of the node does not strip to nothing: the loop of
    [process_svg] goes past its [continue]. *)
Definition nonblank (n : node) : bool :=
  negb (String.eqb (strip (itertext (node_element n))) "").

(** The label the loop makes of the node [n] is [l]. *)
Definition labelled (float : string -> option R) (n : node) (l : label) : Prop :=
  extract_label float n = Ok (Some l).

(** ** Elements by their place in the tree *)

(** The element at [path] below [e]: the indices of the children to go
    through, from [e] down. *)
Fixpoint subtree (e : element) (path : list nat) : option element :=
  match path with
  | [] => Some e
  | i :: path' =>
      match nth_error (children e) i with
      | Some c => subtree c path'
      | None => None
      end
  end.

(** ** The text of a label in the Typst script *)

Definition backslash : ascii := "092".
Definition double_quote : ascii := "034".

(** [s.replace(old, new)] for [old] of one character: every occurrence
    is replaced. *)
Fixpoint replace (old : ascii) (new s : string) : string :=
  match s with
  | EmptyString => EmptyString
  | String c s' =>
      if Ascii.eqb c old then new ++ replace old new s'
      else String c (replace old new s')
  end.

(** [label['content'].replace('\\', '\\\\').replace('"', '\\"')]: the
    backslashes are doubled, then a backslash is put before each double
    quote. *)
Definition content_escaped (content : string) : string :=
  replace double_quote (String backslash (String double_quote ""))
    (replace backslash (String backslash (String backslash "")) content).

(** A character the escaping leaves alone. *)
Definition plain_char (c : ascii) : bool :=
  negb (Ascii.eqb c backslash) && negb (Ascii.eqb c double_quote).

(** ** The paths of the two files *)

(** [p.rfind(c)]: the index of the last occurrence of [c], or -1. *)
Fixpoint rfind (c : ascii) (p : string) : Z :=
  match p with
  | EmptyString => (-1)%Z
  | String a p' =>
      let r := rfind c p' in
      if Z.leb 0 r then (r + 1)%Z
      else if Ascii.eqb a c then 0%Z else (-1)%Z
  end.

(** The loop of [genericpath._splitext] that skips the leading dots of
    the file name: from [filenameIndex], over [n] characters, is there
    one that is not a dot? *)
Fixpoint has_stem (p : string) (filenameIndex n : nat) : bool :=
  match n with
  | O => false
  | S n' =>
      match String.get filenameIndex p with
      | Some "."%char => has_stem p (S filenameIndex) n'
      | _ => true
      end
  end.

(** [os.path.splitext] of [posixpath]: the extension begins at the last
    dot of the last component of the path, if a character other than a
    dot comes before it in that component. *)
Definition splitext (p : string) : string * string :=
  let sepIndex := rfind "/" p in
  let dotIndex := rfind "." p in
  if Z.ltb sepIndex dotIndex
     && has_stem p (Z.to_nat (sepIndex + 1)) (Z.to_nat (dotIndex - (sepIndex + 1)))
  then (substring 0 (Z.to_nat dotIndex) p,
        substring (Z.to_nat dotIndex) (String.length p - Z.to_nat dotIndex) p)
  else (p, EmptyString).

(** [str.lower] on the characters below 256: the letters A to Z, and the
    capital letters of Latin-1, are 32 below their small letters. *)
Definition lower_char (c : ascii) : ascii :=
  let n := nat_of_ascii c in
  if Nat.leb 65 n && Nat.leb n 90
     || Nat.leb 192 n && Nat.leb n 222 && negb (Nat.eqb n 215)
  then ascii_of_nat (n + 32) else c.

Fixpoint lower (s : string) : string :=
  match s with
  | EmptyString => EmptyString
  | String c s' => String (lower_char c) (lower s')
  end.

(** [s.endswith(suffix)] *)
Fixpoint endswith (s suffix : string) : bool :=
  String.eqb s suffix
  || match s with
     | EmptyString => false
     | String _ s' => endswith s' suffix
     end.

(** [base, _ = os.path.splitext(input_path)], then
    [f"{base}_clean.svg"] and [f"{base}.typ"]. *)
Definition clean_svg_path (input_path : string) : string :=
  fst (splitext input_path) ++ "_clean.svg".

Definition typst_path (input_path : string) : string :=
  fst (splitext input_path) ++ ".typ".

(** The test of the main program on its argument:
    [input_file.lower().endswith('.svg')]. *)
Definition is_svg_file (input_file : string) : bool :=
  endswith (lower input_file) ".svg".

(** ** More example documents *)

(** A figure with a rectangle and a label: [<svg width="100px"
    height="50px"><rect width="10" height="10"/><g
    transform="translate(5,5)"><text x="10" y="20"
    style="font-size:20px;text-anchor:middle">Label</text></g></svg>],
    its text element, and what a run makes of it. *)
Definition figure_rect : element :=
  Element (QName SVG_NS "rect") {[ "width" := "10"; "height" := "10" ]} "" [] "".

Definition figure_root : element :=
  Element (QName SVG_NS "svg") {[ "width" := "100px"; "height" := "50px" ]}
    "" [figure_rect; label_group] "".

Definition figure_node : node :=
  Node [1; 0]%nat [label_group; figure_root] label_text.

Definition figure_label : label := Label 11.25 6.75 15 "Label" "middle".

Definition figure_clean : element :=
  Element (QName SVG_NS "svg") {[ "width" := "100px"; "height" := "50px" ]}
    "" [figure_rect;
        Element (QName SVG_NS "g") {[ "transform" := "translate(5,5)" ]} "" [] ""]
    "".

Definition figure_conversion : conversion :=
  Conversion 75 37.5 [figure_label] [[1; 0]%nat] figure_clean.

(** A group whose transform has an argument that is no number:
    [<g transform="translate(a)">...</g>]. *)
Definition broken_group : element :=
  Element (QName SVG_NS "g") {[ "transform" := "translate(a)" ]}
    "" [label_text] "".

(** The same figure under a root sized by its viewBox and carrying a
    transform: [<svg viewBox="0 0 200 100" transform="scale(2)">...</svg>]. *)
Definition scaled_figure_root : element :=
  Element (QName SVG_NS "svg")
    {[ "viewBox" := "0 0 200 100"; "transform" := "scale(2)" ]}
    "" [figure_rect; label_group] "".

Definition scaled_figure_clean : element :=
  Element (QName SVG_NS "svg")
    {[ "viewBox" := "0 0 200 100"; "transform" := "scale(2)" ]}
    "" [figure_rect;
        Element (QName SVG_NS "g") {[ "transform" := "translate(5,5)" ]} "" [] ""]
    "".

Definition scaled_figure_conversion : conversion :=
  Conversion 150 75 [figure_label] [[1; 0]%nat] scaled_figure_clean.

(** A root whose width is written with an exponent and no unit, and a
    root sized by a viewBox whose numbers are separated by commas:
    [<svg width="1e3" height="50"/>] and [<svg viewBox="0,0,200,100"/>]. *)
Definition exponent_root : element :=
  Element (QName SVG_NS "svg") {[ "width" := "1e3"; "height" := "50" ]} "" [] "".

Definition comma_viewbox_root : element :=
  Element (QName SVG_NS "svg") {[ "viewBox" := "0,0,200,100" ]} "" [] "".

(** * Properties *)

(** ** Facts about strings *)

Lemma app_assoc_s (a b c : string) : (a ++ b) ++ c = a ++ (b ++ c).
Proof. induction a as [|x a IH]; simpl; [reflexivity | now rewrite IH]. Qed.

Lemma app_empty_r (a : string) : a ++ "" = a.
Proof. induction a as [|x a IH]; simpl; [reflexivity | now rewrite IH]. Qed.

Lemma length_app_s (a b : string) :
  String.length (a ++ b) = (String.length a + String.length b)%nat.
Proof. induction a as [|x a IH]; simpl; [reflexivity | now rewrite IH]. Qed.

Lemma all_chars_app P (a b : string) :
  all_chars P (a ++ b) = all_chars P a && all_chars P b.
Proof.
  induction a as [|x a IH]; simpl; [reflexivity |].
  now rewrite IH, andb_assoc.
Qed.

Lemma lstrip_length (s : string) : (String.length (lstrip s) <= String.length s)%nat.
Proof.
  induction s as [|c s IH]; simpl; [lia |].
  destruct (isspace c); simpl; lia.
Qed.

Lemma lstrip_spaces (pre s : string) :
  all_chars isspace pre = true -> lstrip (pre ++ s) = lstrip s.
Proof.
  induction pre as [|c pre IH]; simpl; [reflexivity |].
  intros [Hc Hpre]%andb_prop. rewrite Hc. now apply IH.
Qed.

Lemma lstrip_id (s : string) : starts_with isspace s = false -> lstrip s = s.
Proof. destruct s as [|c s]; simpl; [reflexivity |]. now intros ->. Qed.

Lemma strip_prefix_app (p s : string) : strip_prefix p (p ++ s) = Some s.
Proof.
  induction p as [|c p IH]; simpl; [reflexivity |].
  now rewrite Ascii.eqb_refl.
Qed.

Lemma strip_prefix_Some (p s r : string) : strip_prefix p s = Some r -> s = p ++ r.
Proof.
  revert s. induction p as [|c p IH]; intros s; simpl.
  - now intros [= ->].
  - destruct s as [|d s]; [discriminate |].
    destruct (Ascii.eqb c d) eqn:E; [|discriminate].
    apply Ascii.eqb_eq in E as ->. intros H. now rewrite (IH _ H).
Qed.

Lemma span_app P (s : string) : fst (span P s) ++ snd (span P s) = s.
Proof.
  induction s as [|c s IH]; simpl; [reflexivity |].
  destruct (P c); simpl; [|reflexivity].
  destruct (span P s); simpl in *. now rewrite IH.
Qed.

Lemma span_all P (a r : string) :
  all_chars P a = true -> starts_with P r = false -> span P (a ++ r) = (a, r).
Proof.
  intros Ha Hr. induction a as [|c a IH]; simpl in *.
  - destruct r as [|d r]; simpl in *; [reflexivity | now rewrite Hr].
  - apply andb_prop in Ha as [Hc Ha]. rewrite Hc, (IH Ha). reflexivity.
Qed.

Lemma span_fst_all P (s : string) : all_chars P (fst (span P s)) = true.
Proof.
  induction s as [|c s IH]; simpl; [reflexivity |].
  destruct (P c) eqn:E; simpl; [|reflexivity].
  destruct (span P s); simpl in *. now rewrite E.
Qed.

(** ** The scan of [re.findall] *)

Lemma match_transform_shorter s f a rest :
  match_transform s = Some (f, a, rest) ->
  (String.length rest < String.length s)%nat.
Proof.
  unfold match_transform. pose proof (lstrip_length s) as Hs.
  destruct (match_name (lstrip s)) as [[g s1]|] eqn:Hn; [|discriminate].
  assert (String.length s1 <= String.length (lstrip s))%nat as H1.
  { unfold match_name in Hn.
    repeat match type of Hn with
    | context [strip_prefix ?p ?x] =>
        let E := fresh in
        destruct (strip_prefix p x) eqn:E;
        [apply strip_prefix_Some in E; rewrite E, length_app_s;
         injection Hn as <- <-; lia |]
    end. discriminate. }
  pose proof (lstrip_length s1) as H2.
  destruct (lstrip s1) as [|c s2]; [discriminate |].
  destruct (Ascii.eqb_spec c "(") as [->|]; [|destruct c as [[] [] [] [] [] [] [] []]; try discriminate; congruence].
  pose proof (span_app not_rparen s2) as H3.
  destruct (span not_rparen s2) as [a' r']. simpl in H3.
  destruct a' as [|x a']; [discriminate |].
  destruct r' as [|y r']; [discriminate |].
  destruct (Ascii.eqb_spec y ")") as [->|]; [|destruct y as [[] [] [] [] [] [] [] []]; try discriminate; congruence].
  intros [= <- <- <-]. rewrite <- H3 in H2. simpl in H2.
  rewrite length_app_s in H2. simpl in *. lia.
Qed.

Lemma findall_from_fuel n m s :
  (String.length s < n)%nat -> (String.length s < m)%nat ->
  findall_from n s = findall_from m s.
Proof.
  revert m s. induction n as [|n IH]; intros m s Hn Hm; [lia |].
  destruct m as [|m]; [lia |]. simpl.
  destruct (match_transform s) as [[[f a] rest]|] eqn:E.
  - apply match_transform_shorter in E. f_equal. apply IH; lia.
  - destruct s as [|c s]; [reflexivity |]. simpl in *. apply IH; lia.
Qed.

(** The scan as an equation, free of the fuel. *)
Lemma findall_eq s :
  findall s =
  match match_transform s with
  | Some (f, args, rest) => (f, args) :: findall rest
  | None =>
      match s with
      | String _ s' => findall s'
      | EmptyString => []
      end
  end.
Proof.
  unfold findall at 1. simpl.
  destruct (match_transform s) as [[[f a] rest]|] eqn:E.
  - apply match_transform_shorter in E. f_equal.
    apply findall_from_fuel; lia.
  - destruct s as [|c s]; [reflexivity |]. apply findall_from_fuel; simpl; lia.
Qed.

Lemma match_transform_None s :
  match_name (lstrip s) = None -> match_transform s = None.
Proof. unfold match_transform. now intros ->. Qed.

Lemma findall_spaces s : all_chars isspace s = true -> findall s = [].
Proof.
  induction s as [|c s IH]; intros H; rewrite findall_eq.
  - reflexivity.
  - rewrite match_transform_None.
    + simpl in H. apply andb_prop in H as [_ H]. now apply IH.
    + rewrite <- (app_empty_r (String c s)), lstrip_spaces by assumption.
      reflexivity.
Qed.

Lemma match_name_app f s : match_name (func_name f ++ s) = Some (f, s).
Proof. destruct f; reflexivity. Qed.

Lemma func_name_no_space f s : starts_with isspace (func_name f ++ s) = false.
Proof. destruct f; reflexivity. Qed.

(** A well-formed call is matched where it starts, with its arguments as
    group 2, and the scan goes on behind its closing parenthesis. *)
Lemma render_call_app pre f mid args rest :
  render_item (Call pre f mid args) ++ rest
  = pre ++ func_name f ++ mid ++ String "(" (args ++ String ")" rest).
Proof.
  simpl. rewrite !app_assoc_s. simpl. now rewrite app_assoc_s.
Qed.

Lemma match_transform_call pre f mid args rest :
  well_formed (Call pre f mid args) = true ->
  match_transform (render_item (Call pre f mid args) ++ rest) = Some (f, args, rest).
Proof.
  rewrite render_call_app. simpl.
  intros [[[Hpre Hmid]%andb_prop Hne]%andb_prop Hargs]%andb_prop.
  unfold match_transform.
  rewrite lstrip_spaces by assumption.
  rewrite lstrip_id by apply func_name_no_space.
  rewrite match_name_app, lstrip_spaces by assumption. simpl.
  rewrite span_all by (assumption || reflexivity).
  destruct args; [discriminate | reflexivity].
Qed.

Lemma last_char_cons c s :
  s <> "" -> last_char (String c s) = last_char s.
Proof. destruct s; [congruence | reflexivity]. Qed.

Lemma strip_prefix_closed p u rest :
  all_chars not_rparen p = true -> last_char u = Some ")"%char ->
  strip_prefix p u = None -> strip_prefix p (u ++ rest) = None.
Proof.
  revert u. induction p as [|a p IH]; intros u Hp Hu; simpl; [discriminate |].
  destruct u as [|b u]; [discriminate |]. simpl.
  destruct (Ascii.eqb_spec a b) as [<-|]; [|reflexivity].
  simpl in Hp. apply andb_prop in Hp as [Ha Hp].
  destruct u as [|c u].
  - injection Hu as ->. discriminate.
  - apply IH; assumption.
Qed.

Lemma match_name_closed u rest :
  last_char u = Some ")"%char -> match_name u = None -> match_name (u ++ rest) = None.
Proof.
  intros Hu. unfold match_name.
  destruct (strip_prefix "matrix" u) eqn:E1; [discriminate |].
  destruct (strip_prefix "translate" u) eqn:E2; [discriminate |].
  destruct (strip_prefix "scale" u) eqn:E3; [discriminate |]. intros _.
  rewrite !strip_prefix_closed by (assumption || reflexivity). reflexivity.
Qed.

Lemma mentions_name_head c u :
  mentions_name (String c u) = false ->
  match_name (String c u) = None /\ mentions_name u = false.
Proof.
  simpl. intros [H1 H2]%orb_false_elim. split; [|assumption].
  apply bool_decide_eq_false in H1.
  destruct (match_name (String c u)); [|reflexivity].
  exfalso. apply H1. eauto.
Qed.

Lemma closed_cons c u :
  last_char (String c u) = Some ")"%char ->
  (u = "" /\ c = ")"%char) \/ (u <> "" /\ last_char u = Some ")"%char).
Proof.
  destruct u as [|d u]; simpl.
  - intros [= ->]. now left.
  - intros H. right. split; [discriminate | exact H].
Qed.

Lemma lstrip_closed u rest :
  last_char u = Some ")"%char ->
  lstrip (u ++ rest) = lstrip u ++ rest /\ last_char (lstrip u) = Some ")"%char.
Proof.
  induction u as [|c u IH]; [discriminate |]. intros Hu. simpl.
  destruct (isspace c) eqn:Hsp; [|now split].
  destruct (closed_cons _ _ Hu) as [[_ ->] | [_ Hu']]; [discriminate |].
  now apply IH.
Qed.

Lemma match_name_Some s f r : match_name s = Some (f, r) -> s = func_name f ++ r.
Proof.
  unfold match_name.
  destruct (strip_prefix "matrix" s) eqn:E1;
    [intros [= <- <-]; now apply strip_prefix_Some in E1 |].
  destruct (strip_prefix "translate" s) eqn:E2;
    [intros [= <- <-]; now apply strip_prefix_Some in E2 |].
  destruct (strip_prefix "scale" s) eqn:E3;
    [intros [= <- <-]; now apply strip_prefix_Some in E3 | discriminate].
Qed.

Lemma closed_after_name f r :
  last_char (func_name f ++ r) = Some ")"%char -> last_char r = Some ")"%char.
Proof. destruct f, r; simpl; (discriminate || auto). Qed.

Lemma span_closed w rest :
  last_char w = Some ")"%char ->
  exists a r, span not_rparen w = (a, String ")" r)
              /\ span not_rparen (w ++ rest) = (a, String ")" r ++ rest).
Proof.
  induction w as [|c w IH]; [discriminate |]. intros Hw. simpl.
  destruct (not_rparen c) eqn:Hc.
  - destruct (closed_cons _ _ Hw) as [[_ ->] | [_ Hw']]; [discriminate |].
    destruct (IH Hw') as (a & r & -> & ->). now exists (String c a), r.
  - unfold not_rparen in Hc. apply negb_false_iff, Ascii.eqb_eq in Hc as ->.
    now exists "", w.
Qed.

(** Whether the pattern matches at the head of a text that ends in a
    closing parenthesis does not depend on what follows the text. *)
Lemma match_transform_closed u rest :
  last_char u = Some ")"%char -> match_transform u = None ->
  match_transform (u ++ rest) = None.
Proof.
  intros Hu. unfold match_transform.
  destruct (lstrip_closed u rest Hu) as [-> Hv].
  destruct (match_name (lstrip u)) as [[f v1]|] eqn:Hn.
  - apply match_name_Some in Hn. rewrite Hn in Hv |- *.
    apply closed_after_name in Hv.
    rewrite app_assoc_s, match_name_app.
    destruct (lstrip_closed v1 rest Hv) as [-> Hw].
    destruct (lstrip v1) as [|c w]; [discriminate |]. simpl.
    destruct (Ascii.eqb_spec c "(") as [-> | Hc].
    + destruct (closed_cons _ _ Hw) as [[_ [=]] | [_ Hw']].
      destruct (span_closed w rest Hw') as (a & r & -> & ->).
      simpl. now destruct a.
    + intros _.
      destruct c as [[] [] [] [] [] [] [] []]; try reflexivity. congruence.
  - intros _. now rewrite match_name_closed.
Qed.

Lemma findall_nil_cons c u :
  findall (String c u) = [] ->
  match_transform (String c u) = None /\ findall u = [].
Proof.
  rewrite findall_eq.
  destruct (match_transform (String c u)) as [[[f a] r]|];
    [discriminate | auto].
Qed.

(** Text that ends in a closing parenthesis and in which the pattern finds
    nothing is scanned over without a match, whatever follows it. *)
Lemma findall_other u rest :
  last_char u = Some ")"%char -> findall u = [] ->
  findall (u ++ rest) = findall rest.
Proof.
  induction u as [|c u IH]; intros Hu Hf; [discriminate |].
  apply findall_nil_cons in Hf as [Hm Hf].
  rewrite findall_eq, match_transform_closed by assumption. simpl.
  destruct (closed_cons _ _ Hu) as [[-> _] | [_ Hu']]; [reflexivity |].
  now apply IH.
Qed.

(** Text that mentions none of the three names is text in which the
    pattern finds nothing. *)
Lemma lstrip_mentions u : mentions_name u = false -> mentions_name (lstrip u) = false.
Proof.
  induction u as [|c u IH]; [reflexivity |]. intros H. simpl.
  destruct (isspace c); [|exact H].
  apply IH. now apply mentions_name_head in H.
Qed.

Lemma findall_no_name u : mentions_name u = false -> findall u = [].
Proof.
  induction u as [|c u IH]; intros H; rewrite findall_eq; [reflexivity |].
  rewrite match_transform_None.
  - apply IH. now apply mentions_name_head in H.
  - apply lstrip_mentions in H. destruct (lstrip (String c u)); [reflexivity |].
    now apply mentions_name_head in H.
Qed.

(** In particular the call of a function whose text mentions none of the
    three names is text of the other kind. *)
Lemma well_formed_no_name u :
  last_char u = Some ")"%char -> mentions_name u = false ->
  well_formed (Other u) = true.
Proof.
  intros Hu Hm. simpl. unfold finds_nothing.
  now rewrite (findall_no_name u Hm), bool_decide_eq_true_2.
Qed.

(** The matches of a rendered list of items are its calls, in order. *)
Lemma findall_render items trail :
  forallb well_formed items = true -> all_chars isspace trail = true ->
  findall (render items trail) = calls items.
Proof.
  intros Hwf Htrail. induction items as [|i items IH]; simpl.
  - now apply findall_spaces.
  - simpl in Hwf. apply andb_prop in Hwf as [Hi Hwf].
    destruct i as [pre f mid args | u].
    + rewrite findall_eq, match_transform_call by assumption.
      now rewrite IH.
    + simpl in Hi. apply andb_prop in Hi as [Hu Hf].
      apply bool_decide_eq_true in Hu. unfold finds_nothing in Hf.
      simpl. rewrite findall_other; [now apply IH | assumption |].
      now destruct (findall u).
Qed.

(** ** Matrix algebra *)

Lemma Mat_ext a b c d e f g h i a' b' c' d' e' f' g' h' i' :
  a = a' -> b = b' -> c = c' -> d = d' -> e = e' -> f = f' ->
  g = g' -> h = h' -> i = i' ->
  Mat a b c d e f g h i = Mat a' b' c' d' e' f' g' h' i'.
Proof. intros; subst; reflexivity. Qed.

Lemma matmul_assoc A B C : (A @@ B) @@ C = A @@ (B @@ C).
Proof. destruct A, B, C. unfold matmul. simpl. f_equal; ring. Qed.

Lemma matmul_identity_l A : identity @@ A = A.
Proof. destruct A. unfold matmul, identity. simpl. f_equal; ring. Qed.

Lemma matmul_identity_r A : A @@ identity = A.
Proof. destruct A. unfold matmul, identity. simpl. f_equal; ring. Qed.

Lemma mat_product_app Ms Ns :
  mat_product (Ms ++ Ns) = mat_product Ms @@ mat_product Ns.
Proof.
  unfold mat_product. induction Ms as [|M Ms IH]; simpl.
  - now rewrite matmul_identity_l.
  - now rewrite IH, matmul_assoc.
Qed.

Lemma mat_product_single M : mat_product [M] = M.
Proof. apply matmul_identity_r. Qed.

Section Transform_parser.

Variable float : string -> option R.

Lemma parse_transform_findall s :
  parse_transform float (Some s) = compose_matches float (findall s) identity.
Proof. destruct s; reflexivity. Qed.

(** The loop over the matches multiplies each new matrix onto the left of
    the accumulator. *)
Lemma compose_matches_ok ms Ms A :
  Forall2 (has_matrix float) ms Ms ->
  compose_matches float ms A = Ok (mat_product (rev Ms) @@ A).
Proof.
  intros H. revert A. induction H as [|m M ms Ms Hm _ IH]; intros A; simpl.
  - now rewrite matmul_identity_l.
  - unfold has_matrix in Hm. rewrite Hm. simpl.
    rewrite IH, mat_product_app, mat_product_single.
    now rewrite matmul_assoc.
Qed.

Lemma compose_matches_app ms ns A :
  compose_matches float (ms ++ ns) A =
  let* B := compose_matches float ms A in compose_matches float ns B.
Proof.
  revert A. induction ms as [|m ms IH]; intros A; simpl; [reflexivity |].
  destruct (match_matrix float m); simpl; [apply IH | reflexivity].
Qed.

Lemma calls_app xs ys : calls (xs ++ ys) = (calls xs ++ calls ys)%list.
Proof.
  induction xs as [|[] xs IH]; simpl; [reflexivity | now rewrite IH | assumption].
Qed.

(** C2: an absent or empty string parses to the identity; a string in
    which the pattern matches, from left to right, calls whose matrices
    are M1 ... Mn parses to the product Mn . ... . M1; the matches in a
    string of function calls f1 ... fn written one after the other are
    these calls, so that it parses to the product of their matrices, the
    last on the left; and appending one more call multiplies its matrix
    onto the left of what the string parsed to before. *)
Theorem parse_transform_left_multiplies :
  (parse_transform float None = Ok identity
   /\ parse_transform float (Some "") = Ok identity)
  /\ (forall s Ms,
        Forall2 (has_matrix float) (findall s) Ms ->
        parse_transform float (Some s) = Ok (mat_product (rev Ms)))
  /\ (forall items trail Ms,
        forallb well_formed items = true -> all_chars isspace trail = true ->
        Forall2 (has_matrix float) (calls items) Ms ->
        parse_transform float (Some (render items trail))
        = Ok (mat_product (rev Ms)))
  /\ (forall items pre f mid args trail,
        forallb well_formed (items ++ [Call pre f mid args]) = true ->
        all_chars isspace trail = true ->
        parse_transform float (Some (render (items ++ [Call pre f mid args]) trail))
        = let* A := parse_transform float (Some (render items "")) in
          let* M := match_matrix float (f, args) in
          Ok (M @@ A)).
Proof.
  split; [split; reflexivity |]. split; [|split].
  - intros s Ms HMs. rewrite parse_transform_findall.
    rewrite (compose_matches_ok _ Ms) by assumption.
    now rewrite matmul_identity_r.
  - intros items trail Ms Hwf Htrail HMs.
    rewrite parse_transform_findall, findall_render by assumption.
    rewrite (compose_matches_ok _ Ms) by assumption.
    now rewrite matmul_identity_r.
  - intros items pre f mid args trail Hwf Htrail.
    rewrite !parse_transform_findall, !findall_render; try assumption; try reflexivity.
    + rewrite calls_app, compose_matches_app. simpl.
      destruct (compose_matches float (calls items) identity); simpl; [|reflexivity].
      destruct (match_matrix float (f, args)); reflexivity.
    + rewrite forallb_app in Hwf. now apply andb_prop in Hwf as [? _].
Qed.

Lemma all_chars_impl (P Q : ascii -> bool) s :
  (forall c, P c = true -> Q c = true) ->
  all_chars P s = true -> all_chars Q s = true.
Proof.
  intros HPQ. induction s as [|c s IH]; simpl; [reflexivity |].
  intros [Hc Hs]%andb_prop. now rewrite (HPQ _ Hc), IH.
Qed.

Lemma lstrip_no_space s :
  all_chars (fun c => negb (isspace c)) s = true -> lstrip s = s.
Proof.
  destruct s as [|c s]; simpl; [reflexivity |].
  intros [Hc _]%andb_prop. apply negb_true_iff in Hc. now rewrite Hc.
Qed.

Lemma rstrip_no_space s :
  all_chars (fun c => negb (isspace c)) s = true -> rstrip s = s.
Proof.
  induction s as [|c s IH]; simpl; [reflexivity |].
  intros [Hc Hs]%andb_prop. apply negb_true_iff in Hc.
  rewrite (IH Hs), Hc. now destruct s.
Qed.

Lemma strip_no_space s :
  all_chars (fun c => negb (isspace c)) s = true -> strip s = s.
Proof.
  intros H. unfold strip. now rewrite lstrip_no_space, rstrip_no_space.
Qed.

Lemma re_split_token a :
  all_chars (fun c => negb (is_sep c)) a = true -> re_split a = [a].
Proof.
  induction a as [|c a IH]; simpl; [reflexivity |].
  intros [Hc Ha]%andb_prop. apply negb_true_iff in Hc.
  now rewrite Hc, (IH Ha).
Qed.

Lemma re_split_comma a b :
  all_chars (fun c => negb (is_sep c)) a = true ->
  starts_with is_sep b = false ->
  re_split (a ++ String "," b) = a :: re_split b.
Proof.
  intros Ha Hb. induction a as [|c a IH]; simpl.
  - now rewrite Hb.
  - simpl in Ha. apply andb_prop in Ha as [Hc Ha]. apply negb_true_iff in Hc.
    now rewrite Hc, (IH Ha).
Qed.

Lemma is_sep_space c : is_sep c = false -> isspace c = false.
Proof. unfold is_sep. now intros [_ ?]%orb_false_elim. Qed.

Lemma is_token_spec a :
  is_token a = true ->
  a <> "" /\ all_chars (fun c => negb (is_sep c)) a = true
  /\ all_chars (fun c => negb (isspace c)) a = true
  /\ all_chars not_rparen a = true.
Proof.
  unfold is_token. intros [Hne Ha]%andb_prop. repeat split.
  - intros ->. discriminate.
  - revert Ha. apply all_chars_impl. now intros c [? _]%andb_prop.
  - revert Ha. apply all_chars_impl. intros c [Hc _]%andb_prop.
    apply negb_true_iff in Hc. apply is_sep_space in Hc. now rewrite Hc.
  - revert Ha. apply all_chars_impl. now intros c [_ ?]%andb_prop.
Qed.

Lemma findall_single f args :
  args <> "" -> all_chars not_rparen args = true ->
  findall (func_name f ++ "(" ++ args ++ ")") = [(f, args)].
Proof.
  intros Hne Hargs.
  replace (func_name f ++ "(" ++ args ++ ")")
    with (render [Call "" f "" args] "")
    by (simpl; now rewrite app_empty_r).
  apply findall_render; [|reflexivity].
  simpl. rewrite Hargs. destruct args; [congruence | reflexivity].
Qed.

(** C7: for the text [a] of one argument, [scale(a)] parses to what
    [scale(a,a)] parses to; when [a] reads as the number [s] that is the
    uniform scaling by [s]. *)
Theorem scale_one_argument (a : string) :
  is_token a = true ->
  parse_transform float (Some ("scale(" ++ a ++ ")"))
  = parse_transform float (Some ("scale(" ++ a ++ "," ++ a ++ ")"))
  /\ (forall s, float a = Some s ->
        parse_transform float (Some ("scale(" ++ a ++ ")")) = Ok (scaling s s)).
Proof.
  intros (Hne & Hsep & Hsp & Hrp)%is_token_spec.
  assert (all_chars not_rparen (a ++ "," ++ a) = true) as Hrp2.
  { rewrite all_chars_app, Hrp. simpl. now rewrite Hrp. }
  assert (all_chars (fun c => negb (isspace c)) (a ++ "," ++ a) = true) as Hsp2.
  { rewrite all_chars_app, Hsp. simpl. now rewrite Hsp. }
  assert (a ++ "," ++ a <> "") as Hne2 by (destruct a; [congruence | discriminate]).
  rewrite !parse_transform_findall.
  change ("scale(" ++ a ++ ")") with (func_name Fscale ++ "(" ++ a ++ ")").
  replace ("scale(" ++ a ++ "," ++ a ++ ")")
    with (func_name Fscale ++ "(" ++ (a ++ "," ++ a) ++ ")")
    by (simpl; now rewrite app_assoc_s).
  rewrite (findall_single Fscale a Hne Hrp).
  rewrite (findall_single Fscale (a ++ "," ++ a) Hne2 Hrp2).
  simpl. unfold match_matrix. simpl.
  rewrite !strip_no_space by assumption.
  change (a ++ "," ++ a) with (a ++ String "," a).
  rewrite re_split_comma, re_split_token; try assumption.
  2: { destruct a as [|c a]; [congruence |]. simpl in Hsep.
       apply andb_prop in Hsep as [Hc _]. now apply negb_true_iff in Hc. }
  simpl. unfold to_float. split.
  - destruct (float a); reflexivity.
  - intros s ->. simpl. now rewrite matmul_identity_r.
Qed.

Lemma calls_filter items : calls (List.filter is_call items) = calls items.
Proof.
  induction items as [|[] items IH]; simpl; [reflexivity | now rewrite IH | assumption].
Qed.

Lemma well_formed_filter items :
  forallb well_formed items = true ->
  forallb well_formed (List.filter is_call items) = true.
Proof.
  induction items as [|i items IH]; simpl; [reflexivity |].
  intros [Hi Hitems]%andb_prop. destruct i; simpl; [rewrite IH by assumption|]; auto.
  simpl in Hi. now rewrite Hi.
Qed.

Lemma calls_others items :
  forallb (fun i => negb (is_call i)) items = true -> calls items = [].
Proof.
  induction items as [|[] items IH]; simpl; [reflexivity | discriminate | assumption].
Qed.

(** C8: in a string of function calls, the calls of other functions than
    [matrix], [translate] and [scale] (any text that ends in a closing
    parenthesis and in which the pattern finds no call) are passed over:
    the string parses to what it parses to without them, which is the
    product of the matrices of the recognised calls when each has one, and
    the identity when no call is recognised. *)
Theorem unrecognised_functions_skipped (items : list item) (trail : string) :
  forallb well_formed items = true -> all_chars isspace trail = true ->
  parse_transform float (Some (render items trail))
  = parse_transform float (Some (render (List.filter is_call items) trail))
  /\ (forall Ms, Forall2 (has_matrix float) (calls (List.filter is_call items)) Ms ->
        parse_transform float (Some (render items trail))
        = Ok (mat_product (rev Ms)))
  /\ (forallb (fun i => negb (is_call i)) items = true ->
        parse_transform float (Some (render items trail)) = Ok identity).
Proof.
  intros Hwf Htrail.
  rewrite !parse_transform_findall, !findall_render;
    try assumption; try now apply well_formed_filter.
  rewrite calls_filter. split; [reflexivity |]. split.
  - intros Ms HMs. rewrite (compose_matches_ok _ Ms) by assumption.
    now rewrite matmul_identity_r.
  - intros Hothers. now rewrite calls_others.
Qed.

(** *** Failure of the parser *)

Lemma floats_length toks xs :
  floats float toks = Ok xs -> length xs = length toks.
Proof.
  revert xs. induction toks as [|t toks IH]; intros xs; simpl.
  - now intros [= <-].
  - unfold to_float. destruct (float t); simpl; [|discriminate].
    destruct (floats float toks); simpl; [|discriminate].
    intros [= <-]. simpl. now rewrite (IH _ eq_refl).
Qed.

Lemma floats_raises_iff toks :
  raises (floats float toks) <-> exists tok, In tok toks /\ float tok = None.
Proof.
  induction toks as [|t toks IH]; simpl.
  - split; [intros [e [=]] | intros (_ & [] & _)].
  - unfold to_float. destruct (float t) eqn:Ht; simpl.
    + destruct (floats float toks) eqn:Hts; simpl.
      * split; [intros [e [=]] |].
        intros (tok & [<- | Hin] & Hnone); [congruence |].
        destruct IH as [_ IH]. destruct IH as [e [=]]. eauto.
      * split; [|intros _; eexists; reflexivity].
        intros _. destruct IH as [IH _].
        destruct IH as (tok & Hin & Hnone); [eexists; reflexivity |]. eauto.
    + split; [|intros _; eexists; reflexivity]. eauto.
Qed.

Lemma re_split_not_nil s : re_split s <> [].
Proof.
  induction s as [|c s IH]; simpl; [discriminate |].
  destruct (is_sep c).
  - destruct (starts_with is_sep s); [assumption | discriminate].
  - destruct (re_split s); discriminate.
Qed.

Lemma function_matrix_ok f xs :
  xs <> [] -> exists M, function_matrix f xs = Ok M.
Proof.
  intros Hxs. destruct xs as [|x xs]; [congruence |].
  destruct f; simpl; eauto.
  destruct xs as [|? [|? [|? [|? [|? [|? ?]]]]]]; eauto.
Qed.

Lemma match_matrix_raises_iff f args :
  raises (match_matrix float (f, args))
  <-> exists tok, In tok (re_split (strip args)) /\ float tok = None.
Proof.
  rewrite <- floats_raises_iff. unfold match_matrix. simpl.
  destruct (floats float (re_split (strip args))) as [xs|e] eqn:E; simpl.
  - split; [|intros [e [=]]]. intros [e He].
    destruct (function_matrix_ok f xs) as [M HM]; [|congruence].
    apply floats_length in E. intros ->.
    destruct (re_split (strip args)) eqn:E'; [|discriminate].
    now apply re_split_not_nil in E'.
  - split; intros _; eexists; reflexivity.
Qed.

Lemma compose_matches_raises_iff ms A :
  raises (compose_matches float ms A)
  <-> exists m, In m ms /\ raises (match_matrix float m).
Proof.
  revert A. induction ms as [|m ms IH]; intros A; simpl.
  - split; [intros [e [=]] | intros (_ & [] & _)].
  - destruct (match_matrix float m) as [M|e] eqn:E; simpl.
    + rewrite IH. split.
      * intros (m' & Hin & Hr). eauto.
      * intros (m' & [<- | Hin] & Hr); [|eauto].
        rewrite E in Hr. destruct Hr as [? [=]].
    + split; [|intros _; eexists; reflexivity].
      intros _. exists m. split; [now left |]. rewrite E. eexists; reflexivity.
Qed.

(** C4, as the code has it: the parser fails exactly when an argument of
    some matched call is rejected by [float()]. The number of arguments is
    never a failure: [matrix] with other than six arguments stands for the
    identity, and [translate] and [scale] read their first two arguments
    and leave the rest aside. *)
Theorem parse_transform_raises_iff :
  (forall s,
     raises (parse_transform float (Some s))
     <-> exists f args tok,
           In (f, args) (findall s) /\ In tok (re_split (strip args))
           /\ float tok = None)
  /\ (forall args xs,
        floats float (re_split (strip args)) = Ok xs -> length xs <> 6%nat ->
        match_matrix float (Fmatrix, args) = Ok identity)
  /\ (forall args tx ty more,
        floats float (re_split (strip args)) = Ok (tx :: ty :: more) ->
        match_matrix float (Ftranslate, args) = Ok (translation tx ty)
        /\ match_matrix float (Fscale, args) = Ok (scaling tx ty)).
Proof.
  split; [|split].
  - intros s. rewrite parse_transform_findall, compose_matches_raises_iff. split.
    + intros ([f args] & Hin & Hr). apply match_matrix_raises_iff in Hr.
      destruct Hr as (tok & Htok & Hnone). eauto 6.
    + intros (f & args & tok & Hin & Htok & Hnone). exists (f, args).
      split; [assumption |]. apply match_matrix_raises_iff. eauto.
  - intros args xs Hxs Hlen. unfold match_matrix. simpl. rewrite Hxs. simpl.
    destruct xs as [|? [|? [|? [|? [|? [|? [|? ?]]]]]]]; simpl in *;
      try reflexivity. congruence.
  - intros args tx ty more Hxs. unfold match_matrix. simpl. rewrite Hxs.
    split; reflexivity.
Qed.

End Transform_parser.

(** ** The dimension resolver *)

Lemma keep_app P a b : keep P (a ++ b) = keep P a ++ keep P b.
Proof.
  induction a as [|c a IH]; simpl; [reflexivity |].
  destruct (P c); simpl; now rewrite IH.
Qed.

Lemma keep_all P a : all_chars P a = true -> keep P a = a.
Proof.
  induction a as [|c a IH]; simpl; [reflexivity |].
  intros [Hc Ha]%andb_prop. now rewrite Hc, IH.
Qed.

Lemma keep_none P a : all_chars (fun c => negb (P c)) a = true -> keep P a = "".
Proof.
  induction a as [|c a IH]; simpl; [reflexivity |].
  intros [Hc Ha]%andb_prop. apply negb_true_iff in Hc. now rewrite Hc, IH.
Qed.

Lemma keep_satisfies P a : all_chars P (keep P a) = true.
Proof.
  induction a as [|c a IH]; simpl; [reflexivity |].
  destruct (P c) eqn:E; simpl; [now rewrite E |assumption].
Qed.

Lemma sub_non_numeric_suffix w u :
  all_chars numeric_char w = true ->
  all_chars (fun c => negb (numeric_char c)) u = true ->
  sub_non_numeric (w ++ u) = w.
Proof.
  intros Hw Hu. unfold sub_non_numeric.
  now rewrite keep_app, keep_all, keep_none, app_empty_r.
Qed.

Lemma PX_TO_PT_value : PX_TO_PT = 0.75%R.
Proof. unfold PX_TO_PT. lra. Qed.

Section Dimensions.

Variable float : string -> option R.

Local Open Scope R_scope.

Lemma parse_svg_dimensions_pair root w h :
  get root "width" = Some w -> get root "height" = Some h ->
  w <> "" -> h <> "" ->
  parse_svg_dimensions float root =
  let* a := to_float float (sub_non_numeric w) in
  let* b := to_float float (sub_non_numeric h) in
  Ok (a * PX_TO_PT, b * PX_TO_PT).
Proof.
  intros Hw Hh Hwne Hhne. unfold parse_svg_dimensions. rewrite Hw, Hh.
  destruct w; [congruence |]. destruct h; [congruence |]. reflexivity.
Qed.

Lemma parse_svg_dimensions_fallback root :
  present (get root "width") && present (get root "height") = false ->
  parse_svg_dimensions float root =
  match get root "viewBox" with
  | Some viewBox =>
      let* (w_vb, h_vb) := unpack_viewbox float (split_ws viewBox) in
      Ok (w_vb * PX_TO_PT, h_vb * PX_TO_PT)
  | None => Raise NoDimensions
  end.
Proof.
  unfold parse_svg_dimensions, present, get.
  destruct (attrib root !! "width") as [[|]|];
    destruct (attrib root !! "height") as [[|]|]; simpl;
    try discriminate; reflexivity.
Qed.

(** C5, as the code has it: the pixel-to-point ratio is 0.75; when the
    root has a width and a height, each a number written with digits and
    dots only followed by a unit that has neither a digit nor a dot, the
    unit is dropped and the numbers, taken as pixels, are multiplied by
    the ratio; "100px" by "50px" is 75 pt by 37.5 pt; when one of the two
    is missing or empty and the viewBox is four numbers separated by
    white space, its last two are multiplied by the ratio. *)
Theorem dimensions_in_points (root : element) :
  PX_TO_PT = 0.75
  /\ (forall w uw h uh a b,
        get root "width" = Some (w ++ uw) -> get root "height" = Some (h ++ uh) ->
        is_numeric_text w = true -> is_numeric_text h = true ->
        all_chars (fun c => negb (numeric_char c)) uw = true ->
        all_chars (fun c => negb (numeric_char c)) uh = true ->
        float w = Some a -> float h = Some b ->
        parse_svg_dimensions float root = Ok (a * 0.75, b * 0.75))
  /\ (get root "width" = Some "100px" -> get root "height" = Some "50px" ->
      float "100" = Some 100 -> float "50" = Some 50 ->
      parse_svg_dimensions float root = Ok (75, 37.5))
  /\ (forall viewBox t1 t2 t3 t4 x y w h,
        present (get root "width") && present (get root "height") = false ->
        get root "viewBox" = Some viewBox ->
        split_ws viewBox = [t1; t2; t3; t4] ->
        float t1 = Some x -> float t2 = Some y ->
        float t3 = Some w -> float t4 = Some h ->
        parse_svg_dimensions float root = Ok (w * 0.75, h * 0.75)).
Proof.
  assert (forall w uw h uh a b,
        get root "width" = Some (w ++ uw) -> get root "height" = Some (h ++ uh) ->
        is_numeric_text w = true -> is_numeric_text h = true ->
        all_chars (fun c => negb (numeric_char c)) uw = true ->
        all_chars (fun c => negb (numeric_char c)) uh = true ->
        float w = Some a -> float h = Some b ->
        parse_svg_dimensions float root = Ok (a * 0.75, b * 0.75)) as Hpair.
  { intros w uw h uh a b Hw Hh [Hwne Hwn]%andb_prop [Hhne Hhn]%andb_prop Huw Huh Ha Hb.
    rewrite (parse_svg_dimensions_pair _ _ _ Hw Hh).
    - rewrite !sub_non_numeric_suffix by assumption.
      unfold to_float. rewrite Ha, Hb. simpl. now rewrite PX_TO_PT_value.
    - destruct w; [discriminate | discriminate].
    - destruct h; [discriminate | discriminate]. }
  split; [apply PX_TO_PT_value |]. split; [exact Hpair |]. split.
  - intros Hw Hh H100 H50.
    rewrite (Hpair "100" "px" "50" "px" 100 50) by (assumption || reflexivity).
    f_equal. f_equal; lra.
  - intros viewBox t1 t2 t3 t4 x y w h Habsent Hvb Hsplit H1 H2 H3 H4.
    rewrite parse_svg_dimensions_fallback, Hvb, Hsplit by assumption.
    unfold unpack_viewbox, to_float. rewrite H1, H2, H3, H4. simpl.
    now rewrite PX_TO_PT_value.
Qed.

(** C10: with a width and a height, the dimensions are read from what is
    left of the two strings once every character other than a digit or a
    dot is deleted, wherever it stands; so "100pt", "100mm", "-100" and
    "100" all give 75 pt, and of "1e2" the digits "12" remain. *)
Theorem dimensions_ignore_units (root : element) :
  (forall w h, get root "width" = Some w -> get root "height" = Some h ->
     w <> "" -> h <> "" ->
     parse_svg_dimensions float root =
     let* a := to_float float (sub_non_numeric w) in
     let* b := to_float float (sub_non_numeric h) in
     Ok (a * PX_TO_PT, b * PX_TO_PT))
  /\ (forall a c b,
        sub_non_numeric (a ++ String c b) =
        sub_non_numeric a ++
        (if isdigit c || Ascii.eqb c "." then String c (sub_non_numeric b)
         else sub_non_numeric b))
  /\ (sub_non_numeric "100pt" = "100" /\ sub_non_numeric "100mm" = "100"
      /\ sub_non_numeric "-100" = "100" /\ sub_non_numeric "1e2" = "12")
  /\ (forall w h b,
        In w ["100pt"; "100mm"; "-100"; "100"] ->
        get root "width" = Some w -> get root "height" = Some h -> h <> "" ->
        float "100" = Some 100 -> float (sub_non_numeric h) = Some b ->
        parse_svg_dimensions float root = Ok (75, b * 0.75)).
Proof.
  split; [intros; now apply parse_svg_dimensions_pair |]. split.
  { intros a c b. unfold sub_non_numeric. rewrite keep_app. simpl.
    unfold numeric_char at 2. now destruct (isdigit c || Ascii.eqb c "."). }
  split; [repeat split; reflexivity |].
  intros w h b Hin Hw Hh Hhne H100 Hb.
  rewrite (parse_svg_dimensions_pair _ _ _ Hw Hh); [|now destruct Hin as [<-|[<-|[<-|[<-|[]]]]] | assumption].
  assert (sub_non_numeric w = "100") as -> by now destruct Hin as [<-|[<-|[<-|[<-|[]]]]].
  unfold to_float. rewrite H100, Hb. simpl. rewrite PX_TO_PT_value.
  f_equal. f_equal. lra.
Qed.

End Dimensions.

Section Missing_dimensions.

Variable float : string -> option R.

Lemma to_float_not_NoDimensions s : to_float float s <> Raise NoDimensions.
Proof. unfold to_float. destruct (float s); discriminate. Qed.

Lemma floats_not_NoDimensions toks : floats float toks <> Raise NoDimensions.
Proof.
  induction toks as [|t toks IH]; simpl; [discriminate |].
  unfold to_float. destruct (float t); simpl; [|discriminate].
  destruct (floats float toks); simpl; [discriminate | assumption].
Qed.

Lemma unpack_viewbox_not_NoDimensions toks :
  unpack_viewbox float toks <> Raise NoDimensions.
Proof.
  unfold unpack_viewbox.
  destruct toks as [|t1 [|t2 [|t3 [|t4 more]]]];
    try (pose proof (floats_not_NoDimensions [t1; t2; t3]) as H; revert H);
    try (pose proof (floats_not_NoDimensions [t1; t2]) as H; revert H);
    try (pose proof (floats_not_NoDimensions [t1]) as H; revert H);
    simpl; unfold to_float;
    repeat match goal with
           | |- context [float ?t] => destruct (float t); simpl
           end; try discriminate; try tauto.
  destruct more; simpl; [discriminate |].
  destruct (float s); discriminate.
Qed.

(** C6, as the code has it: without both a width and a height and without
    a viewBox the resolver raises [NoDimensions], and the run ends there
    with nothing computed; [NoDimensions] is raised in this case only; any
    other failure of the resolver ends the run in the same way. *)
Theorem missing_dimensions (root : element) :
  (present (get root "width") && present (get root "height") = false ->
   get root "viewBox" = None ->
   parse_svg_dimensions float root = Raise NoDimensions
   /\ process_svg float root = Raise NoDimensions)
  /\ (parse_svg_dimensions float root = Raise NoDimensions ->
      present (get root "width") && present (get root "height") = false
      /\ get root "viewBox" = None)
  /\ (forall e, parse_svg_dimensions float root = Raise e ->
                process_svg float root = Raise e).
Proof.
  assert (forall e, parse_svg_dimensions float root = Raise e ->
                    process_svg float root = Raise e) as Hrun.
  { intros e He. unfold process_svg. now rewrite He. }
  split; [|split; [|exact Hrun]].
  - intros Habsent Hvb.
    assert (parse_svg_dimensions float root = Raise NoDimensions) as H
      by now rewrite parse_svg_dimensions_fallback, Hvb.
    split; [exact H | now apply Hrun].
  - destruct (present (get root "width") && present (get root "height")) eqn:Hp.
    + apply andb_prop in Hp as [Hw Hh].
      destruct (get root "width") as [[|c w]|] eqn:Ew; try discriminate.
      destruct (get root "height") as [[|d h]|] eqn:Eh; try discriminate.
      rewrite (parse_svg_dimensions_pair float root _ _ Ew Eh) by discriminate.
      unfold to_float.
      destruct (float (sub_non_numeric (String c w))); simpl; [|discriminate].
      destruct (float (sub_non_numeric (String d h))); discriminate.
    + rewrite parse_svg_dimensions_fallback by assumption.
      destruct (get root "viewBox") as [vb|]; [|auto].
      pose proof (unpack_viewbox_not_NoDimensions (split_ws vb)) as Hn.
      destruct (unpack_viewbox float (split_ws vb)) as [[w h]|e]; simpl;
        [discriminate | congruence].
Qed.

End Missing_dimensions.

(** ** The cumulative transform *)

Section Cumulative_transform.

Variable float : string -> option R.

Local Open Scope R_scope.

Lemma ancestors_transform_cons a above A :
  ancestors_transform float (a :: above) A =
  if String.eqb (tag a) (QName SVG_NS "svg") then Ok A
  else let* M := own_transform float a in
       ancestors_transform float above (M @@ A).
Proof. reflexivity. Qed.

Lemma get_cumulative_transform_eq ancestors e :
  get_cumulative_transform float ancestors e =
  let* transform := ancestors_transform float ancestors identity in
  let* E := own_transform float e in
  Ok (transform @@ E).
Proof. reflexivity. Qed.

(** The walk up the ancestors multiplies each ancestor's matrix onto the
    left of the accumulator, until it meets an [svg] element or runs out
    of ancestors. *)
Lemma ancestors_transform_walk inner As above A :
  Forall2 (walked float) inner As ->
  match above with
  | [] => True
  | r :: _ => String.eqb (tag r) (QName SVG_NS "svg") = true
  end ->
  ancestors_transform float (inner ++ above) A = Ok (mat_product (rev As) @@ A).
Proof.
  intros H Habove. revert A.
  induction H as [|a M inner As [Ha HM] _ IH]; intros A.
  - simpl rev. simpl app. change (mat_product []) with identity.
    rewrite matmul_identity_l. destruct above as [|r up]; [reflexivity |].
    now rewrite ancestors_transform_cons, Habove.
  - change ((a :: inner) ++ above)%list with (a :: (inner ++ above))%list.
    rewrite ancestors_transform_cons, Ha, HM. simpl bind. simpl rev.
    rewrite IH, mat_product_app, mat_product_single. now rewrite matmul_assoc.
Qed.

(** The cumulative transform of an element below an [svg] element is the
    product of the transforms of the ancestors between the two, outermost
    first, and of the element's own transform last. *)
Theorem get_cumulative_transform_product inner As svg above e E :
  Forall2 (walked float) inner As ->
  String.eqb (tag svg) (QName SVG_NS "svg") = true ->
  own_transform float e = Ok E ->
  get_cumulative_transform float (inner ++ svg :: above) e
  = Ok (mat_product (rev As ++ [E])).
Proof.
  intros Hinner Hsvg HE. rewrite get_cumulative_transform_eq.
  rewrite (ancestors_transform_walk inner As (svg :: above)) by assumption.
  rewrite HE. simpl bind.
  now rewrite matmul_identity_r, mat_product_app, mat_product_single.
Qed.

(** An element whose parent is the [svg] root has its own transform as
    cumulative transform. *)
Lemma get_cumulative_transform_child_of_root svg above e :
  String.eqb (tag svg) (QName SVG_NS "svg") = true ->
  get_cumulative_transform float (svg :: above) e = own_transform float e.
Proof.
  intros Hsvg.
  rewrite get_cumulative_transform_eq, ancestors_transform_cons, Hsvg.
  simpl bind. destruct (own_transform float e); simpl;
    [now rewrite matmul_identity_l | reflexivity].
Qed.

Lemma mat_product_translations n :
  mat_product (repeat (translation 1 0) n) = translation (INR n) 0.
Proof.
  induction n as [|n IH]; [reflexivity |].
  change (repeat (translation 1 0) (S n))
    with (translation 1 0 :: repeat (translation 1 0) n).
  change (mat_product (translation 1 0 :: repeat (translation 1 0) n))
    with (translation 1 0 @@ mat_product (repeat (translation 1 0) n)).
  rewrite IH, S_INR. unfold matmul, translation. simpl. apply Mat_ext; ring.
Qed.

(** Below [n] nested ancestors that each translate by (1,0), an element
    without a transform has its origin at ([n],0). *)
Lemma get_cumulative_transform_chain inner svg above e T :
  Forall (fun a => walked float a (translation 1 0)) inner ->
  String.eqb (tag svg) (QName SVG_NS "svg") = true ->
  own_transform float e = Ok identity ->
  get_cumulative_transform float (inner ++ svg :: above) e = Ok T ->
  matvec T (0, 0, 1) = (INR (length inner), 0, 1).
Proof.
  intros Hinner Hsvg He.
  rewrite (get_cumulative_transform_product inner
             (repeat (translation 1 0) (length inner)) svg above e identity);
    try assumption.
  - intros [= <-]. rewrite mat_product_app, mat_product_single, matmul_identity_r.
    rewrite rev_repeat, mat_product_translations.
    unfold matvec, translation. simpl. f_equal; [f_equal |]; ring.
  - induction Hinner; simpl; constructor; assumption.
Qed.

(** The transform of an element whose attribute is [translate(tx,ty)]. *)
Lemma own_transform_translate a tx ty x y :
  get_or a "transform" "" = "translate(" ++ tx ++ "," ++ ty ++ ")" ->
  is_token tx = true -> is_token ty = true ->
  float tx = Some x -> float ty = Some y ->
  own_transform float a = Ok (translation x y).
Proof.
  intros Ha (Hxne & Hxsep & Hxsp & Hxrp)%is_token_spec
            (Hyne & Hysep & Hysp & Hyrp)%is_token_spec Hx Hy.
  unfold own_transform. rewrite Ha, parse_transform_findall.
  replace ("translate(" ++ tx ++ "," ++ ty ++ ")")
    with (func_name Ftranslate ++ "(" ++ (tx ++ "," ++ ty) ++ ")")
    by (simpl; now rewrite app_assoc_s).
  rewrite findall_single.
  - simpl. unfold match_matrix. simpl.
    rewrite strip_no_space
      by (rewrite all_chars_app, Hxsp; simpl; now rewrite Hysp).
    change (tx ++ "," ++ ty) with (tx ++ String "," ty).
    rewrite re_split_comma, re_split_token; try assumption.
    + simpl. unfold to_float. rewrite Hx, Hy. simpl.
      now rewrite matmul_identity_r.
    + destruct ty as [|c ty]; [congruence |]. simpl in Hysep.
      apply andb_prop in Hysep as [Hc _]. now apply negb_true_iff in Hc.
  - destruct tx; [congruence | discriminate].
  - rewrite all_chars_app, Hxrp. simpl. now rewrite Hyrp.
Qed.

(** Below [n] nested groups with [transform="translate(1,0)"], under the
    [svg] root, an element without a transform has its origin at
    ([n],0). *)
Theorem nested_translations inner svg above e :
  Forall (fun a => String.eqb (tag a) (QName SVG_NS "svg") = false
                   /\ get_or a "transform" "" = "translate(1,0)") inner ->
  String.eqb (tag svg) (QName SVG_NS "svg") = true ->
  get_or e "transform" "" = "" ->
  float "1" = Some 1 -> float "0" = Some 0 ->
  exists T,
    get_cumulative_transform float (inner ++ svg :: above) e = Ok T
    /\ matvec T (0, 0, 1) = (INR (length inner), 0, 1).
Proof.
  intros Hinner Hsvg He H1 H0.
  assert (own_transform float e = Ok identity) as Hown
    by (unfold own_transform; now rewrite He).
  assert (Forall (fun a => walked float a (translation 1 0)) inner) as Hwalk.
  { induction Hinner as [|a inner [Htag Ha] _ IH]; constructor; [|assumption].
    split; [assumption |].
    now apply (own_transform_translate a "1" "0" 1 0). }
  assert (Forall2 (walked float) inner
            (repeat (translation 1 0) (length inner))) as Hprod
    by (clear -Hwalk; induction Hwalk; simpl; constructor; assumption).
  eexists. split.
  - exact (get_cumulative_transform_product inner _ svg above e identity
             Hprod Hsvg Hown).
  - apply (get_cumulative_transform_chain inner svg above e); try assumption.
    exact (get_cumulative_transform_product inner _ svg above e identity
             Hprod Hsvg Hown).
Qed.

End Cumulative_transform.

(** ** The label extractor *)

Lemma Label_ext x y s c a x' y' s' :
  x = x' -> y = y' -> s = s' -> Label x y s c a = Label x' y' s' c a.
Proof. intros; subst; reflexivity. Qed.

Lemma affine_identity : affine identity.
Proof. repeat split. Qed.

Lemma affine_matmul A B : affine A -> affine B -> affine (A @@ B).
Proof.
  intros (A0 & A1 & A2) (B0 & B1 & B2). unfold affine, matmul. simpl.
  rewrite A0, A1, A2, B0, B1, B2. repeat split; ring.
Qed.

Section Label_extractor.

Variable float : string -> option R.

Local Open Scope R_scope.

Lemma affine_function_matrix f xs M : function_matrix f xs = Ok M -> affine M.
Proof.
  destruct f; simpl.
  - destruct xs as [|? [|? [|? [|? [|? [|? [|? ?]]]]]]]; intros [= <-];
      repeat split.
  - destruct xs; intros [= <-]. repeat split.
  - destruct xs; intros [= <-]. repeat split.
Qed.

Lemma affine_compose_matches ms A T :
  affine A -> compose_matches float ms A = Ok T -> affine T.
Proof.
  revert A. induction ms as [|m ms IH]; intros A HA; simpl.
  - now intros [= <-].
  - unfold match_matrix.
    destruct (floats float (re_split (strip (snd m)))) as [xs|]; simpl;
      [|discriminate].
    destruct (function_matrix (fst m) xs) as [M|] eqn:E; simpl; [|discriminate].
    apply IH. apply affine_matmul; [|assumption].
    now apply affine_function_matrix in E.
Qed.

Lemma affine_own_transform e T : own_transform float e = Ok T -> affine T.
Proof.
  unfold own_transform. rewrite parse_transform_findall.
  apply affine_compose_matches, affine_identity.
Qed.

Lemma affine_ancestors_transform ancestors A T :
  affine A -> ancestors_transform float ancestors A = Ok T -> affine T.
Proof.
  revert A. induction ancestors as [|a above IH]; intros A HA.
  - now intros [= <-].
  - rewrite ancestors_transform_cons.
    destruct (String.eqb (tag a) (QName SVG_NS "svg")); [now intros [= <-] |].
    destruct (own_transform float a) as [M|] eqn:E; simpl; [|discriminate].
    apply IH. apply affine_matmul; [|assumption].
    now apply affine_own_transform in E.
Qed.

(** Every cumulative transform is affine. *)
Lemma affine_get_cumulative_transform ancestors e T :
  get_cumulative_transform float ancestors e = Ok T -> affine T.
Proof.
  rewrite get_cumulative_transform_eq.
  destruct (ancestors_transform float ancestors identity) as [A|] eqn:EA;
    simpl; [|discriminate].
  destruct (own_transform float e) as [E|] eqn:EE; simpl; [|discriminate].
  intros [= <-]. apply affine_matmul.
  - apply (affine_ancestors_transform _ _ _ affine_identity EA).
  - now apply affine_own_transform in EE.
Qed.

Lemma extract_label_eq n :
  extract_label float n =
  let text_node := node_element n in
  let* x := to_float float (get_or text_node "x" "0") in
  let* y := to_float float (get_or text_node "y" "0") in
  let* font_size_px := font_size_px_of float (get_or text_node "style" "") in
  match strip (itertext text_node) with
  | EmptyString => Ok None
  | _ =>
      let* T := get_cumulative_transform float (node_ancestors n) text_node in
      Ok (Some (Label
        ((m00 T * x + m01 T * y + m02 T * 1) * PX_TO_PT)
        ((m10 T * x + m11 T * y + m12 T * 1) * PX_TO_PT
         - 0.8 * (font_size_px * sqrt (m10 T ^ 2 + m11 T ^ 2) * PX_TO_PT))
        (font_size_px * sqrt (m10 T ^ 2 + m11 T ^ 2) * PX_TO_PT)
        (strip (itertext text_node))
        (text_anchor_of text_node (get_or text_node "style" ""))))
  end.
Proof. reflexivity. Qed.

Lemma extract_label_geometry n x y s a b c d e f :
  let text_node := node_element n in
  to_float float (get_or text_node "x" "0") = Ok x ->
  to_float float (get_or text_node "y" "0") = Ok y ->
  font_size_px_of float (get_or text_node "style" "") = Ok s ->
  strip (itertext text_node) <> "" ->
  get_cumulative_transform float (node_ancestors n) text_node
  = Ok (matrix_of a b c d e f) ->
  extract_label float n =
  Ok (Some (Label
    ((a * x + c * y + e) * (72 / 96))
    ((b * x + d * y + f) * (72 / 96) - 0.8 * (s * sqrt (b ^ 2 + d ^ 2) * (72 / 96)))
    (s * sqrt (b ^ 2 + d ^ 2) * (72 / 96))
    (strip (itertext text_node))
    (text_anchor_of text_node (get_or text_node "style" "")))).
Proof.
  intros text_node Hx Hy Hs Hne HT. rewrite extract_label_eq.
  fold text_node. cbv zeta. rewrite Hx, Hy, Hs. simpl bind.
  destruct (strip (itertext text_node)) eqn:E; [congruence |].
  rewrite HT. simpl bind. unfold matrix_of, PX_TO_PT. simpl.
  f_equal. f_equal. apply Label_ext; ring.
Qed.

(** The example of the specification, at the text element. *)
Lemma extract_label_example :
  float "10" = Some 10 -> float "20" = Some 20 -> float "5" = Some 5 ->
  extract_label float label_node
  = Ok (Some (Label 11.25 6.75 15 "Label" "middle")).
Proof.
  intros H10 H20 H5. rewrite extract_label_eq.
  pose proof sqrt_1 as Hsq. set (sq := sqrt) in *. clearbody sq.
  vm_compute. rewrite H10, H20, H5.
  match goal with |- context [sq ?t] => replace t with 1 by lra end.
  rewrite Hsq. f_equal. f_equal. apply Label_ext; lra.
Qed.

(** C3: for a text element that is extracted, with cumulative transform
    [[a,c,e],[b,d,f],[0,0,1]], anchor point ([x],[y]) and nominal font size
    [s], the label has position ((a x + c y + e) 72/96, (b x + d y + f)
    72/96 - 0.8 font size) and font size s sqrt(b^2 + d^2) 72/96; every
    cumulative transform has this form; and the element at (10,20) in a
    group translated by (5,5), with style
    font-size:20px;text-anchor:middle and content Label, gives x = 11.25,
    y = 6.75, font size 15 and anchor middle. *)
Theorem label_geometry :
  (forall n x y s a b c d e f,
     to_float float (get_or (node_element n) "x" "0") = Ok x ->
     to_float float (get_or (node_element n) "y" "0") = Ok y ->
     font_size_px_of float (get_or (node_element n) "style" "") = Ok s ->
     strip (itertext (node_element n)) <> "" ->
     get_cumulative_transform float (node_ancestors n) (node_element n)
     = Ok (matrix_of a b c d e f) ->
     extract_label float n =
     Ok (Some (Label
       ((a * x + c * y + e) * (72 / 96))
       ((b * x + d * y + f) * (72 / 96)
        - 0.8 * (s * sqrt (b ^ 2 + d ^ 2) * (72 / 96)))
       (s * sqrt (b ^ 2 + d ^ 2) * (72 / 96))
       (strip (itertext (node_element n)))
       (text_anchor_of (node_element n) (get_or (node_element n) "style" "")))))
  /\ (forall ancestors e T,
        get_cumulative_transform float ancestors e = Ok T ->
        T = matrix_of (m00 T) (m10 T) (m01 T) (m11 T) (m02 T) (m12 T))
  /\ (float "10" = Some 10 -> float "20" = Some 20 -> float "5" = Some 5 ->
      xpath_text [] [] label_root = [label_node]
      /\ extract_label float label_node
         = Ok (Some (Label 11.25 6.75 15 "Label" "middle"))
      /\ (float "100" = Some 100 -> float "50" = Some 50 ->
          exists clean,
            process_svg float label_root
            = Ok (Conversion 75 37.5 [Label 11.25 6.75 15 "Label" "middle"]
                    [[0; 0]%nat] clean))).
Proof.
  split; [|split].
  - intros n. apply extract_label_geometry.
  - intros ancestors e T HT.
    apply affine_get_cumulative_transform in HT as (H0 & H1 & H2).
    destruct T. simpl in *. subst. reflexivity.
  - intros H10 H20 H5.
    assert (xpath_text [] [] label_root = [label_node]) as Hx
      by (vm_compute; reflexivity).
    split; [exact Hx |]. split; [now apply extract_label_example |].
    intros H100 H50. eexists. unfold process_svg. rewrite Hx.
    simpl extract_labels. rewrite (extract_label_example H10 H20 H5).
    vm_compute. rewrite H100, H50. f_equal. f_equal; lra.
Qed.

End Label_extractor.

(** ** The text elements of a tree *)

Lemma element_children_ind (P : element -> Prop) :
  (forall t a x cs tl, Forall P cs -> P (Element t a x cs tl)) ->
  forall e, P e.
Proof.
  intros H. fix IH 1. intros [t a x cs tl]. apply H.
  revert cs. fix IHcs 1. intros [|c cs]; constructor; [apply IH | apply IHcs].
Qed.

Lemma xpath_text_eq ancestors path e :
  xpath_text ancestors path e =
  ((if String.eqb (tag e) (QName SVG_NS "text") then [Node path ancestors e] else [])
   ++ xpath_children (e :: ancestors) path 0 (children e))%list.
Proof.
  destruct e as [t a x cs tl]. simpl. f_equal.
  remember (Element t a x cs tl :: ancestors) as up eqn:E. clear E.
  generalize 0%nat. induction cs as [|c cs IH]; intros i; simpl; [reflexivity |].
  now rewrite IH.
Qed.

(** The nodes of the children loop are the nodes of the children, each
    under its index. *)
Lemma in_xpath_children n ancestors path i cs :
  In n (xpath_children ancestors path i cs) <->
  exists k c, nth_error cs k = Some c
              /\ In n (xpath_text ancestors (path ++ [i + k])%list c).
Proof.
  revert i. induction cs as [|c cs IH]; intros i; simpl.
  - split; [intros [] | intros (k & c & Hk & _); now destruct k].
  - rewrite in_app_iff, IH. split.
    + intros [H | (k & c' & Hk & H)].
      * exists 0%nat, c. rewrite Nat.add_0_r. auto.
      * exists (S k), c'. rewrite Nat.add_succ_r. auto.
    + intros ([|k] & c' & Hk & H); simpl in Hk.
      * injection Hk as <-. rewrite Nat.add_0_r in H. auto.
      * right. exists k, c'. rewrite Nat.add_succ_r in H. auto.
Qed.

(** The path of a node found below [path] extends [path]. *)
Lemma xpath_text_path n ancestors path e :
  In n (xpath_text ancestors path e) ->
  exists q, node_path n = (path ++ q)%list.
Proof.
  revert ancestors path. induction e as [t a x cs tl IH] using element_children_ind.
  intros ancestors path. rewrite xpath_text_eq, in_app_iff.
  intros [H | H].
  - destruct (String.eqb _ _); [|destruct H].
    destruct H as [<- | []]. exists []. simpl. now rewrite app_nil_r.
  - apply in_xpath_children in H as (k & c & Hk & H). simpl in Hk.
    rewrite List.Forall_forall in IH. apply nth_error_In in Hk.
    destruct (IH c Hk _ _ H) as [q Hq]. exists ((0 + k)%nat :: q).
    rewrite Hq, <- app_assoc. reflexivity.
Qed.

(** Two text elements found at the same path are the same node. *)
Lemma xpath_text_path_inj n1 n2 ancestors path e :
  In n1 (xpath_text ancestors path e) -> In n2 (xpath_text ancestors path e) ->
  node_path n1 = node_path n2 -> n1 = n2.
Proof.
  revert ancestors path. induction e as [t a x cs tl IH] using element_children_ind.
  intros ancestors path. rewrite xpath_text_eq, !in_app_iff.
  assert (forall n m : node,
            In n (if String.eqb (tag (Element t a x cs tl)) (QName SVG_NS "text")
                  then [Node path ancestors (Element t a x cs tl)] else []) ->
            In m (xpath_children (Element t a x cs tl :: ancestors) path 0
                    (children (Element t a x cs tl))) ->
            node_path n <> node_path m) as Hdiff.
  { intros n m Hn Hm. destruct (String.eqb _ _); [|destruct Hn].
    destruct Hn as [<- | []]. simpl.
    apply in_xpath_children in Hm as (k & c & _ & Hm).
    apply xpath_text_path in Hm as [q ->]. rewrite <- app_assoc. simpl.
    intros Heq. apply (f_equal (@length nat)) in Heq.
    rewrite length_app in Heq. simpl in Heq. lia. }
  intros [H1 | H1] [H2 | H2] Heq.
  - destruct (String.eqb _ _); [|destruct H1].
    destruct H1 as [<- | []]. now destruct H2 as [<- | []].
  - now apply Hdiff in Heq.
  - symmetry in Heq. now apply Hdiff in Heq.
  - apply in_xpath_children in H1 as (k1 & c1 & Hk1 & H1).
    apply in_xpath_children in H2 as (k2 & c2 & Hk2 & H2).
    destruct (xpath_text_path _ _ _ _ H1) as [q1 Hq1].
    destruct (xpath_text_path _ _ _ _ H2) as [q2 Hq2].
    rewrite Hq1, Hq2, <- !app_assoc in Heq. apply app_inv_head in Heq.
    simpl in Heq. injection Heq as Hk Hq. subst k2 q2.
    simpl in Hk1, Hk2. rewrite Hk1 in Hk2. injection Hk2 as <-.
    rewrite List.Forall_forall in IH. apply nth_error_In in Hk1.
    apply (IH c1 Hk1 _ _ H1 H2). congruence.
Qed.

Lemma remove_nodes_eq to_remove path e :
  remove_nodes to_remove path e =
  Element (tag e) (attrib e) (text e)
    (remove_children to_remove path 0 (children e)) (tail e).
Proof.
  destruct e as [t a x cs tl]. simpl. f_equal.
  generalize 0%nat. induction cs as [|c cs IH]; intros i; simpl; [reflexivity |].
  now rewrite IH.
Qed.

Lemma itertext_eq e : itertext e = text e ++ itertext_children (children e).
Proof.
  destruct e as [t a x cs tl]. reflexivity.
Qed.

(** A tree none of whose elements is marked below [path] is left as it
    is. *)
Lemma remove_nodes_id to_remove path e :
  (forall q, q <> [] -> ~ In (path ++ q)%list to_remove) ->
  remove_nodes to_remove path e = e.
Proof.
  revert path. induction e as [t a x cs tl IH] using element_children_ind.
  intros path Hfree. rewrite remove_nodes_eq. simpl. f_equal.
  generalize 0%nat. induction IH as [|c cs Hc _ IHcs]; intros i; simpl;
    [reflexivity |].
  rewrite bool_decide_eq_false_2.
  - rewrite Hc, IHcs; [reflexivity |].
    intros q Hq. rewrite <- app_assoc. now apply Hfree.
  - rewrite list_elem_of_In. now apply Hfree.
Qed.

Lemma in_remove_children to_remove path i cs k c :
  nth_error cs k = Some c ->
  ~ In (path ++ [i + k])%list to_remove ->
  In (remove_nodes to_remove (path ++ [i + k])%list c)
     (remove_children to_remove path i cs).
Proof.
  revert i k. induction cs as [|c' cs IH]; intros i k Hk Hfree;
    [now destruct k |].
  simpl. destruct k as [|k]; simpl in Hk.
  - injection Hk as ->. rewrite Nat.add_0_r in *.
    rewrite bool_decide_eq_false_2 by now rewrite list_elem_of_In.
    now left.
  - rewrite Nat.add_succ_r in *.
    assert (In (remove_nodes to_remove (path ++ [S i + k])%list c)
               (remove_children to_remove path (S i) cs)) as H
      by now apply IH.
    destruct (bool_decide _); [assumption | now right].
Qed.

(** A text element stays in the cleaned tree when neither it, nor an
    element it lies in, nor an element that lies in it is marked. *)
Lemma remove_nodes_keeps to_remove n ancestors path e q :
  In n (xpath_text ancestors path e) ->
  node_path n = (path ++ q)%list ->
  (forall q1 q2, q = (q1 ++ q2)%list -> q1 <> [] ->
                 ~ In (path ++ q1)%list to_remove) ->
  (forall q', q' <> [] -> ~ In (path ++ q ++ q')%list to_remove) ->
  occurs (node_element n) (remove_nodes to_remove path e).
Proof.
  revert ancestors path q.
  induction e as [t a x cs tl IH] using element_children_ind.
  intros ancestors path q. rewrite xpath_text_eq, in_app_iff.
  intros [H | H] Hq Habove Hbelow.
  - destruct (String.eqb _ _); [|destruct H].
    destruct H as [<- | []]. simpl node_path in Hq. simpl node_element.
    assert (q = []) as -> .
    { apply (f_equal (@length nat)) in Hq. rewrite length_app in Hq.
      destruct q; [reflexivity | simpl in Hq; lia]. }
    rewrite remove_nodes_id; [constructor |].
    intros q' Hq'. now apply Hbelow.
  - apply in_xpath_children in H as (k & c & Hk & H). simpl in Hk.
    destruct (xpath_text_path _ _ _ _ H) as [q' Hq'].
    assert (q = (0 + k)%nat :: q') as ->.
    { rewrite Hq', <- app_assoc in Hq. now apply app_inv_head in Hq. }
    rewrite remove_nodes_eq.
    apply occurs_below with (c := remove_nodes to_remove (path ++ [0 + k])%list c).
    + simpl children.
      apply (in_remove_children to_remove path 0 cs k c); [assumption |].
      apply (Habove [(0 + k)%nat] q'); [reflexivity | discriminate].
    + rewrite List.Forall_forall in IH.
      apply (IH c (nth_error_In _ _ Hk) _ _ q' H Hq').
      * intros q1 q2 -> Hq1. rewrite <- app_assoc.
        apply (Habove ((0 + k)%nat :: q1) q2); [reflexivity | discriminate].
      * intros q'' Hq''. rewrite <- app_assoc. now apply Hbelow.
Qed.

(** A text element found at a path that extends the path of another lies
    in the subtree of that other. *)
Lemma xpath_text_inside n n' ancestors path e q :
  In n (xpath_text ancestors path e) -> In n' (xpath_text ancestors path e) ->
  node_path n' = (node_path n ++ q)%list ->
  In n' (xpath_text (node_ancestors n) (node_path n) (node_element n)).
Proof.
  revert ancestors path.
  induction e as [t a x cs tl IH] using element_children_ind.
  intros ancestors path Hn Hn'. pose proof Hn' as Hn'0. revert Hn Hn'.
  rewrite xpath_text_eq, !in_app_iff. intros [H | H] H' Hq.
  - destruct (String.eqb _ _); [|destruct H].
    destruct H as [<- | []]. exact Hn'0.
  - apply in_xpath_children in H as (k & c & Hk & H).
    destruct (xpath_text_path _ _ _ _ H) as [q1 Hq1].
    destruct H' as [H' | H'].
    + destruct (String.eqb _ _); [|destruct H'].
      destruct H' as [<- | []]. simpl in Hq. rewrite Hq1 in Hq.
      apply (f_equal (@length nat)) in Hq. rewrite !length_app in Hq.
      simpl in Hq. lia.
    + apply in_xpath_children in H' as (k' & c' & Hk' & H').
      destruct (xpath_text_path _ _ _ _ H') as [q2 Hq2].
      pose proof Hq as Hq0.
      rewrite Hq1, Hq2, <- !app_assoc in Hq0. apply app_inv_head in Hq0.
      simpl in Hq0. injection Hq0 as Hkk _. subst k'.
      simpl in Hk, Hk'. rewrite Hk in Hk'. injection Hk' as <-.
      rewrite List.Forall_forall in IH.
      exact (IH c (nth_error_In _ _ Hk) _ _ H H' Hq).
Qed.

Lemma itertext_children_spaces cs k c :
  nth_error cs k = Some c ->
  all_chars isspace (itertext_children cs) = true ->
  all_chars isspace (itertext c) = true.
Proof.
  revert k. induction cs as [|c' cs IH]; intros k Hk; [now destruct k |].
  simpl. rewrite !all_chars_app.
  intros [Hc [_ Hcs]%andb_prop]%andb_prop.
  destruct k as [|k]; simpl in Hk; [now injection Hk as <- | eauto].
Qed.

(** The text of an element that lies in an element of blank text is
    blank. *)
Lemma itertext_inside n ancestors path e :
  In n (xpath_text ancestors path e) ->
  all_chars isspace (itertext e) = true ->
  all_chars isspace (itertext (node_element n)) = true.
Proof.
  revert ancestors path.
  induction e as [t a x cs tl IH] using element_children_ind.
  intros ancestors path. rewrite xpath_text_eq, in_app_iff. intros [H | H] He.
  - destruct (String.eqb _ _); [|destruct H]. now destruct H as [<- | []].
  - apply in_xpath_children in H as (k & c & Hk & H). simpl in Hk.
    rewrite itertext_eq, all_chars_app in He. apply andb_prop in He as [_ He].
    rewrite List.Forall_forall in IH.
    apply (IH c (nth_error_In _ _ Hk) _ _ H).
    now apply (itertext_children_spaces cs k).
Qed.

Lemma rstrip_empty s : rstrip s = "" -> all_chars isspace s = true.
Proof.
  induction s as [|c s IH]; simpl; [reflexivity |].
  destruct (rstrip s); [|discriminate].
  destruct (isspace c); [|discriminate]. intros _. now apply IH.
Qed.

Lemma lstrip_blank s :
  all_chars isspace (lstrip s) = true -> all_chars isspace s = true.
Proof.
  induction s as [|c s IH]; simpl; [reflexivity |].
  destruct (isspace c) eqn:E; simpl; [assumption | now rewrite E].
Qed.

(** A string strips to nothing exactly when it is blank. *)
Lemma strip_empty_iff s : strip s = "" <-> all_chars isspace s = true.
Proof.
  unfold strip. split.
  - intros H. now apply lstrip_blank, rstrip_empty.
  - intros H. rewrite <- (app_empty_r s), lstrip_spaces by assumption.
    reflexivity.
Qed.

Section Empty_text.

Variable float : string -> option R.

Lemma extract_label_empty n :
  strip (itertext (node_element n)) = "" ->
  forall l, extract_label float n <> Ok (Some l).
Proof.
  intros He l. rewrite extract_label_eq. cbv zeta. rewrite He.
  destruct (to_float float _); simpl; [|discriminate].
  destruct (to_float float _); simpl; [|discriminate].
  destruct (font_size_px_of float _); simpl; discriminate.
Qed.

(** What the loop marks are the paths of the nodes it made a label of. *)
Lemma extract_labels_marks nodes ls rm ls' rm' :
  extract_labels float nodes ls rm = Ok (ls', rm') ->
  forall p, In p rm' ->
    In p rm \/ exists n l, In n nodes /\ node_path n = p
                           /\ extract_label float n = Ok (Some l).
Proof.
  revert ls rm. induction nodes as [|n nodes IH]; intros ls rm; simpl.
  - intros [= <- <-]. auto.
  - destruct (extract_label float n) as [[l|]|] eqn:E; simpl; [| |discriminate].
    + intros H p Hp. destruct (IH _ _ H p Hp) as [Hin | (n' & l' & ? & ? & ?)].
      * apply in_app_iff in Hin as [Hin | [<- | []]]; [now left |].
        right. exists n, l. auto.
      * right. exists n', l'. auto.
    + intros H p Hp. destruct (IH _ _ H p Hp) as [Hin | (n' & l' & ? & ? & ?)];
        [now left |]. right. exists n', l'. auto.
Qed.

(** In a loop that ends well, the body has ended well at every node. *)
Lemma extract_labels_all_ok nodes ls rm ls' rm' :
  extract_labels float nodes ls rm = Ok (ls', rm') ->
  forall n, In n nodes -> exists r, extract_label float n = Ok r.
Proof.
  revert ls rm. induction nodes as [|n' nodes IH]; intros ls rm; simpl;
    [intros _ n [] |].
  destruct (extract_label float n') as [r|] eqn:E; simpl; [|discriminate].
  intros H n [<- | Hn]; [eauto |].
  destruct r; exact (IH _ _ H n Hn).
Qed.

(** C9, as the code has it: a text element whose text is blank, and whose
    coordinates and font size convert, gives no label and no error, and
    the loop goes on as if it were not there; in a run that succeeds it
    has given no label, it is not among the elements marked for removal,
    and it is an element of the cleaned tree unless it lies in a text
    element that is marked. *)
Theorem empty_text_is_skipped (n : node) :
  strip (itertext (node_element n)) = "" ->
  (forall x y s,
     to_float float (get_or (node_element n) "x" "0") = Ok x ->
     to_float float (get_or (node_element n) "y" "0") = Ok y ->
     font_size_px_of float (get_or (node_element n) "style" "") = Ok s ->
     extract_label float n = Ok None
     /\ forall nodes ls rm,
          extract_labels float (n :: nodes) ls rm
          = extract_labels float nodes ls rm)
  /\ (forall root conv,
        process_svg float root = Ok conv -> In n (xpath_text [] [] root) ->
        extract_label float n = Ok None
        /\ ~ In (node_path n) (text_nodes_to_remove conv)
        /\ ((forall p q, node_path n = (p ++ q)%list -> q <> [] ->
                         ~ In p (text_nodes_to_remove conv)) ->
            occurs (node_element n) (clean_svg conv))).
Proof.
  intros He. split.
  - intros x y s Hx Hy Hs.
    assert (extract_label float n = Ok None) as H.
    { rewrite extract_label_eq. cbv zeta. now rewrite Hx, Hy, Hs, He. }
    split; [exact H |]. intros nodes ls rm. simpl. now rewrite H.
  - intros root conv Hrun Hn. unfold process_svg in Hrun.
    destruct (parse_svg_dimensions float root) as [[w h]|]; simpl in Hrun;
      [|discriminate].
    destruct (extract_labels float (xpath_text [] [] root) [] [])
      as [[ls rm]|] eqn:E; simpl in Hrun; [|discriminate].
    destruct (bool_decide ([] ∈ rm)) eqn:Eroot; [discriminate |].
    injection Hrun as <-. simpl.
    assert (forall q, ~ In (node_path n ++ q)%list rm) as Hfree.
    { intros q Hin.
      destruct (extract_labels_marks _ _ _ _ _ E _ Hin)
        as [[] | (n' & l & Hn' & Hp & Hl)].
      apply (extract_label_empty n') with (l := l); [|exact Hl].
      apply strip_empty_iff.
      apply (itertext_inside n' (node_ancestors n) (node_path n) (node_element n)).
      - exact (xpath_text_inside n n' [] [] root q Hn Hn' Hp).
      - now apply strip_empty_iff. }
    split; [|split].
    + destruct (extract_labels_all_ok _ _ _ _ _ E n Hn) as [[l|] Hr];
        [|exact Hr].
      now apply extract_label_empty in Hr.
    + specialize (Hfree []). now rewrite app_nil_r in Hfree.
    + intros Habove.
      apply (remove_nodes_keeps rm n [] [] root (node_path n) Hn eq_refl).
      * intros q1 q2 Hq Hq1. simpl. destruct q2 as [|i q2].
        -- rewrite app_nil_r in Hq. subst q1.
           specialize (Hfree []). now rewrite app_nil_r in Hfree.
        -- apply (Habove q1 (i :: q2)); [assumption | discriminate].
      * intros q' _. apply Hfree.
Qed.

End Empty_text.

(** ** The claims at concrete inputs *)

Local Open Scope R_scope.

(** C1: in the document with a nested [svg] element the walk ends at the
    inner [svg]: the cumulative transform of the text element is the
    identity, while the transforms of its ancestors below the root are the
    translation by (5,5) of the group and the identity of the inner [svg],
    whose product with the element's own is not the identity. *)
Theorem nested_svg_cuts_the_walk :
  xpath_text [] [] nested_root
  = [Node [0; 0; 0]%nat [nested_svg; nested_group; nested_root] nested_text]
  /\ get_cumulative_transform decimal
       [nested_svg; nested_group; nested_root] nested_text = Ok identity
  /\ own_transform decimal nested_group = Ok (translation 5 5)
  /\ own_transform decimal nested_svg = Ok identity
  /\ own_transform decimal nested_text = Ok identity
  /\ mat_product [translation 5 5; identity; identity] <> identity.
Proof.
  repeat split.
  - vm_compute. f_equal. apply Mat_ext; lra.
  - vm_compute. f_equal. apply Mat_ext; lra.
  - intros H. apply (f_equal m02) in H. vm_compute in H. lra.
Qed.

(** The order of composition on two calls: the later call is on the
    left. *)
Example parse_transform_order :
  parse_transform decimal (Some "translate(1,0) scale(2)")
  = Ok (scaling 2 2 @@ translation 1 0)
  /\ scaling 2 2 @@ translation 1 0 <> translation 1 0 @@ scaling 2 2.
Proof.
  split.
  - vm_compute. f_equal. apply Mat_ext; lra.
  - intros H. apply (f_equal m02) in H. vm_compute in H. lra.
Qed.

Lemma parse_transform_left_multiplies_witness :
  forallb well_formed [Call "" Ftranslate "" "1,0"; Call " " Fscale "" "2"] = true
  /\ all_chars isspace "" = true
  /\ Forall2 (has_matrix decimal) [(Ftranslate, "1,0"); (Fscale, "2")]
       [translation 1 0; scaling 2 2]
  /\ parse_transform decimal (Some "translate(1,0) scale(2)")
     = Ok (mat_product [scaling 2 2; translation 1 0]).
Proof.
  assert (Forall2 (has_matrix decimal) [(Ftranslate, "1,0"); (Fscale, "2")]
            [translation 1 0; scaling 2 2]) as HMs.
  { repeat constructor; unfold has_matrix; vm_compute; f_equal;
      apply Mat_ext; lra. }
  split; [reflexivity |]. split; [reflexivity |]. split; [exact HMs |].
  exact (proj1 (proj2 (proj2 (parse_transform_left_multiplies decimal)))
           [Call "" Ftranslate "" "1,0"; Call " " Fscale "" "2"] ""
           [translation 1 0; scaling 2 2] eq_refl eq_refl HMs).
Defined.

Lemma label_geometry_witness :
  to_float decimal (get_or (node_element label_node) "x" "0") = Ok 10
  /\ to_float decimal (get_or (node_element label_node) "y" "0") = Ok 20
  /\ font_size_px_of decimal (get_or (node_element label_node) "style" "") = Ok 20
  /\ strip (itertext (node_element label_node)) <> ""
  /\ get_cumulative_transform decimal (node_ancestors label_node)
       (node_element label_node) = Ok (matrix_of 1 0 0 1 5 5)
  /\ extract_label decimal label_node =
     Ok (Some (Label
       ((1 * 10 + 0 * 20 + 5) * (72 / 96))
       ((0 * 10 + 1 * 20 + 5) * (72 / 96)
        - 0.8 * (20 * sqrt (0 ^ 2 + 1 ^ 2) * (72 / 96)))
       (20 * sqrt (0 ^ 2 + 1 ^ 2) * (72 / 96))
       "Label" "middle")).
Proof.
  assert (to_float decimal (get_or (node_element label_node) "x" "0") = Ok 10)
    as Hx by (vm_compute; f_equal; lra).
  assert (to_float decimal (get_or (node_element label_node) "y" "0") = Ok 20)
    as Hy by (vm_compute; f_equal; lra).
  assert (font_size_px_of decimal (get_or (node_element label_node) "style" "")
          = Ok 20) as Hs by (vm_compute; f_equal; lra).
  assert (strip (itertext (node_element label_node)) <> "") as Hne
    by (vm_compute; discriminate).
  assert (get_cumulative_transform decimal (node_ancestors label_node)
            (node_element label_node) = Ok (matrix_of 1 0 0 1 5 5)) as HT
    by (vm_compute; f_equal; apply Mat_ext; lra).
  repeat (split; [assumption |]).
  exact (proj1 (label_geometry decimal) label_node 10 20 20 1 0 0 1 5 5
           Hx Hy Hs Hne HT).
Defined.

(** C4 as stated fails: [matrix] with three arguments and [translate]
    with three arguments are matched, and parsed without an error. *)
Lemma wrong_arity_is_accepted :
  findall "matrix(1,2,3)" = [(Fmatrix, "1,2,3")]
  /\ parse_transform decimal (Some "matrix(1,2,3)") = Ok identity
  /\ ~ raises (parse_transform decimal (Some "matrix(1,2,3)"))
  /\ parse_transform decimal (Some "translate(1,2,3)") = Ok (translation 1 2).
Proof.
  assert (parse_transform decimal (Some "matrix(1,2,3)") = Ok identity) as H
    by (vm_compute; f_equal; apply Mat_ext; lra).
  split; [reflexivity |]. split; [exact H |]. split.
  - rewrite H. intros [e [=]].
  - vm_compute. f_equal. apply Mat_ext; lra.
Qed.

Lemma parse_transform_raises_iff_witness :
  (In (Ftranslate, "1,x") (findall "translate(1,x)")
   /\ In "x" (re_split (strip "1,x")) /\ decimal "x" = None
   /\ raises (parse_transform decimal (Some "translate(1,x)")))
  /\ (floats decimal (re_split (strip "1,2,3")) = Ok [1; 2; 3]
      /\ length [1; 2; 3] <> 6%nat
      /\ match_matrix decimal (Fmatrix, "1,2,3") = Ok identity)
  /\ (floats decimal (re_split (strip "1,2,3")) = Ok [1; 2; 3]
      /\ match_matrix decimal (Ftranslate, "1,2,3") = Ok (translation 1 2)
      /\ match_matrix decimal (Fscale, "1,2,3") = Ok (scaling 1 2)).
Proof.
  assert (floats decimal (re_split (strip "1,2,3")) = Ok [1; 2; 3]) as Hxs
    by (vm_compute; repeat f_equal; lra).
  assert (In (Ftranslate, "1,x") (findall "translate(1,x)")) as Hin
    by (vm_compute; auto).
  assert (In "x" (re_split (strip "1,x"))) as Htok by (vm_compute; auto).
  assert (decimal "x" = None) as Hx by reflexivity.
  assert (length [1; 2; 3] <> 6%nat) as Hlen by (simpl; lia).
  split; [|split].
  - repeat (split; [assumption |]).
    apply (proj1 (parse_transform_raises_iff decimal) "translate(1,x)").
    exists Ftranslate, "1,x", "x". auto.
  - repeat (split; [assumption |]).
    exact (proj1 (proj2 (parse_transform_raises_iff decimal)) "1,2,3" [1; 2; 3]
             Hxs Hlen).
  - split; [assumption |].
    exact (proj2 (proj2 (parse_transform_raises_iff decimal)) "1,2,3" 1 2 [3] Hxs).
Defined.

Lemma dimensions_in_points_witness :
  (get label_root "width" = Some ("100" ++ "px")
   /\ get label_root "height" = Some ("50" ++ "px")
   /\ is_numeric_text "100" = true /\ is_numeric_text "50" = true
   /\ all_chars (fun c => negb (numeric_char c)) "px" = true
   /\ decimal "100" = Some 100 /\ decimal "50" = Some 50
   /\ parse_svg_dimensions decimal label_root = Ok (100 * 0.75, 50 * 0.75)
   /\ parse_svg_dimensions decimal label_root = Ok (75, 37.5))
  /\ (present (get viewbox_root "width") && present (get viewbox_root "height")
      = false
      /\ get viewbox_root "viewBox" = Some "0 0 200 100"
      /\ split_ws "0 0 200 100" = ["0"; "0"; "200"; "100"]
      /\ decimal "0" = Some 0 /\ decimal "200" = Some 200
      /\ parse_svg_dimensions decimal viewbox_root = Ok (200 * 0.75, 100 * 0.75)).
Proof.
  assert (decimal "100" = Some 100) as H100 by (vm_compute; f_equal; lra).
  assert (decimal "50" = Some 50) as H50 by (vm_compute; f_equal; lra).
  assert (decimal "0" = Some 0) as H0 by (vm_compute; f_equal; lra).
  assert (decimal "200" = Some 200) as H200 by (vm_compute; f_equal; lra).
  assert (get label_root "width" = Some "100px") as Hw by reflexivity.
  assert (get label_root "height" = Some "50px") as Hh by reflexivity.
  assert (get viewbox_root "viewBox" = Some "0 0 200 100") as Hvb
    by reflexivity.
  split.
  - repeat (split; [assumption || reflexivity |]). split.
    + exact (proj1 (proj2 (dimensions_in_points decimal label_root))
               "100" "px" "50" "px" 100 50 Hw Hh eq_refl eq_refl eq_refl eq_refl
               H100 H50).
    + exact (proj1 (proj2 (proj2 (dimensions_in_points decimal label_root)))
               Hw Hh H100 H50).
  - repeat (split; [assumption || reflexivity |]).
    exact (proj2 (proj2 (proj2 (dimensions_in_points decimal viewbox_root)))
             "0 0 200 100" "0" "0" "200" "100" 0 0 200 100
             eq_refl Hvb eq_refl H0 H0 H200 H100).
Defined.

(** C5 as stated fails: the width [1e3], a number with an exponent and
    no unit, is a thousand pixels, 750 pt, but the resolver deletes the
    letter and reads 13, which gives 9.75 pt; and of a viewBox whose four
    numbers are separated by commas nothing is converted: the resolver
    fails on the whole string. *)
Lemma exponent_width_is_misread :
  get exponent_root "width" = Some "1e3"
  /\ get exponent_root "height" = Some "50"
  /\ sub_non_numeric "1e3" = "13"
  /\ parse_svg_dimensions decimal exponent_root = Ok (9.75, 37.5)
  /\ 9.75 <> 1000 * 0.75
  /\ present (get comma_viewbox_root "width")
     && present (get comma_viewbox_root "height") = false
  /\ get comma_viewbox_root "viewBox" = Some "0,0,200,100"
  /\ split_ws "0,0,200,100" = ["0,0,200,100"]
  /\ parse_svg_dimensions decimal comma_viewbox_root
     = Raise (FloatError "0,0,200,100").
Proof.
  split; [reflexivity |]. split; [reflexivity |]. split; [reflexivity |].
  split; [vm_compute; f_equal; f_equal; lra |]. split; [lra |].
  split; [reflexivity |]. split; [reflexivity |]. split; reflexivity.
Qed.

(** C6 as stated fails: a root that has both a width and a height makes
    the resolver fail, with the error of the conversion. *)
Lemma auto_size_fails :
  present (get auto_root "width") && present (get auto_root "height") = true
  /\ parse_svg_dimensions decimal auto_root = Raise (FloatError "")
  /\ process_svg decimal auto_root = Raise (FloatError "").
Proof. repeat split. Qed.

Lemma missing_dimensions_witness :
  present (get bare_root "width") && present (get bare_root "height") = false
  /\ get bare_root "viewBox" = None
  /\ parse_svg_dimensions decimal bare_root = Raise NoDimensions
  /\ process_svg decimal bare_root = Raise NoDimensions
  /\ process_svg decimal auto_root = Raise (FloatError "").
Proof.
  split; [reflexivity |]. split; [reflexivity |].
  destruct (proj1 (missing_dimensions decimal bare_root) eq_refl eq_refl)
    as [Hd Hp].
  split; [exact Hd |]. split; [exact Hp |].
  exact (proj2 (proj2 (missing_dimensions decimal auto_root))
           (FloatError "") eq_refl).
Defined.

Lemma scale_one_argument_witness :
  is_token "2" = true
  /\ decimal "2" = Some 2
  /\ parse_transform decimal (Some "scale(2)")
     = parse_transform decimal (Some "scale(2,2)")
  /\ parse_transform decimal (Some "scale(2)") = Ok (scaling 2 2).
Proof.
  assert (decimal "2" = Some 2) as H2 by (vm_compute; f_equal; lra).
  split; [reflexivity |]. split; [exact H2 |].
  destruct (scale_one_argument decimal "2" eq_refl) as [Heq Hval].
  split; [exact Heq | exact (Hval 2 H2)].
Defined.

(** The pattern is not anchored at the start of a name: text that ends in
    one of the three names is read as a call of that function, while a
    name that only begins with one is not. *)
Example pattern_is_unanchored :
  findall "myscale(2)" = [(Fscale, "2")] /\ findall "translateX(5)" = [].
Proof. split; reflexivity. Qed.

Lemma unrecognised_functions_skipped_witness :
  forallb well_formed
    [Other "rotate(30)"; Call " " Ftranslate "" "1,2"; Other " skewX(10)"] = true
  /\ forallb well_formed [Other "rotate(45)"; Other " translateX(3)"] = true
  /\ all_chars isspace "" = true
  /\ Forall2 (has_matrix decimal) [(Ftranslate, "1,2")] [translation 1 2]
  /\ parse_transform decimal (Some "rotate(30) translate(1,2) skewX(10)")
     = parse_transform decimal (Some " translate(1,2)")
  /\ parse_transform decimal (Some "rotate(30) translate(1,2) skewX(10)")
     = Ok (mat_product [translation 1 2])
  /\ parse_transform decimal (Some "rotate(45) translateX(3)") = Ok identity.
Proof.
  assert (Forall2 (has_matrix decimal) [(Ftranslate, "1,2")] [translation 1 2])
    as HMs.
  { repeat constructor. }
  split; [reflexivity |]. split; [reflexivity |]. split; [reflexivity |].
  split; [exact HMs |].
  destruct (unrecognised_functions_skipped decimal
              [Other "rotate(30)"; Call " " Ftranslate "" "1,2"; Other " skewX(10)"]
              "" eq_refl eq_refl) as (Hskip & Hprod & _).
  split; [exact Hskip |]. split; [exact (Hprod [translation 1 2] HMs) |].
  exact (proj2 (proj2 (unrecognised_functions_skipped decimal
                         [Other "rotate(45)"; Other " translateX(3)"] ""
                         eq_refl eq_refl)) eq_refl).
Defined.

(** C9 as stated fails: a blank text element whose [x] lists one
    coordinate per glyph makes the extractor, and the run, fail. *)
Lemma blank_text_with_coordinate_list_raises :
  xpath_text [] [] glyphs_root = [Node [0%nat] [glyphs_root] glyphs_text]
  /\ strip (itertext glyphs_text) = ""
  /\ extract_label decimal (Node [0%nat] [glyphs_root] glyphs_text)
     = Raise (FloatError "10 20")
  /\ exists w h, parse_svg_dimensions decimal glyphs_root = Ok (w, h)
                 /\ process_svg decimal glyphs_root = Raise (FloatError "10 20").
Proof.
  split; [reflexivity |]. split; [reflexivity |]. split; [reflexivity |].
  eexists _, _. split; vm_compute; reflexivity.
Qed.

Lemma empty_text_is_skipped_witness :
  strip (itertext (node_element blank_node)) = ""
  /\ to_float decimal (get_or (node_element blank_node) "x" "0") = Ok 1
  /\ to_float decimal (get_or (node_element blank_node) "y" "0") = Ok 2
  /\ font_size_px_of decimal (get_or (node_element blank_node) "style" "") = Ok 16
  /\ extract_label decimal blank_node = Ok None
  /\ In blank_node (xpath_text [] [] blank_root)
  /\ exists conv,
       process_svg decimal blank_root = Ok conv
       /\ ~ In (node_path blank_node) (text_nodes_to_remove conv)
       /\ occurs (node_element blank_node) (clean_svg conv).
Proof.
  assert (strip (itertext (node_element blank_node)) = "") as He
    by reflexivity.
  assert (to_float decimal (get_or (node_element blank_node) "x" "0") = Ok 1)
    as Hx by (vm_compute; f_equal; lra).
  assert (to_float decimal (get_or (node_element blank_node) "y" "0") = Ok 2)
    as Hy by (vm_compute; f_equal; lra).
  assert (font_size_px_of decimal (get_or (node_element blank_node) "style" "")
          = Ok 16) as Hs by reflexivity.
  assert (In blank_node (xpath_text [] [] blank_root)) as Hin
    by (vm_compute; auto).
  repeat (split; [assumption |]).
  destruct (empty_text_is_skipped decimal blank_node He) as [Hskip Hrun].
  split; [exact (proj1 (Hskip 1 2 16 Hx Hy Hs)) |].
  split; [assumption |].
  eexists. split; [vm_compute; reflexivity |].
  destruct (Hrun blank_root _ eq_refl Hin) as (_ & Hfree & Hkeep).
  split; [exact Hfree |]. apply Hkeep.
  intros p q Hpq Hq Hp. exact Hp.
Defined.

Lemma dimensions_ignore_units_witness :
  (In "100pt" ["100pt"; "100mm"; "-100"; "100"]
   /\ get points_root "width" = Some "100pt"
   /\ get points_root "height" = Some "50"
   /\ decimal "100" = Some 100
   /\ decimal (sub_non_numeric "50") = Some 50
   /\ parse_svg_dimensions decimal points_root = Ok (75, 50 * 0.75))
  /\ (In "-100" ["100pt"; "100mm"; "-100"; "100"]
      /\ get negative_root "width" = Some "-100"
      /\ parse_svg_dimensions decimal negative_root = Ok (75, 50 * 0.75)).
Proof.
  assert (decimal "100" = Some 100) as H100 by (vm_compute; f_equal; lra).
  assert (decimal (sub_non_numeric "50") = Some 50) as H50
    by (vm_compute; f_equal; lra).
  assert (In "100pt" ["100pt"; "100mm"; "-100"; "100"]) as Hpt
    by (simpl; auto).
  assert (In "-100" ["100pt"; "100mm"; "-100"; "100"]) as Hneg
    by (simpl; auto).
  assert ("50" <> "") as Hne by discriminate.
  split.
  - split; [exact Hpt |]. split; [reflexivity |]. split; [reflexivity |].
    split; [exact H100 |]. split; [exact H50 |].
    exact (proj2 (proj2 (proj2 (dimensions_ignore_units decimal points_root)))
             "100pt" "50" 50 Hpt eq_refl eq_refl Hne H100 H50).
  - split; [exact Hneg |]. split; [reflexivity |].
    exact (proj2 (proj2 (proj2 (dimensions_ignore_units decimal negative_root)))
             "-100" "50" 50 Hneg eq_refl eq_refl Hne H100 H50).
Defined.

(** * Further properties of the transform parser *)

(** ** Texts that end in a closing parenthesis *)

Lemma last_char_app x r :
  r <> "" -> last_char (x ++ r) = last_char r.
Proof.
  intros Hr. induction x as [|c x IH]; [reflexivity |].
  simpl. rewrite <- IH. destruct (x ++ r) eqn:E; [|reflexivity].
  destruct x; simpl in E; [congruence | discriminate].
Qed.

Lemma lstrip_suffix s : exists x, s = x ++ lstrip s.
Proof.
  induction s as [|c s [x Hx]]; [now exists "" |]. simpl.
  destruct (isspace c); [|now exists ""].
  exists (String c x). simpl. now rewrite <- Hx.
Qed.

(** What the pattern leaves behind a match is the end of the text. *)
Lemma match_transform_suffix s f a r :
  match_transform s = Some (f, a, r) -> exists x, s = x ++ r.
Proof.
  unfold match_transform. destruct (lstrip_suffix s) as [x0 Hx0].
  destruct (match_name (lstrip s)) as [[g s1]|] eqn:Hn; [|discriminate].
  apply match_name_Some in Hn. destruct (lstrip_suffix s1) as [x1 Hx1].
  destruct (lstrip s1) as [|c s2]; [discriminate |].
  destruct (Ascii.eqb_spec c "(") as [-> | Hc];
    [|destruct c as [[] [] [] [] [] [] [] []]; try discriminate; congruence].
  pose proof (span_app not_rparen s2) as Hsp.
  destruct (span not_rparen s2) as [a' r']. simpl in Hsp.
  destruct a' as [|d a']; [discriminate |].
  destruct r' as [|e r']; [discriminate |].
  destruct (Ascii.eqb_spec e ")") as [-> | He];
    [|destruct e as [[] [] [] [] [] [] [] []]; try discriminate; congruence].
  intros [= <- <- <-].
  exists (x0 ++ func_name g ++ x1 ++ "(" ++ String d a' ++ ")").
  rewrite Hx0 at 1. rewrite Hn, Hx1, <- Hsp.
  rewrite !app_assoc_s. simpl. rewrite ?app_assoc_s. simpl.
  now rewrite ?app_assoc_s.
Qed.

Lemma match_transform_rest_closed s f a r :
  last_char s = Some ")"%char -> match_transform s = Some (f, a, r) ->
  r = "" \/ last_char r = Some ")"%char.
Proof.
  intros Hs Hm. apply match_transform_suffix in Hm as [x ->].
  destruct r as [|c r]; [now left | right].
  now rewrite last_char_app in Hs by discriminate.
Qed.

(** A match at the head of a text that ends in a closing parenthesis is
    the match at the head of the text followed by anything. *)
Lemma match_transform_closed_Some u rest f a r :
  last_char u = Some ")"%char -> match_transform u = Some (f, a, r) ->
  match_transform (u ++ rest) = Some (f, a, r ++ rest).
Proof.
  intros Hu. unfold match_transform.
  destruct (lstrip_closed u rest Hu) as [-> Hv].
  destruct (match_name (lstrip u)) as [[g v1]|] eqn:Hn; [|discriminate].
  apply match_name_Some in Hn. rewrite Hn in Hv |- *.
  apply closed_after_name in Hv.
  rewrite app_assoc_s, match_name_app.
  destruct (lstrip_closed v1 rest Hv) as [-> Hw].
  destruct (lstrip v1) as [|c w]; [discriminate |]. simpl.
  destruct (Ascii.eqb_spec c "(") as [-> | Hc];
    [|destruct c as [[] [] [] [] [] [] [] []]; try discriminate; congruence].
  destruct (closed_cons _ _ Hw) as [[_ [=]] | [_ Hw']].
  destruct (span_closed w rest Hw') as (a' & r' & -> & ->).
  simpl. destruct a'; [discriminate |]. now intros [= <- <- <-].
Qed.

(** The matches in a text that ends in a closing parenthesis, followed by
    more text, are the matches in the one and then the matches in the
    other. *)
Lemma findall_closed_app u rest :
  last_char u = Some ")"%char ->
  findall (u ++ rest) = (findall u ++ findall rest)%list.
Proof.
  remember (String.length u) as n eqn:Hn.
  assert (String.length u <= n)%nat as Hle by lia. clear Hn.
  revert u Hle. induction n as [|n IH]; intros u Hle Hu.
  - destruct u; [discriminate | simpl in Hle; lia].
  - destruct u as [|c u]; [discriminate |].
    rewrite (findall_eq (String c u ++ rest)), (findall_eq (String c u)).
    destruct (match_transform (String c u)) as [[[f a] r]|] eqn:Hm.
    + rewrite (match_transform_closed_Some _ rest _ _ _ Hu Hm).
      pose proof (match_transform_shorter _ _ _ _ Hm) as Hlen.
      destruct (match_transform_rest_closed _ _ _ _ Hu Hm) as [-> | Hr].
      * reflexivity.
      * simpl. f_equal. apply IH; [simpl in *; lia | assumption].
    + rewrite match_transform_closed by assumption. simpl.
      destruct (closed_cons _ _ Hu) as [[-> _] | [_ Hu']].
      * reflexivity.
      * apply IH; [simpl in Hle; lia | assumption].
Qed.

(** ** Points *)

Lemma matvec_matmul A B p : matvec (A @@ B) p = matvec A (matvec B p).
Proof.
  destruct A, B, p as [[x y] w]. unfold matvec, matmul. simpl.
  f_equal; [f_equal |]; ring.
Qed.

Lemma matvec_identity p : matvec identity p = p.
Proof.
  destruct p as [[x y] w]. unfold matvec, identity. simpl.
  f_equal; [f_equal |]; ring.
Qed.

Lemma matvec_mat_product Ms p :
  matvec (mat_product (rev Ms)) p = apply_in_order Ms p.
Proof.
  unfold apply_in_order. revert p. induction Ms as [|M Ms IH]; intros p; simpl.
  - apply matvec_identity.
  - now rewrite mat_product_app, mat_product_single, matvec_matmul, IH.
Qed.

Lemma matvec_affine T x y :
  affine T -> snd (matvec T (x, y, 1%R)) = 1%R.
Proof.
  intros (H0 & H1 & H2). unfold matvec. simpl. rewrite H0, H1, H2. ring.
Qed.

Section Transform_parser_more.

Variable float : string -> option R.

Local Open Scope R_scope.

Lemma compose_matches_from ms A :
  compose_matches float ms A =
  let* B := compose_matches float ms identity in Ok (B @@ A).
Proof.
  revert A. induction ms as [|m ms IH]; intros A; simpl.
  - now rewrite matmul_identity_l.
  - destruct (match_matrix float m) as [M|]; simpl; [|reflexivity].
    rewrite (IH (M @@ A)), (IH (M @@ identity)).
    destruct (compose_matches float ms identity); simpl; [|reflexivity].
    now rewrite matmul_identity_r, matmul_assoc.
Qed.

(** X1: two transform strings written one after the other, the first ending
    with the closing parenthesis of a call, parse to the product of what
    each parses to, the second on the left; a failure of the first comes
    before a failure of the second. *)
Theorem parse_transform_app (u rest : string) :
  last_char u = Some ")"%char ->
  parse_transform float (Some (u ++ rest)) =
  let* A := parse_transform float (Some u) in
  let* B := parse_transform float (Some rest) in
  Ok (B @@ A).
Proof.
  intros Hu. rewrite !parse_transform_findall, findall_closed_app by assumption.
  rewrite compose_matches_app.
  destruct (compose_matches float (findall u) identity) as [A|]; simpl;
    [|reflexivity].
  apply compose_matches_from.
Qed.

(** X2: the calls of a transform string act on a point in the order in which
    they are written, the first call first; the point stays in the plane
    of third coordinate 1. *)
Theorem parse_transform_acts_in_order (s : string) (Ms : list matrix) (T : matrix) :
  Forall2 (has_matrix float) (findall s) Ms ->
  parse_transform float (Some s) = Ok T ->
  forall x y,
    matvec T (x, y, 1) = apply_in_order Ms (x, y, 1)
    /\ snd (matvec T (x, y, 1)) = 1.
Proof.
  intros HMs HT x y. split.
  - rewrite parse_transform_findall, (compose_matches_ok float _ Ms) in HT
      by assumption.
    injection HT as <-. now rewrite matmul_identity_r, matvec_mat_product.
  - apply matvec_affine. rewrite parse_transform_findall in HT.
    exact (affine_compose_matches float _ _ _ affine_identity HT).
Qed.

(** X3: the only error of the parser is the error of [float()] on an
    argument of a matched call: in particular the first argument of a
    call is always there to be read. *)
Theorem parse_transform_error (s : string) (e : exn) :
  parse_transform float (Some s) = Raise e ->
  exists f args tok,
    In (f, args) (findall s) /\ In tok (re_split (strip args))
    /\ float tok = None /\ e = FloatError tok.
Proof.
  rewrite parse_transform_findall. generalize identity.
  induction (findall s) as [|[f args] ms IH]; intros A; simpl; [discriminate |].
  unfold match_matrix at 1. simpl.
  destruct (floats float (re_split (strip args))) as [xs|e'] eqn:Exs; simpl.
  - destruct (function_matrix_ok f xs) as [M HM].
    { apply floats_length in Exs. intros ->.
      destruct (re_split (strip args)) eqn:E; [|discriminate].
      now apply re_split_not_nil in E. }
    rewrite HM. simpl. intros H.
    destruct (IH _ H) as (f' & args' & tok & Hin & Htok & Hnone & He).
    exists f', args', tok. auto.
  - intros [= <-]. exists f, args.
    assert (exists tok, In tok (re_split (strip args)) /\ float tok = None
                        /\ e' = FloatError tok) as (tok & ? & ? & ?).
    { clear -Exs. induction (re_split (strip args)) as [|t ts IHts];
        simpl in Exs; [discriminate |].
      unfold to_float in Exs. destruct (float t) eqn:Et; simpl in Exs.
      - destruct (floats float ts); simpl in Exs; [discriminate |].
        destruct IHts as (tok & ? & ? & ?); [assumption |].
        exists tok. simpl. auto.
      - injection Exs as <-. exists t. simpl. auto. }
    exists tok. auto.
Qed.

End Transform_parser_more.

(** ** The arguments of a call *)

Lemma rstrip_spaces r : all_chars isspace r = true -> rstrip r = "".
Proof.
  induction r as [|c r IH]; [reflexivity |]. simpl.
  intros [Hc Hr]%andb_prop. now rewrite (IH Hr), Hc.
Qed.

Lemma rstrip_app_spaces b r c :
  last_char b = Some c -> isspace c = false ->
  all_chars isspace r = true -> rstrip (b ++ r) = b.
Proof.
  intros Hb Hc Hr. induction b as [|d b IH]; [discriminate |]. simpl.
  destruct b as [|d' b].
  - injection Hb as ->. simpl. now rewrite (rstrip_spaces r Hr), Hc.
  - rewrite (IH Hb). reflexivity.
Qed.

(** Stripping takes the white space off both ends of a text that begins
    and ends with other characters. *)
Lemma strip_padded lpad body rpad c :
  all_chars isspace lpad = true -> all_chars isspace rpad = true ->
  starts_with isspace body = false ->
  last_char body = Some c -> isspace c = false ->
  strip (lpad ++ body ++ rpad) = body.
Proof.
  intros Hl Hr Hstart Hlast Hc. unfold strip.
  rewrite lstrip_spaces by assumption.
  rewrite lstrip_id.
  - now apply (rstrip_app_spaces body rpad c).
  - destruct body; [discriminate | exact Hstart].
Qed.

Lemma all_chars_last P s :
  all_chars P s = true -> s <> "" -> exists c, last_char s = Some c /\ P c = true.
Proof.
  induction s as [|d s IH]; [congruence |]. simpl.
  intros [Hd Hs]%andb_prop _. destruct s as [|d' s]; [eauto |].
  apply IH; [assumption | discriminate].
Qed.

Lemma join_args_not_empty t more : t <> "" -> join_args t more <> "".
Proof.
  intros Ht. destruct t as [|c t]; [congruence |].
  destruct more as [|[sep t'] more]; discriminate.
Qed.

Lemma join_args_start t more :
  is_token t = true -> starts_with is_sep (join_args t more) = false.
Proof.
  intros (Hne & Hsep & _)%is_token_spec.
  destruct t as [|c t]; [congruence |]. simpl in Hsep.
  apply andb_prop in Hsep as [Hc _]. apply negb_true_iff in Hc.
  now destruct more as [|[sep t'] more].
Qed.

Lemma join_args_last t more :
  is_token t = true ->
  forallb (fun st => is_sep_run (fst st) && is_token (snd st)) more = true ->
  exists c, last_char (join_args t more) = Some c /\ is_sep c = false.
Proof.
  revert t. induction more as [|[sep t'] more IH]; intros t Ht Hmore; simpl.
  - apply is_token_spec in Ht as (Hne & Hsep & _).
    destruct (all_chars_last _ _ Hsep Hne) as (c & Hc & Hn).
    exists c. split; [assumption | now apply negb_true_iff].
  - simpl in Hmore. apply andb_prop in Hmore as [[_ Ht']%andb_prop Hmore].
    destruct (IH t' Ht' Hmore) as (c & Hc & Hn). exists c. split; [|assumption].
    assert (join_args t' more <> "") as Hne
      by (apply join_args_not_empty; now apply is_token_spec in Ht').
    rewrite last_char_app; [|destruct sep; simpl; [assumption | discriminate]].
    now rewrite last_char_app.
Qed.

Lemma re_split_sep_cons c s :
  is_sep c = true ->
  re_split (String c s) =
  if starts_with is_sep s then re_split s else "" :: re_split s.
Proof. intros Hc. simpl. now rewrite Hc. Qed.

Lemma re_split_sep_run sep rest :
  is_sep_run sep = true -> starts_with is_sep rest = false ->
  re_split (sep ++ rest) = "" :: re_split rest.
Proof.
  unfold is_sep_run. intros [Hne Hsep]%andb_prop Hrest.
  induction sep as [|c sep IH]; [discriminate |].
  simpl in Hsep. apply andb_prop in Hsep as [Hc Hsep].
  change (String c sep ++ rest) with (String c (sep ++ rest)).
  rewrite (re_split_sep_cons c _ Hc).
  destruct sep as [|d sep].
  - simpl. now rewrite Hrest.
  - pose proof Hsep as Hsep'. simpl in Hsep'.
    apply andb_prop in Hsep' as [Hd _].
    change (starts_with is_sep (String d sep ++ rest)) with (is_sep d).
    rewrite Hd. now apply IH.
Qed.

Lemma re_split_token_sep t sep rest :
  all_chars (fun c => negb (is_sep c)) t = true ->
  is_sep_run sep = true -> starts_with is_sep rest = false ->
  re_split (t ++ sep ++ rest) = t :: re_split rest.
Proof.
  intros Ht Hsep Hrest. induction t as [|c t IH]; simpl.
  - now apply re_split_sep_run.
  - simpl in Ht. apply andb_prop in Ht as [Hc Ht]. apply negb_true_iff in Hc.
    now rewrite Hc, (IH Ht).
Qed.

Lemma re_split_join_args t more :
  is_token t = true ->
  forallb (fun st => is_sep_run (fst st) && is_token (snd st)) more = true ->
  re_split (join_args t more) = t :: map snd more.
Proof.
  revert t. induction more as [|[sep t'] more IH]; intros t Ht Hmore; simpl.
  - apply re_split_token. now apply is_token_spec in Ht.
  - simpl in Hmore.
    apply andb_prop in Hmore as [[Hsep Ht']%andb_prop Hmore].
    rewrite re_split_token_sep; try assumption.
    + now rewrite IH.
    + now apply is_token_spec in Ht.
    + now apply join_args_start.
Qed.

(** The arguments read from an argument text are its tokens, whatever
    separates them and whatever white space surrounds them. *)
Lemma padded_args_tokens lpad t more rpad :
  args_well_formed lpad t more rpad = true ->
  re_split (strip (padded_args lpad t more rpad)) = t :: map snd more.
Proof.
  unfold args_well_formed, padded_args.
  intros [[[Hl Hr]%andb_prop Ht]%andb_prop Hmore]%andb_prop.
  destruct (join_args_last t more Ht Hmore) as (c & Hc & Hn).
  rewrite (strip_padded lpad (join_args t more) rpad c); try assumption.
  - now apply re_split_join_args.
  - pose proof (join_args_start t more Ht) as Hs.
    destruct (join_args t more) as [|d j]; [reflexivity |]. simpl in *.
    now apply is_sep_space.
  - now apply is_sep_space.
Qed.

Lemma is_sep_not_rparen c : is_sep c = true -> not_rparen c = true.
Proof.
  unfold not_rparen. destruct (Ascii.eqb_spec c ")") as [-> | _];
    [discriminate | reflexivity].
Qed.

Lemma join_args_no_rparen t more :
  is_token t = true ->
  forallb (fun st => is_sep_run (fst st) && is_token (snd st)) more = true ->
  all_chars not_rparen (join_args t more) = true.
Proof.
  revert t. induction more as [|[sep t'] more IH]; intros t Ht Hmore; simpl.
  - now apply is_token_spec in Ht.
  - simpl in Hmore.
    apply andb_prop in Hmore as [[Hsep Ht']%andb_prop Hmore].
    rewrite !all_chars_app, (IH t' Ht' Hmore), andb_true_r.
    apply andb_true_intro. split; [now apply is_token_spec in Ht |].
    unfold is_sep_run in Hsep. apply andb_prop in Hsep as [_ Hsep].
    revert Hsep. apply all_chars_impl. apply is_sep_not_rparen.
Qed.

Lemma padded_args_no_rparen lpad t more rpad :
  args_well_formed lpad t more rpad = true ->
  padded_args lpad t more rpad <> ""
  /\ all_chars not_rparen (padded_args lpad t more rpad) = true.
Proof.
  unfold args_well_formed, padded_args.
  intros [[[Hl Hr]%andb_prop Ht]%andb_prop Hmore]%andb_prop. split.
  - apply is_token_spec in Ht as (Ht & _).
    pose proof (join_args_not_empty t more Ht) as Hne.
    destruct lpad; simpl; [|discriminate].
    destruct (join_args t more); [congruence | discriminate].
  - rewrite !all_chars_app, (join_args_no_rparen t more Ht Hmore).
    assert (forall s, all_chars isspace s = true -> all_chars not_rparen s = true)
      as Hsp.
    { intros s. apply all_chars_impl. intros c Hc. apply is_sep_not_rparen.
      unfold is_sep. now rewrite Hc, orb_true_r. }
    now rewrite (Hsp _ Hl), (Hsp _ Hr).
Qed.

Section Call_arguments.

Variable float : string -> option R.

Local Open Scope R_scope.

Lemma parse_transform_call f lpad t more rpad :
  args_well_formed lpad t more rpad = true ->
  parse_transform float
    (Some (func_name f ++ "(" ++ padded_args lpad t more rpad ++ ")"))
  = let* xs := floats float (t :: map snd more) in function_matrix f xs.
Proof.
  intros Hwf. destruct (padded_args_no_rparen _ _ _ _ Hwf) as [Hne Hrp].
  rewrite parse_transform_findall, findall_single by assumption.
  simpl compose_matches. unfold match_matrix. simpl fst. simpl snd.
  rewrite padded_args_tokens by assumption.
  destruct (floats float (t :: map snd more)) as [xs|]; simpl; [|reflexivity].
  destruct (function_matrix f xs); simpl; [|reflexivity].
  now rewrite matmul_identity_r.
Qed.

(** X4: a call parses to the matrix of its function on the numbers its
    tokens read as: commas, white space and runs of both separate the
    arguments alike, and white space around the arguments does not
    count. *)
Theorem call_arguments (f : func) (lpad t : string) (more : list (string * string))
    (rpad : string) :
  args_well_formed lpad t more rpad = true ->
  parse_transform float
    (Some (func_name f ++ "(" ++ padded_args lpad t more rpad ++ ")"))
  = let* xs := floats float (t :: map snd more) in function_matrix f xs.
Proof. exact (parse_transform_call f lpad t more rpad). Qed.

(** X5: [translate] with one argument is the translation along x: the
    missing [ty] is 0. *)
Theorem translate_one_argument (lpad a rpad : string) (x : R) :
  all_chars isspace lpad = true -> all_chars isspace rpad = true ->
  is_token a = true -> float a = Some x ->
  parse_transform float (Some ("translate(" ++ lpad ++ a ++ rpad ++ ")"))
  = Ok (translation x 0)
  /\ forall px py, matvec (translation x 0) (px, py, 1) = (px + x, py, 1).
Proof.
  intros Hl Hr Ha Hx. split.
  - replace ("translate(" ++ lpad ++ a ++ rpad ++ ")")
      with (func_name Ftranslate ++ "(" ++ padded_args lpad a [] rpad ++ ")")
      by (unfold padded_args; simpl; now rewrite !app_assoc_s).
    rewrite parse_transform_call.
    + simpl. unfold to_float. now rewrite Hx.
    + unfold args_well_formed. now rewrite Hl, Hr, Ha.
  - intros px py. unfold matvec, translation. simpl.
    f_equal; [f_equal |]; ring.
Qed.

(** X6: [matrix] with six arguments [a b c d e f], however separated, sends
    the point (x, y) to (a x + c y + e, b x + d y + f). *)
Theorem matrix_six_arguments (lpad t : string) (more : list (string * string))
    (rpad : string) (a b c d e f : R) :
  args_well_formed lpad t more rpad = true ->
  floats float (t :: map snd more) = Ok [a; b; c; d; e; f] ->
  exists T,
    parse_transform float
      (Some ("matrix(" ++ padded_args lpad t more rpad ++ ")")) = Ok T
    /\ forall x y,
         matvec T (x, y, 1) = (a * x + c * y + e, b * x + d * y + f, 1).
Proof.
  intros Hwf Hxs. exists (matrix_of a b c d e f). split.
  - change ("matrix(" ++ padded_args lpad t more rpad ++ ")")
      with (func_name Fmatrix ++ "(" ++ padded_args lpad t more rpad ++ ")").
    now rewrite parse_transform_call, Hxs.
  - intros x y. unfold matvec, matrix_of. simpl.
    f_equal; [f_equal |]; ring.
Qed.

End Call_arguments.

(** * Further properties of the cumulative transform *)

Section Cumulative_transform_more.

Variable float : string -> option R.

Local Open Scope R_scope.

Lemma ancestors_transform_below_svg ancestors A :
  ancestors_transform float ancestors A
  = ancestors_transform float (below_svg ancestors) A.
Proof.
  revert A. induction ancestors as [|a above IH]; intros A; [reflexivity |].
  rewrite ancestors_transform_cons. simpl below_svg.
  destruct (String.eqb (tag a) (QName SVG_NS "svg")) eqn:E; [reflexivity |].
  rewrite ancestors_transform_cons, E.
  destruct (own_transform float a); simpl; [apply IH | reflexivity].
Qed.

Lemma below_svg_tags ancestors :
  Forall (fun a => String.eqb (tag a) (QName SVG_NS "svg") = false)
         (below_svg ancestors).
Proof.
  induction ancestors as [|a above IH]; simpl; [constructor |].
  destruct (String.eqb (tag a) (QName SVG_NS "svg")) eqn:E; constructor;
    assumption.
Qed.

Lemma get_cumulative_transform_cut ancestors e :
  get_cumulative_transform float ancestors e
  = get_cumulative_transform float (below_svg ancestors) e.
Proof.
  rewrite !get_cumulative_transform_eq.
  now rewrite ancestors_transform_below_svg.
Qed.

Lemma get_cumulative_transform_above_svg inner svg svg' above above' e :
  String.eqb (tag svg) (QName SVG_NS "svg") = true ->
  String.eqb (tag svg') (QName SVG_NS "svg") = true ->
  get_cumulative_transform float (inner ++ svg :: above) e
  = get_cumulative_transform float (inner ++ svg' :: above') e.
Proof.
  intros Hsvg Hsvg'.
  rewrite (get_cumulative_transform_cut (inner ++ svg :: above)%list),
    (get_cumulative_transform_cut (inner ++ svg' :: above')%list).
  f_equal. induction inner as [|a inner IH]; simpl.
  - now rewrite Hsvg, Hsvg'.
  - now rewrite IH.
Qed.

(** X7: the cumulative transform reads the ancestors below the nearest [svg]
    ancestor only: the [svg] element's own transform and everything above
    it, well formed or not, play no part. *)
Theorem get_cumulative_transform_below_svg (ancestors : list element) (e : element) :
  get_cumulative_transform float ancestors e
  = get_cumulative_transform float (below_svg ancestors) e
  /\ forall inner svg svg' above above',
       String.eqb (tag svg) (QName SVG_NS "svg") = true ->
       String.eqb (tag svg') (QName SVG_NS "svg") = true ->
       get_cumulative_transform float (inner ++ svg :: above) e
       = get_cumulative_transform float (inner ++ svg' :: above') e.
Proof.
  split; [apply get_cumulative_transform_cut |].
  intros inner svg svg' above above'. apply get_cumulative_transform_above_svg.
Qed.

Lemma ancestors_transform_all_ok ancestors As A :
  Forall2 (fun a M => own_transform float a = Ok M) (below_svg ancestors) As ->
  ancestors_transform float ancestors A = Ok (mat_product (rev As) @@ A).
Proof.
  intros H. rewrite ancestors_transform_below_svg.
  rewrite <- (app_nil_r (below_svg ancestors)).
  apply ancestors_transform_walk; [|exact I].
  pose proof (below_svg_tags ancestors) as Htags.
  induction H as [|a M l As Ha _ IH]; constructor.
  - split; [now inversion Htags | assumption].
  - apply IH. now inversion Htags.
Qed.

(** X8: the cumulative transform acts on a point as the element's own
    transform first, then the transforms of its ancestors from the parent
    outwards, up to the nearest [svg] ancestor. *)
Theorem get_cumulative_transform_acts_outwards
    (ancestors : list element) (e : element) (As : list matrix) (E : matrix) :
  Forall2 (fun a M => own_transform float a = Ok M) (below_svg ancestors) As ->
  own_transform float e = Ok E ->
  get_cumulative_transform float ancestors e = Ok (mat_product (rev (E :: As)))
  /\ forall p, matvec (mat_product (rev (E :: As))) p = apply_in_order (E :: As) p.
Proof.
  intros HAs HE. split; [|intros p; apply matvec_mat_product].
  rewrite get_cumulative_transform_eq.
  rewrite (ancestors_transform_all_ok ancestors As identity HAs), HE. simpl.
  now rewrite matmul_identity_r, mat_product_app, mat_product_single.
Qed.

Lemma ancestors_transform_raises_iff ancestors A :
  raises (ancestors_transform float ancestors A)
  <-> exists a, In a (below_svg ancestors) /\ raises (own_transform float a).
Proof.
  revert A. induction ancestors as [|a above IH]; intros A.
  - simpl. split; [intros [e [=]] | intros (_ & [] & _)].
  - rewrite ancestors_transform_cons. simpl below_svg.
    destruct (String.eqb (tag a) (QName SVG_NS "svg")).
    + split; [intros [e [=]] | intros (_ & [] & _)].
    + destruct (own_transform float a) as [M|e] eqn:E; simpl.
      * rewrite IH. split.
        -- intros (a' & Hin & Hr). eauto.
        -- intros (a' & [<- | Hin] & Hr); [|eauto].
           rewrite E in Hr. destruct Hr as [? [=]].
      * split; [|intros _; eexists; reflexivity].
        intros _. exists a. split; [now left |]. rewrite E.
        eexists; reflexivity.
Qed.

(** X9: the cumulative transform fails exactly when the transform of the
    element, or of an ancestor below the nearest [svg] ancestor, fails to
    parse. *)
Theorem get_cumulative_transform_raises_iff (ancestors : list element) (e : element) :
  raises (get_cumulative_transform float ancestors e)
  <-> (exists a, In a (below_svg ancestors) /\ raises (own_transform float a))
      \/ raises (own_transform float e).
Proof.
  rewrite <- ancestors_transform_raises_iff with (A := identity).
  rewrite get_cumulative_transform_eq.
  destruct (ancestors_transform float ancestors identity) as [A|ea]; simpl.
  - destruct (own_transform float e) as [E|ee]; simpl.
    + split; [intros [x [=]] | intros [[x [=]] | [x [=]]]].
    + split; [intros _; right | intros _]; eexists; reflexivity.
  - split; [intros _; left | intros _]; eexists; reflexivity.
Qed.

End Cumulative_transform_more.

(** * Further properties of the label extractor *)

Lemma lstrip_start s : starts_with isspace (lstrip s) = false.
Proof.
  induction s as [|c s IH]; [reflexivity |]. simpl.
  destruct (isspace c) eqn:E; [assumption | simpl; assumption].
Qed.

Lemma rstrip_start s :
  starts_with isspace s = false -> starts_with isspace (rstrip s) = false.
Proof.
  destruct s as [|c s]; [reflexivity |]. simpl. intros Hc.
  destruct (rstrip s); [now rewrite Hc | exact Hc].
Qed.

Lemma rstrip_idempotent s : rstrip (rstrip s) = rstrip s.
Proof.
  induction s as [|c s IH]; [reflexivity |]. simpl.
  destruct (rstrip s) as [|d r] eqn:E.
  - destruct (isspace c) eqn:Hc; [reflexivity |]. simpl. now rewrite Hc.
  - change (rstrip (String c (String d r)))
      with (match rstrip (String d r) with
            | "" => if isspace c then "" else String c ""
            | r' => String c r'
            end).
    now rewrite IH.
Qed.

Lemma rstrip_last s :
  rstrip s <> "" -> exists c, last_char (rstrip s) = Some c /\ isspace c = false.
Proof.
  induction s as [|c s IH]; [simpl; congruence |]. simpl.
  destruct (rstrip s) as [|d r] eqn:E.
  - destruct (isspace c) eqn:Hc; [congruence |]. intros _. now exists c.
  - intros _. destruct IH as (c' & Hc' & Hsp); [discriminate |].
    now exists c'.
Qed.

(** Stripping twice is stripping once; what is left, if anything, begins
    and ends with a character that is no white space. *)
Lemma strip_idempotent s : strip (strip s) = strip s.
Proof.
  unfold strip. rewrite (lstrip_id (rstrip (lstrip s))).
  - apply rstrip_idempotent.
  - apply rstrip_start, lstrip_start.
Qed.

Lemma strip_ends s :
  strip s <> "" ->
  starts_with isspace (strip s) = false
  /\ exists c, last_char (strip s) = Some c /\ isspace c = false.
Proof.
  intros Hne. split.
  - apply rstrip_start, lstrip_start.
  - now apply rstrip_last.
Qed.

Section Labels_more.

Variable float : string -> option R.

Local Open Scope R_scope.

Lemma labelled_nonblank n l :
  labelled float n l ->
  nonblank n = true /\ content l = strip (itertext (node_element n)).
Proof.
  unfold labelled, nonblank. rewrite extract_label_eq. cbv zeta.
  destruct (to_float float _); simpl; [|discriminate].
  destruct (to_float float _); simpl; [|discriminate].
  destruct (font_size_px_of float _); simpl; [|discriminate].
  destruct (strip (itertext (node_element n))) eqn:E; [discriminate |].
  destruct (get_cumulative_transform float _ _); simpl; [|discriminate].
  intros [= <-]. simpl. auto.
Qed.

Lemma skipped_blank n :
  extract_label float n = Ok None -> nonblank n = false.
Proof.
  unfold nonblank. rewrite extract_label_eq. cbv zeta.
  destruct (to_float float _); simpl; [|discriminate].
  destruct (to_float float _); simpl; [|discriminate].
  destruct (font_size_px_of float _); simpl; [|discriminate].
  destruct (strip (itertext (node_element n))) eqn:E; [reflexivity |].
  destruct (get_cumulative_transform float _ _); simpl; discriminate.
Qed.

(** The loop appends, to the labels and to the marks it starts from, the
    labels and the paths of the nodes whose text is not blank, in the
    order of the nodes. *)
Lemma extract_labels_spec nodes ls rm ls' rm' :
  extract_labels float nodes ls rm = Ok (ls', rm') ->
  exists new,
    Forall2 (labelled float) (List.filter nonblank nodes) new
    /\ ls' = (ls ++ new)%list
    /\ rm' = (rm ++ map node_path (List.filter nonblank nodes))%list.
Proof.
  revert ls rm. induction nodes as [|n nodes IH]; intros ls rm; simpl.
  - intros [= <- <-]. exists []. rewrite !app_nil_r. repeat constructor.
  - destruct (extract_label float n) as [[l|]|] eqn:E; simpl; [| |discriminate].
    + intros H. destruct (IH _ _ H) as (new & Hnew & -> & ->).
      destruct (labelled_nonblank n l E) as [Hnb _]. rewrite Hnb.
      exists (l :: new). simpl. rewrite <- !app_assoc. simpl.
      split; [constructor; assumption | auto].
    + intros H. rewrite (skipped_blank n E). now apply IH.
Qed.

(** What a run that succeeds has computed. *)
Lemma process_svg_inv root conv :
  process_svg float root = Ok conv ->
  parse_svg_dimensions float root = Ok (width_pt conv, height_pt conv)
  /\ extract_labels float (xpath_text [] [] root) [] []
     = Ok (labels conv, text_nodes_to_remove conv)
  /\ ~ In [] (text_nodes_to_remove conv)
  /\ clean_svg conv = remove_nodes (text_nodes_to_remove conv) [] root.
Proof.
  unfold process_svg.
  destruct (parse_svg_dimensions float root) as [[w h]|]; simpl; [|discriminate].
  destruct (extract_labels float (xpath_text [] [] root) [] [])
    as [[ls rm]|]; simpl; [|discriminate].
  destruct (bool_decide ([] ∈ rm)) eqn:E; [discriminate |].
  intros [= <-]. simpl. repeat split.
  apply bool_decide_eq_false in E. now rewrite <- list_elem_of_In.
Qed.

Lemma process_svg_labels root conv :
  process_svg float root = Ok conv ->
  Forall2 (labelled float)
    (List.filter nonblank (xpath_text [] [] root)) (labels conv)
  /\ text_nodes_to_remove conv
     = map node_path (List.filter nonblank (xpath_text [] [] root)).
Proof.
  intros Hrun. destruct (process_svg_inv root conv Hrun) as (_ & E & _ & _).
  destruct (extract_labels_spec _ _ _ _ _ E) as (new & Hnew & -> & ->).
  split; [assumption | reflexivity].
Qed.

(** X10: in a run that succeeds, the labels are the labels of the text
    elements whose text is not blank, one each and in document order, and
    the elements marked for removal are these same elements. *)
Theorem labels_in_document_order (root : element) (conv : conversion) :
  process_svg float root = Ok conv ->
  Forall2 (labelled float)
    (List.filter nonblank (xpath_text [] [] root)) (labels conv)
  /\ text_nodes_to_remove conv
     = map node_path (List.filter nonblank (xpath_text [] [] root))
  /\ length (labels conv) = length (text_nodes_to_remove conv).
Proof.
  intros Hrun. destruct (process_svg_labels root conv Hrun) as [Hlab Hrm].
  split; [assumption |]. split; [assumption |].
  rewrite Hrm, length_map. symmetry. exact (Forall2_length _ _ _ Hlab).
Qed.

(** X11: the content of a label is never empty and carries no white space
    at either end. *)
Theorem label_content_stripped (root : element) (conv : conversion) (l : label) :
  process_svg float root = Ok conv -> In l (labels conv) ->
  content l <> ""
  /\ strip (content l) = content l
  /\ starts_with isspace (content l) = false
  /\ exists c, last_char (content l) = Some c /\ isspace c = false.
Proof.
  intros Hrun Hl.
  destruct (process_svg_labels root conv Hrun) as [Hlab _].
  assert (exists n, labelled float n l) as [n Hn].
  { clear -Hlab Hl. induction Hlab as [|n l' ns ls Hnl _ IH]; [destruct Hl |].
    destruct Hl as [<- | Hl]; eauto. }
  destruct (labelled_nonblank n l Hn) as [Hnb ->].
  unfold nonblank in Hnb. apply negb_true_iff, String.eqb_neq in Hnb.
  split; [assumption |]. split; [apply strip_idempotent |].
  now apply strip_ends.
Qed.

(** X12: the run fails with the error of the first text element, in
    document order, at which the loop fails, once the dimensions are
    resolved. *)
Theorem first_failing_text_element (root : element) (before after : list node)
    (n : node) (e : exn) :
  xpath_text [] [] root = (before ++ n :: after)%list ->
  Forall (fun m => exists r, extract_label float m = Ok r) before ->
  extract_label float n = Raise e ->
  (exists d, parse_svg_dimensions float root = Ok d) ->
  process_svg float root = Raise e.
Proof.
  intros Hnodes Hbefore Hn [[w h] Hd]. unfold process_svg.
  rewrite Hd, Hnodes. simpl bind. clear Hnodes.
  assert (forall ls rm,
            extract_labels float (before ++ n :: after) ls rm = Raise e) as H.
  { induction Hbefore as [|m before [r Hm] _ IH]; intros ls rm; simpl.
    - now rewrite Hn.
    - rewrite Hm. simpl bind. destruct r; apply IH. }
  now rewrite H.
Qed.

(** X13: under a cumulative transform that maps horizontal lines to
    horizontal lines (a scaling, a translation, a product of these) the
    font size is multiplied by the absolute value of the vertical factor,
    whatever the horizontal one; the factor 72/96 converts it to points. *)
Theorem font_size_under_scaling (n : node) (l : label) (s : R) (T : matrix) :
  labelled float n l ->
  font_size_px_of float (get_or (node_element n) "style" "") = Ok s ->
  get_cumulative_transform float (node_ancestors n) (node_element n) = Ok T ->
  m10 T = 0 ->
  font_size_pt l = s * Rabs (m11 T) * (72 / 96).
Proof.
  unfold labelled. rewrite extract_label_eq. cbv zeta. intros Hl Hs HT H10.
  rewrite Hs, HT in Hl.
  destruct (to_float float _); simpl in Hl; [|discriminate].
  destruct (to_float float _); simpl in Hl; [|discriminate].
  destruct (strip (itertext (node_element n))); [discriminate |].
  simpl in Hl. injection Hl as <-.
  simpl. unfold PX_TO_PT. rewrite H10.
  replace (0 * (0 * 1) + m11 T * (m11 T * 1)) with (Rsqr (m11 T))
    by (unfold Rsqr; ring).
  now rewrite sqrt_Rsqr_abs.
Qed.

End Labels_more.

(** * Further properties of the cleaned tree *)

Lemma in_remove_children_inv to_remove path i cs c' :
  In c' (remove_children to_remove path i cs) ->
  exists k c, nth_error cs k = Some c
              /\ ~ In (path ++ [(i + k)%nat])%list to_remove
              /\ c' = remove_nodes to_remove (path ++ [(i + k)%nat])%list c.
Proof.
  revert i. induction cs as [|c cs IH]; intros i; simpl; [intros [] |].
  destruct (bool_decide ((path ++ [i])%list ∈ to_remove)) eqn:E.
  - intros H. destruct (IH _ H) as (k & c0 & Hk & Hfree & ->).
    exists (S k), c0. now rewrite Nat.add_succ_r.
  - intros [<- | H].
    + exists 0%nat, c. rewrite Nat.add_0_r. split; [reflexivity |].
      split; [|reflexivity]. apply bool_decide_eq_false in E.
      now rewrite <- list_elem_of_In.
    + destruct (IH _ H) as (k & c0 & Hk & Hfree & ->).
      exists (S k), c0. now rewrite Nat.add_succ_r.
Qed.

(** A text element of the cleaned tree is what is left of a text element
    of the tree that was not marked, or of the root. *)
Lemma xpath_text_remove_nodes to_remove e :
  forall ancestors path ancestors' path' n',
    In n' (xpath_text ancestors' path' (remove_nodes to_remove path e)) ->
    exists n q,
      In n (xpath_text ancestors path e)
      /\ node_path n = (path ++ q)%list
      /\ (q <> [] -> ~ In (path ++ q)%list to_remove)
      /\ node_element n'
         = remove_nodes to_remove (node_path n) (node_element n).
Proof.
  induction e as [t a x cs tl IH] using element_children_ind.
  intros ancestors path ancestors' path' n' H.
  rewrite remove_nodes_eq, xpath_text_eq, in_app_iff in H. simpl in H.
  destruct H as [H | H].
  - destruct (String.eqb t (QName SVG_NS "text")) eqn:Et; [|destruct H].
    destruct H as [<- | []].
    exists (Node path ancestors (Element t a x cs tl)), [].
    rewrite xpath_text_eq, in_app_iff. simpl tag. rewrite Et, app_nil_r.
    split; [left; now left |]. split; [reflexivity |].
    split; [congruence |]. simpl node_element. simpl node_path.
    now rewrite (remove_nodes_eq to_remove path).
  - apply in_xpath_children in H as (k' & c' & Hk' & H).
    apply nth_error_In in Hk'.
    apply in_remove_children_inv in Hk' as (k & c & Hk & Hfree & ->).
    rewrite List.Forall_forall in IH.
    destruct (IH c (nth_error_In _ _ Hk)
                (Element t a x cs tl :: ancestors) (path ++ [(0 + k)%nat])%list _ _ _ H)
      as (n & q & Hn & Hq & Hq' & Hel).
    exists n, ((0 + k)%nat :: q). repeat split.
    + rewrite xpath_text_eq, in_app_iff. right. simpl.
      apply in_xpath_children. eauto.
    + now rewrite Hq, <- app_assoc.
    + intros _. destruct q as [|j q].
      * now rewrite app_nil_r in *.
      * replace (path ++ (0 + k)%nat :: j :: q)%list
          with ((path ++ [(0 + k)%nat]) ++ j :: q)%list
          by now rewrite <- app_assoc.
        now apply Hq'.
    + assumption.
Qed.

Section Clean_more.

Variable float : string -> option R.

(** In a run that succeeds nothing is marked in a text element whose text
    is blank, nor below it. *)
Lemma blank_subtree_unmarked root conv n :
  process_svg float root = Ok conv -> In n (xpath_text [] [] root) ->
  nonblank n = false ->
  forall q, ~ In (node_path n ++ q)%list (text_nodes_to_remove conv).
Proof.
  intros Hrun Hn Hblank q Hin.
  apply (process_svg_inv float) in Hrun as (_ & E & _ & _).
  unfold nonblank in Hblank. apply negb_false_iff, String.eqb_eq in Hblank.
  destruct (extract_labels_marks float _ _ _ _ _ E _ Hin)
    as [[] | (n' & l & Hn' & Hp & Hl)].
  apply (extract_label_empty float n') with (l := l); [|exact Hl].
  apply strip_empty_iff.
  apply (itertext_inside n' (node_ancestors n) (node_path n) (node_element n)).
  - exact (xpath_text_inside n n' [] [] root q Hn Hn' Hp).
  - now apply strip_empty_iff.
Qed.

Lemma parse_svg_dimensions_attrib root root' :
  attrib root' = attrib root ->
  parse_svg_dimensions float root' = parse_svg_dimensions float root.
Proof. intros H. unfold parse_svg_dimensions, get. now rewrite H. Qed.

Lemma extract_label_skip_again n n' :
  extract_label float n = Ok None -> node_element n' = node_element n ->
  extract_label float n' = Ok None.
Proof.
  rewrite !extract_label_eq. cbv zeta. intros H ->.
  destruct (to_float float _); simpl in *; [|discriminate].
  destruct (to_float float _); simpl in *; [|discriminate].
  destruct (font_size_px_of float _); simpl in *; [|discriminate].
  destruct (strip (itertext (node_element n))); [reflexivity |].
  destruct (get_cumulative_transform float _ _); discriminate.
Qed.

Lemma extract_labels_all_skipped nodes ls rm :
  Forall (fun n => extract_label float n = Ok None) nodes ->
  extract_labels float nodes ls rm = Ok (ls, rm).
Proof.
  induction 1 as [|n nodes Hn _ IH]; simpl; [reflexivity |].
  now rewrite Hn.
Qed.

(** X14: in a run that succeeds, every text element left in the cleaned tree
    has blank text, and a run on the cleaned tree succeeds with the same
    dimensions, no label, nothing to remove, and the same tree. *)
Theorem cleaned_tree_is_a_fixed_point (root : element) (conv : conversion) :
  process_svg float root = Ok conv ->
  (forall ancestors path n,
     In n (xpath_text ancestors path (clean_svg conv)) -> nonblank n = false)
  /\ process_svg float (clean_svg conv)
     = Ok (Conversion (width_pt conv) (height_pt conv) [] [] (clean_svg conv)).
Proof.
  intros Hrun.
  destruct (process_svg_inv float root conv Hrun) as (Hd & E & Hroot & Hclean).
  destruct (process_svg_labels float root conv Hrun) as (_ & Hrm).
  assert (forall ancestors path n',
            In n' (xpath_text ancestors path (clean_svg conv)) ->
            exists n, In n (xpath_text [] [] root)
                      /\ nonblank n = false
                      /\ node_element n' = node_element n) as Hfrom.
  { intros ancestors path n' Hn'. rewrite Hclean in Hn'.
    destruct (xpath_text_remove_nodes _ root [] [] _ _ _ Hn')
      as (n & q & Hn & Hq & Hfree & Hel). simpl in Hq. subst q.
    assert (~ In (node_path n) (text_nodes_to_remove conv)) as Hunmarked.
    { destruct (node_path n) eqn:Ep; [assumption | apply Hfree; discriminate]. }
    assert (nonblank n = false) as Hblank.
    { destruct (nonblank n) eqn:Enb; [|reflexivity].
      exfalso. apply Hunmarked. rewrite Hrm. apply in_map.
      apply filter_In. auto. }
    exists n. split; [assumption |]. split; [assumption |].
    rewrite Hel. apply remove_nodes_id. intros q' _.
    now apply (blank_subtree_unmarked root conv n). }
  split.
  - intros ancestors path n' Hn'.
    destruct (Hfrom _ _ _ Hn') as (n & _ & Hblank & Hel).
    unfold nonblank in *. now rewrite Hel.
  - unfold process_svg.
    rewrite (parse_svg_dimensions_attrib root (clean_svg conv))
      by (rewrite Hclean, remove_nodes_eq; reflexivity).
    rewrite Hd.
    simpl bind. rewrite extract_labels_all_skipped.
    + simpl. rewrite remove_nodes_id; [reflexivity | now intros q _ []].
    + apply List.Forall_forall. intros n' Hn'.
      destruct (Hfrom _ _ _ Hn') as (n & Hn & Hblank & Hel).
      apply (extract_label_skip_again n n'); [|assumption].
      destruct (extract_labels_all_ok float _ _ _ _ _ E n Hn) as [[l|] Hr];
        [|exact Hr].
      apply (labelled_nonblank float) in Hr as [Hnb _]. congruence.
Qed.

(** X15: a tree without a text element of other than blank text comes out of
    a run that succeeds as it went in, with no label. *)
Theorem no_text_no_change (root : element) (conv : conversion) :
  process_svg float root = Ok conv ->
  Forall (fun n => nonblank n = false) (xpath_text [] [] root) ->
  labels conv = [] /\ text_nodes_to_remove conv = [] /\ clean_svg conv = root.
Proof.
  intros Hrun Hblank.
  assert (List.filter nonblank (xpath_text [] [] root) = []) as Hnone.
  { induction Hblank as [|n ns Hn _ IH]; simpl; [reflexivity |].
    now rewrite Hn. }
  destruct (process_svg_inv float root conv Hrun) as (_ & _ & _ & Hclean).
  destruct (process_svg_labels float root conv Hrun) as (Hlab & Hrm).
  rewrite Hnone in *. simpl in Hrm. inversion Hlab. subst.
  split; [reflexivity |]. split; [assumption |].
  rewrite Hclean, Hrm. apply remove_nodes_id. now intros q _ [].
Qed.

End Clean_more.

(** * What the cleaning keeps *)

Lemma xpath_text_length e :
  forall ancestors path ancestors' path',
    length (xpath_text ancestors path e)
    = length (xpath_text ancestors' path' e).
Proof.
  induction e as [t a x cs tl IH] using element_children_ind.
  intros ancestors path ancestors' path'.
  rewrite (xpath_text_eq ancestors), (xpath_text_eq ancestors'), !length_app.
  f_equal; [now destruct (String.eqb _ _) |]. simpl children.
  generalize (Element t a x cs tl :: ancestors)
             (Element t a x cs tl :: ancestors') 0%nat.
  induction IH as [|c cs Hc _ IHcs]; intros up up' i; simpl; [reflexivity |].
  rewrite !length_app. f_equal; [apply Hc | apply IHcs].
Qed.

Lemma xpath_text_none e ancestors path ancestors' path' :
  xpath_text ancestors path e = [] -> xpath_text ancestors' path' e = [].
Proof.
  intros H. apply length_zero_iff_nil.
  rewrite (xpath_text_length e ancestors' path' ancestors path), H.
  reflexivity.
Qed.

(** A text element found below the place [q] of the tree is a text
    element of the subtree at [q]. *)
Lemma xpath_text_subtree n q :
  forall e d ancestors path q',
    subtree e q = Some d ->
    In n (xpath_text ancestors path e) ->
    node_path n = (path ++ q ++ q')%list ->
    exists ancestors', In n (xpath_text ancestors' (path ++ q)%list d).
Proof.
  induction q as [|i q IH]; intros e d ancestors path q' Hd Hn Hp; simpl in Hd.
  - injection Hd as <-. exists ancestors. now rewrite app_nil_r.
  - destruct (nth_error (children e) i) as [c|] eqn:Ec; [|discriminate].
    rewrite xpath_text_eq, in_app_iff in Hn. destruct Hn as [Hn | Hn].
    + destruct (String.eqb _ _); [|destruct Hn]. destruct Hn as [<- | []].
      simpl in Hp. apply (f_equal (@length nat)) in Hp.
      rewrite length_app in Hp. simpl in Hp. lia.
    + apply in_xpath_children in Hn as (k & c' & Hk & Hn).
      destruct (xpath_text_path _ _ _ _ Hn) as [q1 Hq1].
      assert (k = i) as ->.
      { rewrite Hp, <- app_assoc in Hq1. apply app_inv_head in Hq1.
        simpl in Hq1. now injection Hq1. }
      rewrite Ec in Hk. injection Hk as <-.
      replace (path ++ i :: q)%list with ((path ++ [i]) ++ q)%list
        by now rewrite <- app_assoc.
      apply (IH c d (e :: ancestors) _ q' Hd Hn).
      now rewrite Hp, <- app_assoc.
Qed.

(** The subtree at a place no part of whose path is marked is in the
    cleaned tree, cleaned. *)
Lemma remove_nodes_subtree to_remove q :
  forall e d path,
    subtree e q = Some d ->
    (forall q1 q2, q = (q1 ++ q2)%list -> q1 <> [] ->
                   ~ In (path ++ q1)%list to_remove) ->
    occurs (remove_nodes to_remove (path ++ q)%list d)
           (remove_nodes to_remove path e).
Proof.
  induction q as [|i q IH]; intros e d path Hd Hfree; simpl in Hd.
  - injection Hd as <-. rewrite app_nil_r. constructor.
  - destruct (nth_error (children e) i) as [c|] eqn:Ec; [|discriminate].
    rewrite (remove_nodes_eq to_remove path e).
    apply occurs_below with (c := remove_nodes to_remove (path ++ [i])%list c).
    + simpl children.
      apply (in_remove_children to_remove path 0 (children e) i c Ec).
      apply (Hfree [i] q); [reflexivity | discriminate].
    + replace (path ++ i :: q)%list with ((path ++ [i]) ++ q)%list
        by now rewrite <- app_assoc.
      apply IH; [assumption |].
      intros q1 q2 -> Hq1. rewrite <- app_assoc.
      apply (Hfree (i :: q1) q2); [reflexivity | discriminate].
Qed.

Section Graphics_more.

Variable float : string -> option R.

(** X16: in a run that succeeds, an element that holds no text element
    and lies in no text element of other than blank text is an element of
    the cleaned tree, as it was. *)
Theorem graphics_are_kept (root : element) (conv : conversion)
    (q : list nat) (d : element) :
  process_svg float root = Ok conv ->
  subtree root q = Some d ->
  xpath_text [] [] d = [] ->
  (forall n q', In n (xpath_text [] [] root) -> nonblank n = true ->
                q <> (node_path n ++ q')%list) ->
  occurs d (clean_svg conv).
Proof.
  intros Hrun Hd Hnone Houtside.
  destruct (process_svg_inv float root conv Hrun) as (_ & _ & _ & ->).
  destruct (process_svg_labels float root conv Hrun) as [_ Hrm].
  assert (forall p, In p (text_nodes_to_remove conv) ->
                    exists n, In n (xpath_text [] [] root)
                              /\ nonblank n = true /\ node_path n = p) as Hmarked.
  { intros p Hp. rewrite Hrm in Hp. apply in_map_iff in Hp as (n & <- & Hn).
    apply filter_In in Hn as [Hn Hnb]. eauto. }
  rewrite <- (remove_nodes_id (text_nodes_to_remove conv) q d).
  - apply (remove_nodes_subtree _ q root d [] Hd).
    intros q1 q2 Hq _ Hin. simpl in Hin.
    destruct (Hmarked _ Hin) as (n & Hn & Hnb & Hp).
    apply (Houtside n q2 Hn Hnb). now rewrite Hp.
  - intros q' _ Hin.
    destruct (Hmarked _ Hin) as (n & Hn & _ & Hp).
    destruct (xpath_text_subtree n q root d [] [] q' Hd Hn Hp) as [up Hup].
    simpl in Hup. now rewrite (xpath_text_none d [] [] up q Hnone) in Hup.
Qed.

End Graphics_more.

(** * Further properties of the dimensions *)

Section Viewbox_more.

Variable float : string -> option R.

Local Open Scope R_scope.

Lemma floats_error toks e :
  floats float toks = Raise e ->
  exists tok, In tok toks /\ float tok = None /\ e = FloatError tok.
Proof.
  induction toks as [|t toks IH]; simpl; [discriminate |].
  unfold to_float. destruct (float t) eqn:Et; simpl.
  - destruct (floats float toks); simpl; [discriminate |].
    intros [= <-]. destruct IH as (tok & ? & ? & ?); [reflexivity |].
    exists tok. auto.
  - intros [= <-]. exists t. auto.
Qed.

Lemma unpack_viewbox_ok toks w h :
  unpack_viewbox float toks = Ok (w, h) <->
  exists t1 t2 t3 t4 x y,
    toks = [t1; t2; t3; t4]
    /\ float t1 = Some x /\ float t2 = Some y
    /\ float t3 = Some w /\ float t4 = Some h.
Proof.
  split.
  - destruct toks as [|t1 [|t2 [|t3 [|t4 more]]]]; simpl; unfold to_float;
      repeat match goal with
             | |- context [float ?t] => destruct (float t) eqn:?; simpl
             end; try discriminate.
    destruct more as [|t5 more]; simpl.
    + intros [= <- <-]. repeat eexists; eassumption.
    + destruct (float t5); discriminate.
  - intros (t1 & t2 & t3 & t4 & x & y & -> & H1 & H2 & H3 & H4).
    simpl. unfold to_float. now rewrite H1, H2, H3, H4.
Qed.

Lemma unpack_viewbox_error toks e :
  unpack_viewbox float toks = Raise e ->
  e = UnpackError
  \/ exists tok, In tok toks /\ float tok = None /\ e = FloatError tok.
Proof.
  assert (forall t (k : R -> result (R * R)),
             (forall x, float t = Some x -> k x = Raise e ->
                e = UnpackError
                \/ exists tok, In tok toks /\ float tok = None
                               /\ e = FloatError tok) ->
             In t toks ->
             (let* x := to_float float t in k x) = Raise e ->
             e = UnpackError
             \/ exists tok, In tok toks /\ float tok = None
                            /\ e = FloatError tok) as Hstep.
  { intros t k Hk Hin. unfold to_float. destruct (float t) eqn:Et; simpl.
    - now apply Hk.
    - intros [= <-]. right. exists t. auto. }
  assert (forall short,
             (let* _ := floats float short in Raise UnpackError)
             = (Raise e : result (R * R)) ->
             e = UnpackError
             \/ exists tok, In tok short /\ float tok = None
                            /\ e = FloatError tok) as Hshort.
  { intros short. destruct (floats float short) eqn:E; simpl.
    - intros [= <-]. now left.
    - intros [= <-]. right. now apply floats_error. }
  destruct toks as [|t1 [|t2 [|t3 [|t4 more]]]];
    [apply Hshort | apply Hshort | apply Hshort | apply Hshort |].
  - unfold unpack_viewbox.
    apply Hstep; [|now left]. intros x _.
    apply Hstep; [|right; now left]. intros y _.
    apply Hstep; [|right; right; now left]. intros w _.
    apply Hstep; [|right; right; right; now left]. intros h _.
    destruct more as [|t5 more]; [discriminate |].
    apply Hstep; [|right; right; right; right; now left].
    intros z _ [= <-]. now left.
Qed.

(** X17: without both a width and a height, the dimensions are read from
    the viewBox exactly when it is four tokens separated by white space
    that [float()] all accepts, the first two included though they are
    not used; otherwise the error is that of the first token rejected, or
    that of the wrong number of values. *)
Theorem viewbox_fallback (root : element) (viewBox : string) :
  present (get root "width") && present (get root "height") = false ->
  get root "viewBox" = Some viewBox ->
  (forall W H,
     parse_svg_dimensions float root = Ok (W, H) <->
     exists t1 t2 t3 t4 x y w h,
       split_ws viewBox = [t1; t2; t3; t4]
       /\ float t1 = Some x /\ float t2 = Some y
       /\ float t3 = Some w /\ float t4 = Some h
       /\ W = w * (72 / 96) /\ H = h * (72 / 96))
  /\ (forall e,
        parse_svg_dimensions float root = Raise e ->
        e = UnpackError
        \/ exists tok, In tok (split_ws viewBox) /\ float tok = None
                       /\ e = FloatError tok).
Proof.
  intros Habsent Hvb. rewrite parse_svg_dimensions_fallback, Hvb by assumption.
  split.
  - intros W H. split.
    + destruct (unpack_viewbox float (split_ws viewBox)) as [[w h]|] eqn:E;
        simpl; [|discriminate].
      intros [= <- <-]. apply unpack_viewbox_ok in E
        as (t1 & t2 & t3 & t4 & x & y & ? & ? & ? & ? & ?).
      exists t1, t2, t3, t4, x, y, w, h. unfold PX_TO_PT. auto 10.
    + intros (t1 & t2 & t3 & t4 & x & y & w & h & Ht & H1 & H2 & H3 & H4
              & -> & ->).
      rewrite (proj2 (unpack_viewbox_ok (split_ws viewBox) w h)); [reflexivity |].
      exists t1, t2, t3, t4, x, y. auto.
  - intros e. destruct (unpack_viewbox float (split_ws viewBox)) as [[w h]|] eqn:E;
      simpl; [discriminate |].
    intros [= <-]. now apply unpack_viewbox_error.
Qed.

End Viewbox_more.

(** * The text of the labels and the paths of the files *)

Lemma content_escaped_cons c s :
  content_escaped (String c s) =
  if Ascii.eqb c backslash
  then String backslash (String backslash (content_escaped s))
  else if Ascii.eqb c double_quote
       then String backslash (String double_quote (content_escaped s))
       else String c (content_escaped s).
Proof.
  unfold content_escaped. simpl.
  destruct (Ascii.eqb c backslash) eqn:Eb.
  - reflexivity.
  - simpl. destruct (Ascii.eqb c double_quote); reflexivity.
Qed.

Lemma content_escaped_injective a :
  forall b, content_escaped a = content_escaped b -> a = b.
Proof.
  induction a as [|c a IH]; intros [|d b].
  - reflexivity.
  - rewrite content_escaped_cons.
    destruct (Ascii.eqb d backslash); [discriminate |].
    destruct (Ascii.eqb d double_quote); discriminate.
  - rewrite content_escaped_cons.
    destruct (Ascii.eqb c backslash); [discriminate |].
    destruct (Ascii.eqb c double_quote); discriminate.
  - rewrite !content_escaped_cons.
    destruct (Ascii.eqb c backslash) eqn:Ecb;
      destruct (Ascii.eqb d backslash) eqn:Edb;
      try destruct (Ascii.eqb c double_quote) eqn:Ecq;
      try destruct (Ascii.eqb d double_quote) eqn:Edq;
      repeat match goal with
             | H : Ascii.eqb _ _ = true |- _ => apply Ascii.eqb_eq in H
             | H : Ascii.eqb _ _ = false |- _ => apply Ascii.eqb_neq in H
             end;
      intros H; inversion H; subst;
      try congruence; try discriminate;
      f_equal; apply IH; assumption.
Qed.

Lemma content_escaped_plain s :
  all_chars plain_char s = true <-> content_escaped s = s.
Proof.
  induction s as [|c s IH]; [simpl; tauto |].
  rewrite content_escaped_cons. simpl. unfold plain_char at 1.
  destruct (Ascii.eqb c backslash) eqn:Eb; simpl.
  - apply Ascii.eqb_eq in Eb. subst c. split; [discriminate |].
    intros H. exfalso. apply (f_equal String.length) in H. simpl in H.
    assert (String.length s <= String.length (content_escaped s))%nat; [|lia].
    clear. induction s as [|c s IH]; [simpl; lia |].
    rewrite content_escaped_cons.
    destruct (Ascii.eqb c backslash); [simpl; lia |].
    destruct (Ascii.eqb c double_quote); simpl; lia.
  - destruct (Ascii.eqb c double_quote) eqn:Eq; simpl.
    + split; [discriminate |]. intros [= H _]. subst c. discriminate.
    + rewrite IH. split; [now intros -> | now intros [= ->]].
Qed.

(** X18: the escaping of the content of a label loses nothing: different
    contents are escaped to different texts; and it changes nothing
    exactly when the content has neither a backslash nor a double
    quote. *)
Theorem content_escaped_faithful (a b : string) :
  (content_escaped a = content_escaped b -> a = b)
  /\ (content_escaped a = a <-> all_chars plain_char a = true).
Proof.
  split; [apply content_escaped_injective |].
  symmetry. apply content_escaped_plain.
Qed.

Lemma rfind_lower_bound c p : (-1 <= rfind c p)%Z.
Proof.
  induction p as [|a p IH]; simpl; [lia |].
  destruct (Z.leb 0 (rfind c p)) eqn:E; [apply Z.leb_le in E; lia |].
  destruct (Ascii.eqb a c); lia.
Qed.

Lemma rfind_found c p :
  (0 <= rfind c p)%Z ->
  exists a b, p = a ++ String c b /\ String.length a = Z.to_nat (rfind c p).
Proof.
  induction p as [|x p IH]; simpl; [lia |].
  destruct (Z.leb 0 (rfind c p)) eqn:E.
  - apply Z.leb_le in E. intros _. destruct (IH E) as (a & b & -> & Hlen).
    exists (String x a), b. split; [reflexivity |]. simpl. rewrite Hlen. lia.
  - destruct (Ascii.eqb x c) eqn:Ex; [|lia].
    apply Ascii.eqb_eq in Ex. subst x. intros _. now exists "", p.
Qed.

Lemma substring_all s : substring 0 (String.length s) s = s.
Proof. induction s as [|c s IH]; simpl; [reflexivity | now rewrite IH]. Qed.

Lemma substring_head a b : substring 0 (String.length a) (a ++ b) = a.
Proof.
  induction a as [|c a IH]; simpl; [now destruct b | now rewrite IH].
Qed.

Lemma substring_tail a b :
  substring (String.length a) (String.length (a ++ b) - String.length a) (a ++ b)
  = b.
Proof.
  induction a as [|c a IH]; simpl.
  - rewrite Nat.sub_0_r. apply substring_all.
  - exact IH.
Qed.

(** [splitext] cuts the path in two, and the extension, if there is
    one, begins with a dot. *)
Lemma splitext_spec p :
  p = fst (splitext p) ++ snd (splitext p)
  /\ (snd (splitext p) = "" \/ exists r, snd (splitext p) = String "." r).
Proof.
  unfold splitext.
  destruct (Z.ltb (rfind "/" p) (rfind "." p) && has_stem p _ _) eqn:E; simpl.
  - apply andb_prop in E as [E _]. apply Z.ltb_lt in E.
    pose proof (rfind_lower_bound "/" p) as Hsep.
    destruct (rfind_found "." p) as (a & b & Hp & Hlen); [lia |].
    rewrite <- Hlen. clear Hlen E Hsep. subst p.
    rewrite substring_head, substring_tail. split; [reflexivity | eauto].
  - rewrite app_empty_r. auto.
Qed.

Lemma app_inv_head_s a x y : a ++ x = a ++ y -> x = y.
Proof. induction a as [|c a IH]; simpl; [auto | intros [= H]; auto]. Qed.

Lemma app_inv_tail_s x :
  forall y a b, x ++ a = y ++ b -> String.length a = String.length b -> a = b.
Proof.
  induction x as [|c x IH]; intros [|d y] a b H Hlen; simpl in H.
  - assumption.
  - apply (f_equal String.length) in H. simpl in H.
    rewrite length_app_s in H. lia.
  - apply (f_equal String.length) in H. simpl in H.
    rewrite length_app_s in H. lia.
  - injection H as _ H. exact (IH y a b H Hlen).
Qed.

Lemma lower_app a b : lower (a ++ b) = lower a ++ lower b.
Proof. induction a as [|c a IH]; simpl; [reflexivity | now rewrite IH]. Qed.

Lemma endswith_spec s suffix :
  endswith s suffix = true -> exists x, s = x ++ suffix.
Proof.
  induction s as [|c s IH]; cbn [endswith].
  - rewrite orb_false_r. intros H. apply String.eqb_eq in H. now exists "".
  - intros [H | H]%orb_prop.
    + apply String.eqb_eq in H. now exists "".
    + destruct (IH H) as [x ->]. now exists (String c x).
Qed.

(** X19: for an argument the main program accepts, a path that ends in
    [.svg] in small or capital letters, the cleaned SVG and the Typst
    script are written to two different paths, neither of which is the
    path of the input. *)
Theorem outputs_never_overwrite_input (input_path : string) :
  is_svg_file input_path = true ->
  clean_svg_path input_path <> input_path
  /\ typst_path input_path <> input_path
  /\ clean_svg_path input_path <> typst_path input_path.
Proof.
  intros Hsvg. unfold clean_svg_path, typst_path.
  destruct (splitext_spec input_path) as [Hp Hext].
  remember (fst (splitext input_path)) as base eqn:Eb.
  remember (snd (splitext input_path)) as ext eqn:Ee.
  clear Eb Ee. subst input_path.
  split; [|split].
  - intros H. apply app_inv_head_s in H.
    destruct Hext as [He | [r He]]; rewrite He in H; discriminate.
  - intros H. apply app_inv_head_s in H.
    unfold is_svg_file in Hsvg. rewrite <- H, lower_app in Hsvg.
    apply endswith_spec in Hsvg as [x Hx].
    apply app_inv_tail_s in Hx; [discriminate | reflexivity].
  - intros H. apply app_inv_head_s in H. discriminate.
Qed.

(** * The further properties at concrete inputs *)

Lemma extract_label_figure :
  extract_label decimal figure_node = Ok (Some figure_label).
Proof.
  rewrite extract_label_eq.
  pose proof sqrt_1 as Hsq. set (sq := sqrt) in *. clearbody sq.
  vm_compute.
  match goal with |- context [sq ?t] => replace t with 1 by lra end.
  rewrite Hsq. f_equal. f_equal. apply Label_ext; lra.
Qed.

Lemma extract_labels_cons float n nodes ls rm :
  extract_labels float (n :: nodes) ls rm =
  let* l := extract_label float n in
  match l with
  | None => extract_labels float nodes ls rm
  | Some l => extract_labels float nodes (ls ++ [l])%list
                (rm ++ [node_path n])%list
  end.
Proof. reflexivity. Qed.

Lemma process_svg_figure :
  process_svg decimal figure_root = Ok figure_conversion.
Proof.
  unfold process_svg.
  replace (parse_svg_dimensions decimal figure_root) with (Ok (75, 37.5))
    by (vm_compute; f_equal; f_equal; lra).
  replace (xpath_text [] [] figure_root) with [figure_node] by reflexivity.
  rewrite extract_labels_cons, extract_label_figure. reflexivity.
Qed.

Lemma process_svg_blank :
  process_svg decimal blank_root = Ok (Conversion 75 75 [] [] blank_root).
Proof. vm_compute. f_equal. f_equal; lra. Qed.

Lemma process_svg_scaled_figure :
  process_svg decimal scaled_figure_root = Ok scaled_figure_conversion.
Proof.
  assert (extract_label decimal
            (Node [1; 0]%nat [label_group; scaled_figure_root] label_text)
          = Ok (Some figure_label)) as Hl.
  { rewrite extract_label_eq.
    pose proof sqrt_1 as Hsq. set (sq := sqrt) in *. clearbody sq.
    vm_compute.
    match goal with |- context [sq ?t] => replace t with 1 by lra end.
    rewrite Hsq. f_equal. f_equal. apply Label_ext; lra. }
  unfold process_svg.
  replace (parse_svg_dimensions decimal scaled_figure_root) with (Ok (150, 75))
    by (vm_compute; f_equal; f_equal; lra).
  replace (xpath_text [] [] scaled_figure_root)
    with [Node [1; 0]%nat [label_group; scaled_figure_root] label_text]
    by reflexivity.
  rewrite extract_labels_cons, Hl. reflexivity.
Qed.

(** * The labels and the attributes of the root *)

(** Under two roots, the text elements of a subtree are the same, at the
    same paths, below the same ancestors up to the root. *)
Lemma xpath_text_roots r1 r2 e :
  forall inner path,
    Forall2 (fun n1 n2 =>
               node_path n1 = node_path n2
               /\ node_element n1 = node_element n2
               /\ exists inner',
                    node_ancestors n1 = (inner' ++ [r1])%list
                    /\ node_ancestors n2 = (inner' ++ [r2])%list)
      (xpath_text (inner ++ [r1]) path e) (xpath_text (inner ++ [r2]) path e).
Proof.
  induction e as [t a x cs tl IH] using element_children_ind.
  intros inner path.
  rewrite (xpath_text_eq (inner ++ [r1])%list), (xpath_text_eq (inner ++ [r2])%list).
  apply Forall2_app.
  - destruct (String.eqb _ _); constructor; [|constructor].
    simpl. split; [reflexivity |]. split; [reflexivity |]. now exists inner.
  - simpl children. generalize (Element t a x cs tl) 0%nat. intros parent.
    induction IH as [|c cs Hc _ IHcs]; intros i; simpl; [constructor |].
    apply Forall2_app; [|apply IHcs].
    apply (Hc (parent :: inner)).
Qed.

Lemma xpath_children_roots r1 r2 cs :
  forall inner path i,
    Forall2 (fun n1 n2 =>
               node_path n1 = node_path n2
               /\ node_element n1 = node_element n2
               /\ exists inner',
                    node_ancestors n1 = (inner' ++ [r1])%list
                    /\ node_ancestors n2 = (inner' ++ [r2])%list)
      (xpath_children (inner ++ [r1]) path i cs)
      (xpath_children (inner ++ [r2]) path i cs).
Proof.
  induction cs as [|c cs IH]; intros inner path i; simpl; [constructor |].
  apply Forall2_app; [apply xpath_text_roots | apply IH].
Qed.

Section Root_more.

Variable float : string -> option R.

Lemma extract_labels_roots r1 r2 nodes1 nodes2 :
  String.eqb (tag r1) (QName SVG_NS "svg") = true ->
  String.eqb (tag r2) (QName SVG_NS "svg") = true ->
  Forall2 (fun n1 n2 =>
             node_path n1 = node_path n2
             /\ node_element n1 = node_element n2
             /\ exists inner',
                  node_ancestors n1 = (inner' ++ [r1])%list
                  /\ node_ancestors n2 = (inner' ++ [r2])%list)
    nodes1 nodes2 ->
  forall ls rm,
    extract_labels float nodes1 ls rm = extract_labels float nodes2 ls rm.
Proof.
  intros H1 H2 Hnodes.
  induction Hnodes as [|n1 n2 ns1 ns2 (Hp & He & inner & Ha1 & Ha2) _ IH];
    intros ls rm; [reflexivity |].
  rewrite !extract_labels_cons.
  assert (extract_label float n1 = extract_label float n2) as ->.
  { rewrite !extract_label_eq. cbv zeta. rewrite He, Ha1, Ha2.
    now rewrite (get_cumulative_transform_above_svg float inner r1 r2 [] []
                   (node_element n2) H1 H2). }
  rewrite Hp. destruct (extract_label float n2) as [[l|]|]; simpl;
    [apply IH | apply IH | reflexivity].
Qed.

(** X20: the labels depend on the children of the root only: two
    documents whose roots have the same children give the same labels and
    mark the same elements, or fail in the loop with the same error,
    whatever the attributes of the two roots, their viewBox and their
    transform included. *)
Theorem labels_ignore_root_attributes
    (attrib1 attrib2 : gmap string string) (text1 text2 tail1 tail2 : string)
    (cs : list element) :
  extract_labels float
    (xpath_text [] [] (Element (QName SVG_NS "svg") attrib1 text1 cs tail1)) [] []
  = extract_labels float
      (xpath_text [] [] (Element (QName SVG_NS "svg") attrib2 text2 cs tail2)) [] []
  /\ forall conv1 conv2,
       process_svg float (Element (QName SVG_NS "svg") attrib1 text1 cs tail1)
       = Ok conv1 ->
       process_svg float (Element (QName SVG_NS "svg") attrib2 text2 cs tail2)
       = Ok conv2 ->
       labels conv1 = labels conv2
       /\ text_nodes_to_remove conv1 = text_nodes_to_remove conv2.
Proof.
  set (r1 := Element (QName SVG_NS "svg") attrib1 text1 cs tail1).
  set (r2 := Element (QName SVG_NS "svg") attrib2 text2 cs tail2).
  assert (extract_labels float (xpath_text [] [] r1) [] []
          = extract_labels float (xpath_text [] [] r2) [] []) as Hsame.
  { apply (extract_labels_roots r1 r2); [reflexivity | reflexivity |].
    rewrite !xpath_text_eq.
    replace (String.eqb (tag r1) (QName SVG_NS "text")) with false
      by reflexivity.
    replace (String.eqb (tag r2) (QName SVG_NS "text")) with false
      by reflexivity.
    simpl app. exact (xpath_children_roots r1 r2 cs [] [] 0%nat). }
  split; [exact Hsame |].
  intros conv1 conv2 Hrun1 Hrun2.
  destruct (process_svg_inv float r1 conv1 Hrun1) as (_ & E1 & _ & _).
  destruct (process_svg_inv float r2 conv2 Hrun2) as (_ & E2 & _ & _).
  rewrite Hsame, E2 in E1. now injection E1.
Qed.

End Root_more.

Lemma parse_transform_app_witness :
  last_char "translate(1,0)" = Some ")"%char
  /\ parse_transform decimal (Some ("translate(1,0)" ++ " scale(2)"))
     = let* A := parse_transform decimal (Some "translate(1,0)") in
       let* B := parse_transform decimal (Some " scale(2)") in
       Ok (B @@ A).
Proof.
  split; [reflexivity |].
  exact (parse_transform_app decimal "translate(1,0)" " scale(2)" eq_refl).
Defined.

Lemma parse_transform_acts_in_order_witness :
  Forall2 (has_matrix decimal) (findall "translate(1,0) scale(2)")
    [translation 1 0; scaling 2 2]
  /\ parse_transform decimal (Some "translate(1,0) scale(2)")
     = Ok (scaling 2 2 @@ translation 1 0)
  /\ matvec (scaling 2 2 @@ translation 1 0) (3, 4, 1)
     = apply_in_order [translation 1 0; scaling 2 2] (3, 4, 1).
Proof.
  assert (Forall2 (has_matrix decimal) (findall "translate(1,0) scale(2)")
            [translation 1 0; scaling 2 2]) as HMs.
  { replace (findall "translate(1,0) scale(2)")
      with [(Ftranslate, "1,0"); (Fscale, "2")] by reflexivity.
    repeat constructor; unfold has_matrix; vm_compute; f_equal;
      apply Mat_ext; lra. }
  assert (parse_transform decimal (Some "translate(1,0) scale(2)")
          = Ok (scaling 2 2 @@ translation 1 0)) as HT
    by (vm_compute; f_equal; apply Mat_ext; lra).
  split; [exact HMs |]. split; [exact HT |].
  exact (proj1 (parse_transform_acts_in_order decimal _ _ _ HMs HT 3 4)).
Defined.

Lemma parse_transform_error_witness :
  parse_transform decimal (Some "translate(a)") = Raise (FloatError "a")
  /\ exists f args tok,
       In (f, args) (findall "translate(a)") /\ In tok (re_split (strip args))
       /\ decimal tok = None /\ FloatError "a" = FloatError tok.
Proof.
  assert (parse_transform decimal (Some "translate(a)") = Raise (FloatError "a"))
    as H by reflexivity.
  split; [exact H |].
  exact (parse_transform_error decimal "translate(a)" (FloatError "a") H).
Defined.

Lemma call_arguments_witness :
  args_well_formed " " "2" [(" , ", "3")] " " = true
  /\ parse_transform decimal
       (Some (func_name Fscale ++ "(" ++ padded_args " " "2" [(" , ", "3")] " "
              ++ ")"))
     = let* xs := floats decimal ["2"; "3"] in function_matrix Fscale xs.
Proof.
  split; [reflexivity |].
  exact (call_arguments decimal Fscale " " "2" [(" , ", "3")] " " eq_refl).
Defined.

Lemma translate_one_argument_witness :
  all_chars isspace " " = true /\ all_chars isspace "" = true
  /\ is_token "5" = true /\ decimal "5" = Some 5
  /\ parse_transform decimal (Some ("translate(" ++ " " ++ "5" ++ "" ++ ")"))
     = Ok (translation 5 0).
Proof.
  assert (decimal "5" = Some 5) as H5 by (vm_compute; f_equal; lra).
  split; [reflexivity |]. split; [reflexivity |]. split; [reflexivity |].
  split; [exact H5 |].
  exact (proj1 (translate_one_argument decimal " " "5" "" 5
                  eq_refl eq_refl eq_refl H5)).
Defined.

Lemma matrix_six_arguments_witness :
  args_well_formed "" "1"
    [(",", "0"); (" ", "0"); (", ", "1"); (",", "5"); (",", "6")] "" = true
  /\ floats decimal ["1"; "0"; "0"; "1"; "5"; "6"] = Ok [1; 0; 0; 1; 5; 6]
  /\ exists T,
       parse_transform decimal
         (Some ("matrix("
                ++ padded_args "" "1"
                     [(",", "0"); (" ", "0"); (", ", "1"); (",", "5"); (",", "6")]
                     ""
                ++ ")")) = Ok T
       /\ forall x y,
            matvec T (x, y, 1) = (1 * x + 0 * y + 5, 0 * x + 1 * y + 6, 1).
Proof.
  assert (floats decimal ["1"; "0"; "0"; "1"; "5"; "6"] = Ok [1; 0; 0; 1; 5; 6])
    as Hxs by (vm_compute; repeat f_equal; lra).
  split; [reflexivity |]. split; [exact Hxs |].
  exact (matrix_six_arguments decimal "" "1"
           [(",", "0"); (" ", "0"); (", ", "1"); (",", "5"); (",", "6")] ""
           1 0 0 1 5 6 eq_refl Hxs).
Defined.

Lemma get_cumulative_transform_below_svg_witness :
  String.eqb (tag label_root) (QName SVG_NS "svg") = true
  /\ String.eqb (tag bare_root) (QName SVG_NS "svg") = true
  /\ get_cumulative_transform decimal ([label_group] ++ label_root :: []) label_text
     = get_cumulative_transform decimal
         ([label_group] ++ bare_root :: [broken_group]) label_text.
Proof.
  split; [reflexivity |]. split; [reflexivity |].
  exact (proj2 (get_cumulative_transform_below_svg decimal [] label_text)
           [label_group] label_root bare_root [] [broken_group]
           eq_refl eq_refl).
Defined.

Lemma get_cumulative_transform_acts_outwards_witness :
  Forall2 (fun a M => own_transform decimal a = Ok M)
    (below_svg [label_group; label_root]) [translation 5 5]
  /\ own_transform decimal label_text = Ok identity
  /\ get_cumulative_transform decimal [label_group; label_root] label_text
     = Ok (mat_product (rev [identity; translation 5 5])).
Proof.
  assert (Forall2 (fun a M => own_transform decimal a = Ok M)
            (below_svg [label_group; label_root]) [translation 5 5]) as HAs.
  { replace (below_svg [label_group; label_root]) with [label_group]
      by reflexivity.
    repeat constructor. vm_compute. f_equal. apply Mat_ext; lra. }
  assert (own_transform decimal label_text = Ok identity) as HE
    by (vm_compute; f_equal; apply Mat_ext; lra).
  split; [exact HAs |]. split; [exact HE |].
  exact (proj1 (get_cumulative_transform_acts_outwards decimal
                  [label_group; label_root] label_text [translation 5 5]
                  identity HAs HE)).
Defined.

Lemma get_cumulative_transform_raises_iff_witness :
  In broken_group (below_svg [broken_group; label_root])
  /\ raises (own_transform decimal broken_group)
  /\ raises (get_cumulative_transform decimal [broken_group; label_root]
               label_text).
Proof.
  assert (In broken_group (below_svg [broken_group; label_root])) as Hin
    by (vm_compute; left; reflexivity).
  assert (raises (own_transform decimal broken_group)) as Hr
    by (exists (FloatError "a"); reflexivity).
  split; [exact Hin |]. split; [exact Hr |].
  apply (proj2 (get_cumulative_transform_raises_iff decimal
                  [broken_group; label_root] label_text)).
  left. exists broken_group. split; assumption.
Defined.

Lemma labels_in_document_order_witness :
  process_svg decimal figure_root = Ok figure_conversion
  /\ Forall2 (labelled decimal)
       (List.filter nonblank (xpath_text [] [] figure_root))
       (labels figure_conversion)
  /\ text_nodes_to_remove figure_conversion
     = map node_path (List.filter nonblank (xpath_text [] [] figure_root))
  /\ length (labels figure_conversion)
     = length (text_nodes_to_remove figure_conversion).
Proof.
  split; [exact process_svg_figure |].
  exact (labels_in_document_order decimal figure_root figure_conversion
           process_svg_figure).
Defined.

Lemma label_content_stripped_witness :
  process_svg decimal figure_root = Ok figure_conversion
  /\ In figure_label (labels figure_conversion)
  /\ content figure_label <> ""
  /\ strip (content figure_label) = content figure_label
  /\ starts_with isspace (content figure_label) = false
  /\ exists c, last_char (content figure_label) = Some c /\ isspace c = false.
Proof.
  split; [exact process_svg_figure |].
  split; [left; reflexivity |].
  exact (label_content_stripped decimal figure_root figure_conversion
           figure_label process_svg_figure (or_introl eq_refl)).
Defined.

Lemma first_failing_text_element_witness :
  xpath_text [] [] glyphs_root
  = ([] ++ Node [0%nat] [glyphs_root] glyphs_text :: [])%list
  /\ extract_label decimal (Node [0%nat] [glyphs_root] glyphs_text)
     = Raise (FloatError "10 20")
  /\ parse_svg_dimensions decimal glyphs_root = Ok (75, 75)
  /\ process_svg decimal glyphs_root = Raise (FloatError "10 20").
Proof.
  assert (parse_svg_dimensions decimal glyphs_root = Ok (75, 75)) as Hd
    by (vm_compute; f_equal; f_equal; lra).
  split; [reflexivity |]. split; [reflexivity |]. split; [exact Hd |].
  exact (first_failing_text_element decimal glyphs_root [] []
           (Node [0%nat] [glyphs_root] glyphs_text) (FloatError "10 20")
           eq_refl (List.Forall_nil _) eq_refl (ex_intro _ (75, 75) Hd)).
Defined.

Lemma font_size_under_scaling_witness :
  labelled decimal figure_node figure_label
  /\ font_size_px_of decimal (get_or (node_element figure_node) "style" "")
     = Ok 20
  /\ get_cumulative_transform decimal (node_ancestors figure_node)
       (node_element figure_node) = Ok (translation 5 5)
  /\ m10 (translation 5 5) = 0
  /\ font_size_pt figure_label = 20 * Rabs (m11 (translation 5 5)) * (72 / 96).
Proof.
  assert (font_size_px_of decimal (get_or (node_element figure_node) "style" "")
          = Ok 20) as Hs by (vm_compute; f_equal; lra).
  assert (get_cumulative_transform decimal (node_ancestors figure_node)
            (node_element figure_node) = Ok (translation 5 5)) as HT
    by (vm_compute; f_equal; apply Mat_ext; lra).
  split; [exact extract_label_figure |]. split; [exact Hs |].
  split; [exact HT |]. split; [reflexivity |].
  exact (font_size_under_scaling decimal figure_node figure_label 20
           (translation 5 5) extract_label_figure Hs HT eq_refl).
Defined.

Lemma cleaned_tree_is_a_fixed_point_witness :
  process_svg decimal figure_root = Ok figure_conversion
  /\ process_svg decimal (clean_svg figure_conversion)
     = Ok (Conversion (width_pt figure_conversion) (height_pt figure_conversion)
             [] [] (clean_svg figure_conversion)).
Proof.
  split; [exact process_svg_figure |].
  exact (proj2 (cleaned_tree_is_a_fixed_point decimal figure_root
                  figure_conversion process_svg_figure)).
Defined.

Lemma no_text_no_change_witness :
  process_svg decimal blank_root = Ok (Conversion 75 75 [] [] blank_root)
  /\ Forall (fun n => nonblank n = false) (xpath_text [] [] blank_root)
  /\ labels (Conversion 75 75 [] [] blank_root) = []
  /\ text_nodes_to_remove (Conversion 75 75 [] [] blank_root) = []
  /\ clean_svg (Conversion 75 75 [] [] blank_root) = blank_root.
Proof.
  assert (Forall (fun n => nonblank n = false) (xpath_text [] [] blank_root))
    as Hblank.
  { replace (xpath_text [] [] blank_root) with [blank_node] by reflexivity.
    repeat constructor. }
  split; [exact process_svg_blank |]. split; [exact Hblank |].
  exact (no_text_no_change decimal blank_root _ process_svg_blank Hblank).
Defined.

Lemma graphics_are_kept_witness :
  process_svg decimal figure_root = Ok figure_conversion
  /\ subtree figure_root [0%nat] = Some figure_rect
  /\ xpath_text [] [] figure_rect = []
  /\ occurs figure_rect (clean_svg figure_conversion).
Proof.
  split; [exact process_svg_figure |]. split; [reflexivity |].
  split; [reflexivity |].
  apply (graphics_are_kept decimal figure_root figure_conversion [0%nat]
           figure_rect process_svg_figure eq_refl eq_refl).
  intros n q' Hn _.
  replace (xpath_text [] [] figure_root) with [figure_node] in Hn
    by reflexivity.
  destruct Hn as [<- | []]. simpl. discriminate.
Defined.

Lemma viewbox_fallback_witness :
  present (get viewbox_root "width") && present (get viewbox_root "height")
  = false
  /\ get viewbox_root "viewBox" = Some "0 0 200 100"
  /\ parse_svg_dimensions decimal viewbox_root
     = Ok (200 * (72 / 96), 100 * (72 / 96)).
Proof.
  assert (decimal "0" = Some 0) as H0 by (vm_compute; f_equal; lra).
  assert (decimal "200" = Some 200) as H200 by (vm_compute; f_equal; lra).
  assert (decimal "100" = Some 100) as H100 by (vm_compute; f_equal; lra).
  split; [reflexivity |]. split; [reflexivity |].
  apply (proj1 (viewbox_fallback decimal viewbox_root "0 0 200 100"
                  eq_refl eq_refl)).
  exists "0", "0", "200", "100", 0, 0, 200, 100.
  split; [reflexivity |]. auto 10.
Defined.

Lemma content_escaped_faithful_witness :
  (content_escaped "Label" = content_escaped "Label" /\ "Label" = "Label")
  /\ (all_chars plain_char "Label" = true /\ content_escaped "Label" = "Label").
Proof.
  split.
  - split; [reflexivity |].
    exact (proj1 (content_escaped_faithful "Label" "Label") eq_refl).
  - split; [reflexivity |].
    exact (proj2 (proj2 (content_escaped_faithful "Label" "Label")) eq_refl).
Defined.

Lemma outputs_never_overwrite_input_witness :
  is_svg_file "dir/fig.svg" = true
  /\ clean_svg_path "dir/fig.svg" <> "dir/fig.svg"
  /\ typst_path "dir/fig.svg" <> "dir/fig.svg"
  /\ clean_svg_path "dir/fig.svg" <> typst_path "dir/fig.svg".
Proof.
  split; [reflexivity |].
  exact (outputs_never_overwrite_input "dir/fig.svg" eq_refl).
Defined.

Lemma labels_ignore_root_attributes_witness :
  process_svg decimal figure_root = Ok figure_conversion
  /\ process_svg decimal scaled_figure_root = Ok scaled_figure_conversion
  /\ labels figure_conversion = labels scaled_figure_conversion
  /\ text_nodes_to_remove figure_conversion
     = text_nodes_to_remove scaled_figure_conversion.
Proof.
  split; [exact process_svg_figure |].
  split; [exact process_svg_scaled_figure |].
  exact (proj2 (labels_ignore_root_attributes decimal
                  {[ "width" := "100px"; "height" := "50px" ]}
                  {[ "viewBox" := "0 0 200 100"; "transform" := "scale(2)" ]}
                  "" "" "" "" [figure_rect; label_group])
           figure_conversion scaled_figure_conversion
           process_svg_figure process_svg_scaled_figure).
Defined.
